(** * The nginx pool allocator (src/core/ngx_palloc.c)

    A shallow embedding of the pool allocator: the block chain, the small
    and large allocators, block growth, the cleanup chain, and the pool
    life cycle (create, reset, destroy).

    Pointers are addresses in [Z] and [NULL] is 0.  The three linked lists
    of a pool (blocks through [d.next], large nodes and cleanup nodes through
    [next]) are lists, head first; [current] is a position in the block
    chain.  The underlying allocator, the handlers and the memory that
    cleanup data points to are the environment [env]: the allocator answers
    from a list of results fixed in advance, and every call that leaves the
    file (allocate, release, run a handler) is appended to a trace. *)

From Stdlib Require Import ZArith Lia List.
From stdpp Require Import base list.

Local Open Scope Z_scope.

(** ** Platform constants

    [ngx_palloc.c] takes these from [ngx_config.h], [ngx_palloc.h] and the
    C compiler; none of them is defined in the file itself, so they are
    parameters of the model. *)

Class platform : Type := {
  (** width in bits of [size_t], [uintptr_t] and [ngx_uint_t] *)
  size_t_bits : Z;
  NGX_ALIGNMENT : Z;
  NGX_POOL_ALIGNMENT : Z;
  NGX_MAX_ALLOC_FROM_POOL : Z;
  sizeof_ngx_pool_data_t : Z;
  sizeof_ngx_pool_t : Z;
  sizeof_ngx_pool_large_t : Z;
  sizeof_ngx_pool_cleanup_t : Z
}.

(** What the proofs use of a platform: [ngx_pool_t] starts with an
    [ngx_pool_data_t] and has at least one more aligned word after it, and
    the alignment of a block is a multiple of the alignment of a pointer. *)
Definition platform_ok {pf : platform} : Prop :=
  0 < size_t_bits /\
  0 < NGX_ALIGNMENT /\
  0 < NGX_POOL_ALIGNMENT /\
  NGX_POOL_ALIGNMENT mod NGX_ALIGNMENT = 0 /\
  0 <= sizeof_ngx_pool_data_t /\
  sizeof_ngx_pool_data_t + NGX_ALIGNMENT <= sizeof_ngx_pool_t.

(** The usual 64-bit platform: 8-byte [unsigned long], 16-byte pool
    alignment, a 4096-byte page. *)
Definition lp64 : platform := {|
  size_t_bits := 64;
  NGX_ALIGNMENT := 8;
  NGX_POOL_ALIGNMENT := 16;
  NGX_MAX_ALLOC_FROM_POOL := 4095;
  sizeof_ngx_pool_data_t := 32;
  sizeof_ngx_pool_t := 80;
  sizeof_ngx_pool_large_t := 16;
  sizeof_ngx_pool_cleanup_t := 24
|}.

Definition NULL : Z := 0.

(** The cast [(size_t) z]. *)
Definition to_size_t {pf : platform} (z : Z) : Z := z mod 2 ^ size_t_bits.

(** [x++] on an [ngx_uint_t]. *)
Definition uint_incr {pf : platform} (x : Z) : Z := (x + 1) mod 2 ^ size_t_bits.

(** Modelled from the spec: [ngx_align_ptr(p, a)] is a macro of
    [ngx_config.h], which is not part of the sources at hand.  The spec has
    it round the address up to the next multiple of the boundary. *)
Definition ngx_align_ptr (p a : Z) : Z := (p + (a - 1)) / a * a.

(** ** Data model *)

(** One block of the chain.  [d_addr] is the address of the block itself
    (the value of the pointer [p]); the other three are [p->d.last],
    [p->d.end] and [p->d.failed].  [p->d.next] is the next element of the
    list the block stands in. *)
Record ngx_pool_data_t : Type := {
  d_addr : Z;
  d_last : Z;
  d_end : Z;
  d_failed : Z
}.

(** A node of the large list: where the node lives, and its payload. *)
Record ngx_pool_large_t : Type := {
  l_addr : Z;
  alloc : Z
}.

(** The functions a cleanup node's [handler] may point to: the two of this
    file, and any other (by a number that stands for its address). *)
Inductive ngx_pool_cleanup_pt : Type :=
| ngx_pool_cleanup_file
| ngx_pool_delete_file
| other_handler (id : Z).

(** A node of the cleanup list; [handler = None] is the NULL handler. *)
Record ngx_pool_cleanup_t : Type := {
  c_addr : Z;
  handler : option ngx_pool_cleanup_pt;
  data : Z
}.

(** What [c->data] points to when the handler is one of the file handlers. *)
Record ngx_pool_cleanup_file_t : Type := {
  fd : Z;
  name : Z;
  cf_log : Z
}.

(** The pool: the chain of blocks with the root block first, and the
    fields of [ngx_pool_t] that only the root block carries. *)
Record ngx_pool_t : Type := {
  blocks : list ngx_pool_data_t;
  max : Z;
  current : nat;
  chain : Z;
  large : list ngx_pool_large_t;
  cleanup : list ngx_pool_cleanup_t;
  log : Z
}.

Inductive ngx_int_t : Type := NGX_OK | NGX_DECLINED.

Definition null_block : ngx_pool_data_t :=
  {| d_addr := NULL; d_last := NULL; d_end := NULL; d_failed := 0 |}.

(** The block [pool] itself points to. *)
Definition root (pool : ngx_pool_t) : ngx_pool_data_t := hd null_block (blocks pool).

Definition set_last (p : ngx_pool_data_t) (v : Z) : ngx_pool_data_t :=
  {| d_addr := d_addr p; d_last := v; d_end := d_end p; d_failed := d_failed p |}.

Definition set_failed (p : ngx_pool_data_t) (v : Z) : ngx_pool_data_t :=
  {| d_addr := d_addr p; d_last := d_last p; d_end := d_end p; d_failed := v |}.

Definition set_alloc (l : ngx_pool_large_t) (v : Z) : ngx_pool_large_t :=
  {| l_addr := l_addr l; alloc := v |}.

Definition set_handler (c : ngx_pool_cleanup_t) (h : option ngx_pool_cleanup_pt)
  : ngx_pool_cleanup_t :=
  {| c_addr := c_addr c; handler := h; data := data c |}.

Definition set_blocks (pool : ngx_pool_t) (bs : list ngx_pool_data_t) (cur : nat)
  : ngx_pool_t :=
  {| blocks := bs; max := max pool; current := cur; chain := chain pool;
     large := large pool; cleanup := cleanup pool; log := log pool |}.

Definition set_large (pool : ngx_pool_t) (ls : list ngx_pool_large_t) : ngx_pool_t :=
  {| blocks := blocks pool; max := max pool; current := current pool;
     chain := chain pool; large := ls; cleanup := cleanup pool; log := log pool |}.

Definition set_cleanup (pool : ngx_pool_t) (cs : list ngx_pool_cleanup_t) : ngx_pool_t :=
  {| blocks := blocks pool; max := max pool; current := current pool;
     chain := chain pool; large := large pool; cleanup := cs; log := log pool |}.

(** ** The environment *)

Inductive event : Type :=
| ev_alloc (size p : Z)                 (* ngx_alloc(size, log) returned p *)
| ev_memalign (alignment size p : Z)    (* ngx_memalign(alignment, size, log) returned p *)
| ev_free (p : Z)                       (* ngx_free(p) *)
| ev_handler (h : ngx_pool_cleanup_pt) (d : Z).   (* the call h(d) *)

Record env : Type := {
  (** what the next calls of the underlying allocator return, in order;
      once the list is used up, every request fails *)
  heap : list Z;
  (** the memory behind a cleanup node's [data], read as a file record *)
  files : Z -> ngx_pool_cleanup_file_t;
  trace : list event
}.

Definition M (A : Type) : Type := env -> A * env.

Definition ret {A : Type} (a : A) : M A := fun e => (a, e).

Definition bind {A B : Type} (m : M A) (k : A -> M B) : M B :=
  fun e => let (a, e') := m e in k a e'.

Notation "'let*' x ':=' m 'in' k" := (bind m (fun x => k))
  (at level 10, x pattern, m at level 100, k at level 200).
Notation "m ;;; k" := (bind m (fun _ => k))
  (at level 100, right associativity).

(** The environment after the calls [evs] were made. *)
Definition log_events (e : env) (evs : list event) : env :=
  {| heap := heap e; files := files e; trace := trace e ++ evs |}.

Definition emit (ev : event) : M unit := fun e => (tt, log_events e [ev]).

(** The environment after the allocator gave its next answer. *)
Definition pop_answer (e : env) : env :=
  {| heap := tl (heap e); files := files e; trace := trace e |}.

(** The next answer of the underlying allocator. *)
Definition next_answer : M Z := fun e => (hd NULL (heap e), pop_answer e).

Definition ngx_alloc (size : Z) : M Z :=
  let* p := next_answer in emit (ev_alloc size p) ;;; ret p.

Definition ngx_memalign (alignment size : Z) : M Z :=
  let* p := next_answer in emit (ev_memalign alignment size p) ;;; ret p.

Definition ngx_free (p : Z) : M unit := emit (ev_free p).

Definition call_handler (h : ngx_pool_cleanup_pt) (d : Z) : M unit :=
  emit (ev_handler h d).

Definition read_file (d : Z) : M ngx_pool_cleanup_file_t :=
  fun e => (files e d, e).

(** ** Pool life cycle *)

(** [ngx_create_pool(size, log)]. *)
Definition ngx_create_pool {pf : platform} (size lg : Z) : M (option ngx_pool_t) :=
  let* p := ngx_memalign NGX_POOL_ALIGNMENT size in
  if p =? NULL then ret None
  else
    let size' := to_size_t (size - sizeof_ngx_pool_t) in
    ret (Some {|
      blocks := [ {| d_addr := p; d_last := p + sizeof_ngx_pool_t;
                     d_end := p + size; d_failed := 0 |} ];
      max := if size' <? NGX_MAX_ALLOC_FROM_POOL then size' else NGX_MAX_ALLOC_FROM_POOL;
      current := 0%nat;
      chain := NULL;
      large := [];
      cleanup := [];
      log := lg |}).

(** [for (c = pool->cleanup; c; c = c->next) if (c->handler) c->handler(c->data);] *)
Fixpoint run_cleanups (cs : list ngx_pool_cleanup_t) : M unit :=
  match cs with
  | [] => ret tt
  | c :: rest =>
      match handler c with
      | Some h => call_handler h (data c) ;;; run_cleanups rest
      | None => run_cleanups rest
      end
  end.

(** [for (l = pool->large; l; l = l->next) if (l->alloc) ngx_free(l->alloc);] *)
Fixpoint free_large (ls : list ngx_pool_large_t) : M unit :=
  match ls with
  | [] => ret tt
  | l :: rest =>
      if alloc l =? NULL then free_large rest
      else ngx_free (alloc l) ;;; free_large rest
  end.

(** [for (p = pool, n = pool->d.next; ; p = n, n = n->d.next)
       { ngx_free(p); if (n == NULL) break; }] *)
Fixpoint free_blocks (bs : list ngx_pool_data_t) : M unit :=
  match bs with
  | [] => ret tt
  | p :: rest => ngx_free (d_addr p) ;;; free_blocks rest
  end.

(** [ngx_destroy_pool(pool)] (the [NGX_DEBUG] part only logs). *)
Definition ngx_destroy_pool (pool : ngx_pool_t) : M unit :=
  run_cleanups (cleanup pool) ;;;
  free_large (large pool) ;;;
  free_blocks (blocks pool).

(** The body of the second loop of [ngx_reset_pool]. *)
Definition reset_block {pf : platform} (p : ngx_pool_data_t) : ngx_pool_data_t :=
  {| d_addr := d_addr p; d_last := d_addr p + sizeof_ngx_pool_t;
     d_end := d_end p; d_failed := 0 |}.

(** [ngx_reset_pool(pool)]. *)
Definition ngx_reset_pool {pf : platform} (pool : ngx_pool_t) : M ngx_pool_t :=
  free_large (large pool) ;;;
  ret {| blocks := map reset_block (blocks pool);
         max := max pool;
         current := 0%nat;
         chain := NULL;
         large := [];
         cleanup := cleanup pool;
         log := log pool |}.

(** ** Small allocations and block growth *)

(** The [do ... while (p)] loop of [ngx_palloc_small] over the blocks from
    [pool->current] on: the address handed out and the blocks after the
    cursor of the block that had room was moved, or [None] when the loop
    ends with no block found. *)
Fixpoint palloc_scan {pf : platform} (bs : list ngx_pool_data_t) (size : Z) (align : bool)
  : option (Z * list ngx_pool_data_t) :=
  match bs with
  | [] => None
  | p :: rest =>
      let m := d_last p in
      let m := if align then ngx_align_ptr m NGX_ALIGNMENT else m in
      if size <=? to_size_t (d_end p - m) then
        Some (m, set_last p (m + size) :: rest)
      else
        match palloc_scan rest size align with
        | Some (r, rest') => Some (r, p :: rest')
        | None => None
        end
  end.

(** The loop of [ngx_palloc_block]:
    [for (p = pool->current; p->d.next; p = p->d.next)
       if (p->d.failed++ > 4) pool->current = p->d.next;]
    over the blocks from [pool->current] on; [i] is the position of the
    first of them in the chain and [cur] the value of [pool->current]. *)
Fixpoint failed_walk {pf : platform} (bs : list ngx_pool_data_t) (i cur : nat)
  : list ngx_pool_data_t * nat :=
  match bs with
  | [] => ([], cur)
  | p :: rest =>
      match rest with
      | [] => ([p], cur)
      | _ :: _ =>
          let cur' := if d_failed p >? 4 then S i else cur in
          let '(rest', c) := failed_walk rest (S i) cur' in
          (set_failed p (uint_incr (d_failed p)) :: rest', c)
      end
  end.

(** [ngx_palloc_block(pool, size)]. *)
Definition ngx_palloc_block {pf : platform} (pool : ngx_pool_t) (size : Z)
  : M (Z * ngx_pool_t) :=
  let psize := to_size_t (d_end (root pool) - d_addr (root pool)) in
  let* m := ngx_memalign NGX_POOL_ALIGNMENT psize in
  if m =? NULL then ret (NULL, pool)
  else
    let new_end := m + psize in
    let m' := ngx_align_ptr (m + sizeof_ngx_pool_data_t) NGX_ALIGNMENT in
    let new := {| d_addr := m; d_last := m' + size; d_end := new_end; d_failed := 0 |} in
    let '(walked, cur) :=
      failed_walk (drop (current pool) (blocks pool)) (current pool) (current pool) in
    ret (m', set_blocks pool (take (current pool) (blocks pool) ++ walked ++ [new]) cur).

(** [ngx_palloc_small(pool, size, align)].  The loop starts at
    [pool->current], which in a pool of the program is never NULL; a
    [current] beyond the chain leaves the loop with no block to look at. *)
Definition ngx_palloc_small {pf : platform} (pool : ngx_pool_t) (size : Z) (align : bool)
  : M (Z * ngx_pool_t) :=
  match palloc_scan (drop (current pool) (blocks pool)) size align with
  | Some (m, bs') =>
      ret (m, set_blocks pool (take (current pool) (blocks pool) ++ bs') (current pool))
  | None => ngx_palloc_block pool size
  end.

(** ** Large allocations *)

(** The loop of [ngx_palloc_large]: the list with [p] attached to the first
    vacated node the loop looks at, or [None] when it ends without one. *)
Fixpoint large_scan (ls : list ngx_pool_large_t) (n : Z) (p : Z)
  : option (list ngx_pool_large_t) :=
  match ls with
  | [] => None
  | l :: rest =>
      if alloc l =? NULL then Some (set_alloc l p :: rest)
      else if n >? 3 then None
      else
        match large_scan rest (n + 1) p with
        | Some rest' => Some (l :: rest')
        | None => None
        end
  end.

(** [ngx_palloc_large(pool, size)]. *)
Definition ngx_palloc_large {pf : platform} (pool : ngx_pool_t) (size : Z)
  : M (Z * ngx_pool_t) :=
  let* p := ngx_alloc size in
  if p =? NULL then ret (NULL, pool)
  else
    match large_scan (large pool) 0 p with
    | Some ls => ret (p, set_large pool ls)
    | None =>
        let* (lg, pool1) := ngx_palloc_small pool sizeof_ngx_pool_large_t true in
        if lg =? NULL then ngx_free p ;;; ret (NULL, pool1)
        else ret (p, set_large pool1 ({| l_addr := lg; alloc := p |} :: large pool1))
    end.

(** [ngx_palloc(pool, size)], without [NGX_DEBUG_PALLOC]. *)
Definition ngx_palloc {pf : platform} (pool : ngx_pool_t) (size : Z) : M (Z * ngx_pool_t) :=
  if size <=? max pool then ngx_palloc_small pool size true
  else ngx_palloc_large pool size.

(** [ngx_pnalloc(pool, size)], without [NGX_DEBUG_PALLOC]. *)
Definition ngx_pnalloc {pf : platform} (pool : ngx_pool_t) (size : Z) : M (Z * ngx_pool_t) :=
  if size <=? max pool then ngx_palloc_small pool size false
  else ngx_palloc_large pool size.

(** [ngx_pmemalign(pool, size, alignment)].  The node of the large list is
    carved from the pool; the cleanup list is left as it is, which is what
    memory holds as long as no cleanup node lies where the pool allocates
    ([cleanup_live] below). *)
Definition ngx_pmemalign {pf : platform} (pool : ngx_pool_t) (size alignment : Z)
  : M (Z * ngx_pool_t) :=
  let* p := ngx_memalign alignment size in
  if p =? NULL then ret (NULL, pool)
  else
    let* (lg, pool1) := ngx_palloc_small pool sizeof_ngx_pool_large_t true in
    if lg =? NULL then ngx_free p ;;; ret (NULL, pool1)
    else ret (p, set_large pool1 ({| l_addr := lg; alloc := p |} :: large pool1)).

(** The loop of [ngx_pfree]: the list with the first node whose payload is
    [p] vacated, or [None] when no node holds [p]. *)
Fixpoint pfree_scan (ls : list ngx_pool_large_t) (p : Z) : option (list ngx_pool_large_t) :=
  match ls with
  | [] => None
  | l :: rest =>
      if p =? alloc l then Some (set_alloc l NULL :: rest)
      else
        match pfree_scan rest p with
        | Some rest' => Some (l :: rest')
        | None => None
        end
  end.

(** [ngx_pfree(pool, p)]: the node found holds [p], so [ngx_free(l->alloc)]
    releases [p]. *)
Definition ngx_pfree (pool : ngx_pool_t) (p : Z) : M (ngx_int_t * ngx_pool_t) :=
  match pfree_scan (large pool) p with
  | Some ls => ngx_free p ;;; ret (NGX_OK, set_large pool ls)
  | None => ret (NGX_DECLINED, pool)
  end.

(** ** The cleanup chain *)

(** [ngx_pool_cleanup_add(p, size)], on the list of the pool.  The node is
    carved from the pool and linked in memory; the list with the new node
    in front is that chain as long as the node carved is none of the
    nodes linked, which [cleanup_live] below ensures.
    [ngx_pool_cleanup_add_mem] has the stores to memory, for any pool. *)
Definition ngx_pool_cleanup_add {pf : platform} (p : ngx_pool_t) (size : Z)
  : M (Z * ngx_pool_t) :=
  let* (c, p1) := ngx_palloc p sizeof_ngx_pool_cleanup_t in
  if c =? NULL then ret (NULL, p1)
  else if negb (size =? 0) then
    let* (d, p2) := ngx_palloc p1 size in
    if d =? NULL then ret (NULL, p2)
    else ret (c, set_cleanup p2 ({| c_addr := c; handler := None; data := d |} :: cleanup p2))
  else
    ret (c, set_cleanup p1 ({| c_addr := c; handler := None; data := NULL |} :: cleanup p1)).

(** The loop of [ngx_pool_run_cleanup_file]. *)
Fixpoint run_cleanup_file_scan (cs : list ngx_pool_cleanup_t) (f : Z)
  : M (list ngx_pool_cleanup_t) :=
  match cs with
  | [] => ret []
  | c :: rest =>
      match handler c with
      | Some ngx_pool_cleanup_file =>
          let* cf := read_file (data c) in
          if fd cf =? f then
            call_handler ngx_pool_cleanup_file (data c) ;;;
            ret (set_handler c None :: rest)
          else
            let* rest' := run_cleanup_file_scan rest f in ret (c :: rest')
      | _ =>
          let* rest' := run_cleanup_file_scan rest f in ret (c :: rest')
      end
  end.

(** [ngx_pool_run_cleanup_file(p, fd)]. *)
Definition ngx_pool_run_cleanup_file (p : ngx_pool_t) (f : Z) : M ngx_pool_t :=
  let* cs := run_cleanup_file_scan (cleanup p) f in ret (set_cleanup p cs).

(** ** What the operations leave in the trace *)

(** The handler calls of [ngx_destroy_pool]: one for each node whose
    handler is set, in list order. *)
Fixpoint pending_calls (cs : list ngx_pool_cleanup_t) : list event :=
  match cs with
  | [] => []
  | c :: rest =>
      match handler c with
      | Some h => ev_handler h (data c) :: pending_calls rest
      | None => pending_calls rest
      end
  end.

(** The payloads released by [ngx_destroy_pool] and [ngx_reset_pool]. *)
Fixpoint large_frees (ls : list ngx_pool_large_t) : list event :=
  match ls with
  | [] => []
  | l :: rest =>
      if alloc l =? NULL then large_frees rest
      else ev_free (alloc l) :: large_frees rest
  end.

Definition block_frees (bs : list ngx_pool_data_t) : list event :=
  map (fun b => ev_free (d_addr b)) bs.


(** ** Registration of a cleanup handler

    How callers use [ngx_pool_cleanup_add]:
    [c = ngx_pool_cleanup_add(p, size); if (c == NULL) return; c->handler = h;] *)

(** [c->handler = h] for the node at address [c]. *)
Fixpoint assign_handler (cs : list ngx_pool_cleanup_t) (c : Z) (h : ngx_pool_cleanup_pt)
  : list ngx_pool_cleanup_t :=
  match cs with
  | [] => []
  | x :: rest =>
      if c_addr x =? c then set_handler x (Some h) :: rest
      else x :: assign_handler rest c h
  end.

Definition register_cleanup {pf : platform} (p : ngx_pool_t) (size : Z)
    (h : ngx_pool_cleanup_pt) : M (Z * ngx_pool_t) :=
  let* (c, p1) := ngx_pool_cleanup_add p size in
  if c =? NULL then ret (NULL, p1)
  else ret (c, set_cleanup p1 (assign_handler (cleanup p1) c h)).

(** Registrations one after the other; the result lists the handles. *)
Fixpoint register_all {pf : platform} (p : ngx_pool_t)
    (regs : list (Z * ngx_pool_cleanup_pt)) : M (list Z * ngx_pool_t) :=
  match regs with
  | [] => ret ([], p)
  | (size, h) :: rest =>
      let* (c, p1) := register_cleanup p size h in
      let* (cs, p2) := register_all p1 rest in
      ret (c :: cs, p2)
  end.


(** Everything [ngx_destroy_pool] does, in order. *)
Definition destroy_events (pool : ngx_pool_t) : list event :=
  pending_calls (cleanup pool) ++ large_frees (large pool) ++ block_frees (blocks pool).

(** The test of [ngx_pool_run_cleanup_file] on one node:
    [c->handler == ngx_pool_cleanup_file && cf->fd == fd]. *)
Definition file_match (e : env) (f : Z) (c : ngx_pool_cleanup_t) : bool :=
  match handler c with
  | Some ngx_pool_cleanup_file => fd (files e (data c)) =? f
  | _ => false
  end.

(** ** Invariants of the lists *)

(** No two nodes of the large list hold the same payload: the underlying
    allocator never hands out an address that is still in use. *)
Fixpoint payloads_distinct (ls : list ngx_pool_large_t) : bool :=
  match ls with
  | [] => true
  | l :: rest =>
      ((alloc l =? NULL) || forallb (fun x => negb (alloc x =? alloc l)) rest)
      && payloads_distinct rest
  end.

(** The fields of a pool no allocation changes. *)
Definition same_lists (p p' : ngx_pool_t) : Prop :=
  max p' = max p /\ chain p' = chain p /\ cleanup p' = cleanup p /\ log p' = log p.

(** [payloads_distinct], node by node. *)
Definition payloads_apart (ls : list ngx_pool_large_t) : Prop :=
  forall (i j : nat) (x y : ngx_pool_large_t),
    i <> j -> ls !! i = Some x -> ls !! j = Some y ->
    alloc x <> NULL -> alloc x <> alloc y.

(** ** Geometry of the block chain *)

(** The size of the header at the start of block number [i]: the root
    block starts with an [ngx_pool_t], every other block with an
    [ngx_pool_data_t] only. *)
Definition header_size {pf : platform} (i : nat) : Z :=
  match i with
  | O => sizeof_ngx_pool_t
  | S _ => sizeof_ngx_pool_data_t
  end.

(** The size of the root block, which is the size of every block. *)
Definition psize (pool : ngx_pool_t) : Z := d_end (root pool) - d_addr (root pool).

(** The block [ngx_palloc_block] adds when the allocator answers [m]. *)
Definition grown_block {pf : platform} (pool : ngx_pool_t) (size m : Z) : ngx_pool_data_t :=
  {| d_addr := m;
     d_last := ngx_align_ptr (m + sizeof_ngx_pool_data_t) NGX_ALIGNMENT + size;
     d_end := m + to_size_t (psize pool);
     d_failed := 0 |}.

(** The bytes of a block, header included: from its address to its end. *)
Definition extent (b : ngx_pool_data_t) : Z * Z := (d_addr b, d_end b).

Definition extent_apart (x y : Z * Z) : bool := (x.2 <=? y.1) || (y.2 <=? x.1).

Fixpoint all_apart (xs : list (Z * Z)) : bool :=
  match xs with
  | [] => true
  | x :: rest => forallb (extent_apart x) rest && all_apart rest
  end.

(** One block of a pool whose blocks are [psz] bytes long, [hdr] of them
    header: it starts on an aligned address above NULL, and its cursor is
    between the end of the header and the end of the block. *)
Definition block_wf {pf : platform} (psz hdr : Z) (b : ngx_pool_data_t) : bool :=
  (0 <? d_addr b) && (d_addr b mod NGX_ALIGNMENT =? 0)
  && (d_end b =? d_addr b + psz)
  && (d_addr b + hdr <=? d_last b) && (d_last b <=? d_end b).

(** A well-formed pool: what [ngx_create_pool] sets up for a size that is a
    multiple of [NGX_ALIGNMENT] and not below [sizeof(ngx_pool_t)], and what
    the allocations keep: there is a root block, all blocks have its size,
    no two blocks overlap, [max] is at most the room of a block, and
    [current] is one of the blocks. *)
Definition pool_wf {pf : platform} (pool : ngx_pool_t) : bool :=
  match blocks pool with
  | [] => false
  | r :: rest =>
      (sizeof_ngx_pool_t <=? psize pool) && (psize pool <? 2 ^ size_t_bits)
      && (psize pool mod NGX_ALIGNMENT =? 0)
      && (0 <=? max pool) && (max pool <=? psize pool - sizeof_ngx_pool_t)
      && (current pool <? length (blocks pool))%nat
      && block_wf (psize pool) sizeof_ngx_pool_t r
      && forallb (block_wf (psize pool) sizeof_ngx_pool_data_t) rest
      && all_apart (map extent (blocks pool))
  end.

(** The regions the allocator would hand out for the answers [hs], each
    [psz] bytes long. *)
Fixpoint answer_extents (psz : Z) (hs : list Z) : list (Z * Z) :=
  match hs with
  | [] => []
  | a :: rest =>
      if a =? NULL then answer_extents psz rest
      else (a, a + psz) :: answer_extents psz rest
  end.

(** What the pool expects of [ngx_memalign(NGX_POOL_ALIGNMENT, psize)]:
    an answer is NULL or the address of a region that is aligned and
    overlaps neither a block of the pool nor another region handed out. *)
Definition heap_fresh {pf : platform} (pool : ngx_pool_t) (hs : list Z) : bool :=
  forallb (fun a => (a =? NULL) || ((0 <? a) && (a mod NGX_POOL_ALIGNMENT =? 0))) hs
  && all_apart (map extent (blocks pool) ++ answer_extents (psize pool) hs).

(** ** Sequences of small allocations *)

(** An address range handed out, and whether [ngx_palloc] (aligned) or
    [ngx_pnalloc] handed it out. *)
Record range : Type := {
  r_addr : Z;
  r_size : Z;
  r_aligned : bool
}.

(** Calls of [ngx_palloc] (flag [true]) and [ngx_pnalloc] (flag [false]) one
    after the other; the result lists the ranges of the calls that did not
    return NULL. *)
Fixpoint run_allocs {pf : platform} (pool : ngx_pool_t) (reqs : list (Z * bool))
  : M (list range * ngx_pool_t) :=
  match reqs with
  | [] => ret ([], pool)
  | (size, al) :: rest =>
      let* (m, pool1) := (if al then ngx_palloc pool size else ngx_pnalloc pool size) in
      let* (rs, pool2) := run_allocs pool1 rest in
      ret (if m =? NULL then rs
           else {| r_addr := m; r_size := size; r_aligned := al |} :: rs, pool2)
  end.

Definition ranges_apart (r1 r2 : range) : Prop :=
  r_addr r1 + r_size r1 <= r_addr r2 \/ r_addr r2 + r_size r2 <= r_addr r1.

(** The range lies in the data region of a block of the pool. *)
Definition in_data_region {pf : platform} (pool : ngx_pool_t) (r : range) : Prop :=
  exists (i : nat) (b : ngx_pool_data_t),
    blocks pool !! i = Some b /\
    d_addr b + header_size i <= r_addr r /\
    r_addr r + r_size r <= d_end b.

(** The ranges [rs] handed out of a pool that is now [pool']: no two
    overlap, each lies in the data region of a block, and those of
    [ngx_palloc] are aligned. *)
Definition small_allocs_sound {pf : platform} (pool' : ngx_pool_t) (rs : list range) : Prop :=
  (forall (i j : nat) (r1 r2 : range),
     i <> j -> rs !! i = Some r1 -> rs !! j = Some r2 -> ranges_apart r1 r2) /\
  (forall r, r ∈ rs -> in_data_region pool' r) /\
  (forall r, r ∈ rs -> r_aligned r = true -> r_addr r mod NGX_ALIGNMENT = 0).

(** ** The invariant of the block chain, for the proofs *)

Definition block_ok {pf : platform} (psz hdr : Z) (b : ngx_pool_data_t) : Prop :=
  0 < d_addr b /\ d_addr b mod NGX_ALIGNMENT = 0 /\ d_end b = d_addr b + psz /\
  d_addr b + hdr <= d_last b /\ d_last b <= d_end b.

Definition apart_list (xs : list (Z * Z)) : Prop :=
  forall (i j : nat) (x y : Z * Z),
    i <> j -> xs !! i = Some x -> xs !! j = Some y -> x.2 <= y.1 \/ y.2 <= x.1.

(** [pool_wf] and [heap_fresh] together, block by block. *)
Definition pool_inv {pf : platform} (pool : ngx_pool_t) (hs : list Z) : Prop :=
  sizeof_ngx_pool_t <= psize pool < 2 ^ size_t_bits /\
  psize pool mod NGX_ALIGNMENT = 0 /\
  0 <= max pool <= psize pool - sizeof_ngx_pool_t /\
  (current pool < length (blocks pool))%nat /\
  (forall i b, blocks pool !! i = Some b -> block_ok (psize pool) (header_size i) b) /\
  (forall a, a ∈ hs -> a <> NULL -> 0 < a /\ a mod NGX_POOL_ALIGNMENT = 0) /\
  apart_list (map extent (blocks pool) ++ answer_extents (psize pool) hs).

(** The blocks of [pool] are still in [pool'], where they were, and their
    cursors have not moved back. *)
Definition grows (pool pool' : ngx_pool_t) : Prop :=
  psize pool' = psize pool /\
  max pool' = max pool /\
  forall i b, blocks pool !! i = Some b ->
    exists b', blocks pool' !! i = Some b' /\
      d_addr b' = d_addr b /\ d_end b' = d_end b /\ d_last b <= d_last b'.

(** The range was cut out of a block of [pool'], below the cursor of that
    block, and above the cursor the block had in [pool] if it was there. *)
Definition placed {pf : platform} (pool pool' : ngx_pool_t) (r : range) : Prop :=
  exists (i : nat) (b' : ngx_pool_data_t),
    blocks pool' !! i = Some b' /\
    d_addr b' + header_size i <= r_addr r /\
    r_addr r + r_size r <= d_last b' /\
    0 <= r_size r /\
    (forall b, blocks pool !! i = Some b -> d_last b <= r_addr r) /\
    (r_aligned r = true -> r_addr r mod NGX_ALIGNMENT = 0).

(** ** The spec's sentences the code does not bear out, as written *)

(** "... releases every block in the chain, ending with the root block":
    the last call [ngx_destroy_pool] makes releases the root block. *)
Definition root_released_last (pool : ngx_pool_t) (e : env) : Prop :=
  last (trace (ngx_destroy_pool pool e).2) = Some (ev_free (d_addr (root pool))).

(** "... rewinds every block's [last] cursor back to just past its header and
    clears its [failed] counter ... Resets [current] to the root, and clears
    [large]/[cleanup] to absent": the state of a pool after such a reset. *)
Definition reset_clears_everything {pf : platform} (pool' : ngx_pool_t) : Prop :=
  (forall i b, blocks pool' !! i = Some b ->
     d_last b = d_addr b + header_size i /\ d_failed b = 0) /\
  current pool' = 0%nat /\
  large pool' = [] /\
  cleanup pool' = [].

(** "... for every block visited whose [failed] counter, post-increment,
    exceeds 4, advance [pool.current] to that block's successor": what this
    asks of the pool [pool'] that block growth leaves, for the blocks from
    [current] on that have a successor. *)
Definition retires_when_counter_exceeds_four (pool pool' : ngx_pool_t) : Prop :=
  forall (i : nat) (b b' : ngx_pool_data_t),
    (current pool <= i)%nat ->
    (S i < length (blocks pool))%nat ->
    blocks pool !! i = Some b ->
    blocks pool' !! i = Some b' ->
    4 < d_failed b' ->
    (i < current pool')%nat.

(** ** Concrete pools and environments *)

Definition no_file : ngx_pool_cleanup_file_t := {| fd := -1; name := NULL; cf_log := NULL |}.

(** An environment whose allocator answers [hs] and in which no cleanup
    data holds an open file. *)
Definition quiet_env (hs : list Z) : env :=
  {| heap := hs; files := fun _ => no_file; trace := [] |}.

(** A pool of two 1024-byte blocks on [lp64]. *)
Definition two_block_pool : ngx_pool_t :=
  {| blocks := [ {| d_addr := 4096; d_last := 5096; d_end := 5120; d_failed := 0 |};
                 {| d_addr := 8192; d_last := 8324; d_end := 9216; d_failed := 0 |} ];
     max := 944; current := 0%nat; chain := NULL;
     large := [ {| l_addr := 5080; alloc := 20000 |} ];
     cleanup := [];
     log := NULL |}.

(** A pool of one block with one registered handler. *)
Definition pool_with_cleanup : ngx_pool_t :=
  {| blocks := [ {| d_addr := 4096; d_last := 4200; d_end := 5120; d_failed := 0 |} ];
     max := 944; current := 0%nat; chain := NULL;
     large := [];
     cleanup := [ {| c_addr := 4176; handler := Some (other_handler 1); data := NULL |} ];
     log := NULL |}.

(** The pool [ngx_create_pool(1024, log)] makes on [lp64] when the
    allocator answers 4096. *)
Definition fresh_pool : ngx_pool_t :=
  {| blocks := [ {| d_addr := 4096; d_last := 4176; d_end := 5120; d_failed := 0 |} ];
     max := 944; current := 0%nat; chain := NULL;
     large := []; cleanup := []; log := NULL |}.

(** Three registrations: a handler of the caller's without data, then the
    close-file handler and the delete-file handler, each with a 16-byte
    data block. *)
Definition three_registrations : list (Z * ngx_pool_cleanup_pt) :=
  [ (0, other_handler 1); (16, ngx_pool_cleanup_file); (16, ngx_pool_delete_file) ].

(** An environment in which the data blocks at 4224 and at 4264 both hold
    the file descriptor 7. *)
Definition file_env (hs : list Z) : env :=
  {| heap := hs;
     files := fun d =>
       if (d =? 4224) || (d =? 4264)
       then {| fd := 7; name := NULL; cf_log := NULL |}
       else no_file;
     trace := [] |}.

(** [fresh_pool] after [three_registrations]. *)
Definition file_pool : ngx_pool_t :=
  {| blocks := [ {| d_addr := 4096; d_last := 4280; d_end := 5120; d_failed := 0 |} ];
     max := 944; current := 0%nat; chain := NULL;
     large := [];
     cleanup := [ {| c_addr := 4240; handler := Some ngx_pool_delete_file; data := 4264 |};
                  {| c_addr := 4200; handler := Some ngx_pool_cleanup_file; data := 4224 |};
                  {| c_addr := 4176; handler := Some (other_handler 1); data := NULL |} ];
     log := NULL |}.

(** A pool whose large list holds two payloads and a vacated node. *)
Definition large_pool : ngx_pool_t :=
  {| blocks := [ {| d_addr := 4096; d_last := 4224; d_end := 5120; d_failed := 0 |} ];
     max := 944; current := 0%nat; chain := NULL;
     large := [ {| l_addr := 4208; alloc := 30000 |};
                {| l_addr := 4192; alloc := NULL |};
                {| l_addr := 4176; alloc := 20000 |} ];
     cleanup := []; log := NULL |}.

(** A pool whose large list has five nodes, the first four in use and the
    fifth vacated. *)
Definition five_large_pool : ngx_pool_t :=
  {| blocks := [ {| d_addr := 4096; d_last := 4256; d_end := 5120; d_failed := 0 |} ];
     max := 944; current := 0%nat; chain := NULL;
     large := [ {| l_addr := 4240; alloc := 50000 |};
                {| l_addr := 4224; alloc := 40000 |};
                {| l_addr := 4208; alloc := 30000 |};
                {| l_addr := 4192; alloc := 20000 |};
                {| l_addr := 4176; alloc := NULL |} ];
     cleanup := []; log := NULL |}.

(** A pool whose only block is used up. *)
Definition full_pool : ngx_pool_t :=
  {| blocks := [ {| d_addr := 4096; d_last := 5120; d_end := 5120; d_failed := 0 |} ];
     max := 944; current := 0%nat; chain := NULL;
     large := []; cleanup := []; log := NULL |}.


(** A pool of two blocks whose root block was found too small four times. *)
Definition four_failures_pool : ngx_pool_t :=
  {| blocks := [ {| d_addr := 4096; d_last := 5120; d_end := 5120; d_failed := 4 |};
                 {| d_addr := 8192; d_last := 9216; d_end := 9216; d_failed := 3 |} ];
     max := 944; current := 0%nat; chain := NULL;
     large := []; cleanup := []; log := NULL |}.

(** A pool of three blocks whose root block was found too small five
    times. *)
Definition five_failures_pool : ngx_pool_t :=
  {| blocks := [ {| d_addr := 4096; d_last := 5120; d_end := 5120; d_failed := 5 |};
                 {| d_addr := 8192; d_last := 9216; d_end := 9216; d_failed := 4 |};
                 {| d_addr := 12288; d_last := 13312; d_end := 13312; d_failed := 0 |} ];
     max := 944; current := 0%nat; chain := NULL;
     large := []; cleanup := []; log := NULL |}.

(** The pool [ngx_create_pool(85, log)] makes on [lp64] when the allocator
    answers 4096: five bytes of room, and a block that does not end on an
    aligned address. *)
Definition odd_pool : ngx_pool_t :=
  {| blocks := [ {| d_addr := 4096; d_last := 4176; d_end := 4181; d_failed := 0 |} ];
     max := 5; current := 0%nat; chain := NULL;
     large := []; cleanup := []; log := NULL |}.

(** On [odd_pool]: five bytes unaligned, then one byte aligned. *)
Definition odd_requests : list (Z * bool) := [ (5, false); (1, true) ].

(** On [fresh_pool]: 900 bytes unaligned, 100 bytes aligned (a new block),
    3 bytes unaligned and 8 bytes aligned (the root block again). *)
Definition mixed_requests : list (Z * bool) :=
  [ (900, false); (100, true); (3, false); (8, true) ].

(** Boolean tests in hypotheses, as propositions. *)
Ltac bools :=
  repeat match goal with
  | H : _ && _ = true |- _ => apply andb_true_iff in H as [? ?]
  | H : (_ ||  _) = true |- _ => apply orb_true_iff in H
  | H : (_ <=? _) = true |- _ => apply Z.leb_le in H
  | H : (_ <? _) = true |- _ => apply Z.ltb_lt in H
  | H : (_ =? _) = true |- _ => apply Z.eqb_eq in H
  | H : (_ <? _)%nat = true |- _ => apply Nat.ltb_lt in H
  end.

(** ** The [failed] counters *)

(** The [failed] counters of a chain the program has built: a block before
    [current] holds the count 6 with which it was retired, a block from
    [current] on holds a count of at most 5, from [current] on the counts
    do not grow along the chain, and the last block has never been
    counted. *)
Definition failed_inv (pool : ngx_pool_t) : Prop :=
  (current pool < length (blocks pool))%nat /\
  (forall i b, (i < current pool)%nat -> blocks pool !! i = Some b -> d_failed b = 6) /\
  (forall i b, (current pool <= i)%nat -> blocks pool !! i = Some b ->
     0 <= d_failed b <= 5) /\
  (forall i j b c, (current pool <= i)%nat -> (i <= j)%nat ->
     blocks pool !! i = Some b -> blocks pool !! j = Some c ->
     d_failed c <= d_failed b) /\
  (forall b, last (blocks pool) = Some b -> d_failed b = 0).

(** ** Requests served one after the other from one block *)

(** Where [reqs] would lie if they were cut one after the other from a
    block whose cursor is at [cursor]: each range starts where the one
    before ends, rounded up to [NGX_ALIGNMENT] for [ngx_palloc]; with the
    ranges comes the cursor after the last. *)
Fixpoint bump {pf : platform} (cursor : Z) (reqs : list (Z * bool)) : list range * Z :=
  match reqs with
  | [] => ([], cursor)
  | (size, al) :: rest =>
      let m := if al then ngx_align_ptr cursor NGX_ALIGNMENT else cursor in
      ({| r_addr := m; r_size := size; r_aligned := al |} :: (bump (m + size) rest).1,
       (bump (m + size) rest).2)
  end.

(** ** Cleanup nodes in pool memory

    A cleanup node is carved from the pool like any small allocation, and
    [c->next] links the nodes in memory.  The list [cleanup] of a pool is
    that chain as long as no node lies where the pool allocates again;
    [ngx_reset_pool], which rewinds the cursors and keeps [pool->cleanup],
    ends that when a node is linked. *)

(** The range [a, a + n) lies in the part of a block of [bs] that has been
    handed out: past the header and before the cursor.  [i] is the
    position in the chain of the first block of [bs]. *)
Fixpoint handed_out {pf : platform} (bs : list ngx_pool_data_t) (i : nat) (a n : Z) : bool :=
  match bs with
  | [] => false
  | b :: rest =>
      ((d_addr b + header_size i <=? a) && (a + n <=? d_last b))
      || handed_out rest (S i) a n
  end.

Fixpoint distinct (xs : list Z) : bool :=
  match xs with
  | [] => true
  | x :: rest => forallb (fun y => negb (y =? x)) rest && distinct rest
  end.

(** Every node of the cleanup list lies in the handed-out part of a block,
    where no later allocation is placed, and no two nodes are at one
    address. *)
Definition cleanup_live {pf : platform} (pool : ngx_pool_t) : bool :=
  forallb (fun c => handed_out (blocks pool) 0 (c_addr c) sizeof_ngx_pool_cleanup_t)
          (cleanup pool)
  && distinct (map c_addr (cleanup pool)).

(** [cleanup_live], node by node. *)
Definition live {pf : platform} (pool : ngx_pool_t) (a : Z) : Prop :=
  exists (i : nat) (b : ngx_pool_data_t),
    blocks pool !! i = Some b /\
    d_addr b + header_size i <= a /\
    a + sizeof_ngx_pool_cleanup_t <= d_last b.

Definition cleanup_ok {pf : platform} (pool : ngx_pool_t) : Prop :=
  Forall (fun c => live pool (c_addr c)) (cleanup pool) /\
  NoDup (map c_addr (cleanup pool)).













(** ** The spec's sentences on the cleanup chain, read on memory *)




(** ** Zero-filled allocations *)

(** [ngx_pcalloc(pool, size)].  [ngx_memzero] is a macro of [ngx_string.h],
    which is not part of the sources at hand: the call is recorded with its
    arguments, the range [(p, size)] it is to fill with zeroes, and is not
    interpreted. *)
Definition ngx_pcalloc {pf : platform} (pool : ngx_pool_t) (size : Z)
  : M (Z * ngx_pool_t * option (Z * Z)) :=
  let* (p, pool') := ngx_palloc pool size in
  if p =? NULL then ret (p, pool', None)
  else ret (p, pool', Some (p, size)).

(** * Proofs *)

(** ** The environment *)

Lemma log_events_nil (e : env) : log_events e [] = e.
Proof. destruct e; unfold log_events; simpl. by rewrite app_nil_r. Qed.

Lemma log_events_app (e : env) (a b : list event) :
  log_events (log_events e a) b = log_events e (a ++ b).
Proof. unfold log_events; simpl. by rewrite app_assoc. Qed.

(** ** Destruction *)

Lemma run_cleanups_spec (cs : list ngx_pool_cleanup_t) (e : env) :
  run_cleanups cs e = (tt, log_events e (pending_calls cs)).
Proof.
  revert e. induction cs as [|c cs IH]; intros e; simpl.
  - by rewrite log_events_nil.
  - destruct (handler c) as [h|]; [|apply IH].
    unfold bind, call_handler, emit. rewrite IH. by rewrite log_events_app.
Qed.

Lemma free_large_spec (ls : list ngx_pool_large_t) (e : env) :
  free_large ls e = (tt, log_events e (large_frees ls)).
Proof.
  revert e. induction ls as [|l ls IH]; intros e; simpl.
  - by rewrite log_events_nil.
  - destruct (alloc l =? NULL); [apply IH|].
    unfold bind, ngx_free, emit. rewrite IH. by rewrite log_events_app.
Qed.

Lemma free_blocks_spec (bs : list ngx_pool_data_t) (e : env) :
  free_blocks bs e = (tt, log_events e (block_frees bs)).
Proof.
  revert e. induction bs as [|b bs IH]; intros e; simpl.
  - by rewrite log_events_nil.
  - unfold bind, ngx_free, emit. rewrite IH. by rewrite log_events_app.
Qed.

Lemma ngx_destroy_pool_spec (pool : ngx_pool_t) (e : env) :
  ngx_destroy_pool pool e = (tt, log_events e (destroy_events pool)).
Proof.
  unfold ngx_destroy_pool, destroy_events, bind.
  rewrite run_cleanups_spec, free_large_spec, free_blocks_spec.
  by rewrite !log_events_app.
Qed.





(** C2, as the code has it: [ngx_destroy_pool] first runs the handlers,
    then releases the large payloads, then releases the blocks in chain
    order.  The first block it releases is the root block, and the last
    call it makes releases the last block of the chain. *)
Theorem destroy_releases_blocks_root_first (pool : ngx_pool_t) (e : env) :
  ngx_destroy_pool pool e =
    (tt, log_events e (pending_calls (cleanup pool) ++ large_frees (large pool)
                         ++ block_frees (blocks pool))) /\
  head (block_frees (blocks pool)) = (fun b => ev_free (d_addr b)) <$> head (blocks pool) /\
  last (block_frees (blocks pool)) = (fun b => ev_free (d_addr b)) <$> last (blocks pool) /\
  (blocks pool <> [] ->
   head (block_frees (blocks pool)) = Some (ev_free (d_addr (root pool))) /\
   last (trace (ngx_destroy_pool pool e).2)
     = (fun b => ev_free (d_addr b)) <$> last (blocks pool)).
Proof.
  split; [apply ngx_destroy_pool_spec|].
  split; [unfold block_frees; by destruct (blocks pool)|].
  split; [unfold block_frees; by rewrite fmap_last|].
  intros Hne. split.
  - unfold root, block_frees. by destruct (blocks pool).
  - rewrite ngx_destroy_pool_spec. unfold destroy_events, log_events; simpl.
    rewrite !app_assoc. unfold block_frees.
    destruct (blocks pool) as [|b bs _] using rev_ind; [done|].
    rewrite map_app; simpl. by rewrite app_assoc, !last_snoc.
Qed.

Lemma two_block_pool_released_root_first :
  head (block_frees (blocks two_block_pool)) = Some (ev_free (d_addr (root two_block_pool))) /\
  last (trace (ngx_destroy_pool two_block_pool (quiet_env [])).2)
    = (fun b => ev_free (d_addr b)) <$> last (blocks two_block_pool).
Proof.
  destruct (destroy_releases_blocks_root_first two_block_pool (quiet_env []))
    as (_ & _ & _ & H).
  apply H. discriminate.
Defined.

(** C2, as the spec words it, fails on a pool of two blocks: the last
    block released is the second block, not the root. *)
Lemma two_block_pool_root_not_released_last :
  ~ root_released_last two_block_pool (quiet_env []).
Proof. unfold root_released_last. vm_compute. discriminate. Qed.

(** ** Reset *)

Lemma ngx_reset_pool_spec {pf : platform} (pool : ngx_pool_t) (e : env) :
  ngx_reset_pool pool e =
    ({| blocks := map reset_block (blocks pool); max := max pool; current := 0%nat;
        chain := NULL; large := []; cleanup := cleanup pool; log := log pool |},
     log_events e (large_frees (large pool))).
Proof. unfold ngx_reset_pool, bind. by rewrite free_large_spec. Qed.

(** C3, as the code has it: [ngx_reset_pool] releases the large payloads
    and nothing else; it keeps every block where it is, sets the cursor of
    every block, root or not, to the block's address plus the size of an
    [ngx_pool_t], zeroes every [failed] counter, makes the root block
    [current], empties [chain] and [large], and leaves the cleanup list as
    it was.  So the cursor of the root block is just past its header, and
    the cursor of every block is at or past the end of the block's header
    (an [ngx_pool_data_t] is no longer than an [ngx_pool_t]). *)
Theorem ngx_reset_pool_rewinds_blocks_keeps_cleanup {pf : platform}
    (pool : ngx_pool_t) (e : env) :
  let pool' := (ngx_reset_pool pool e).1 in
  (ngx_reset_pool pool e).2 = log_events e (large_frees (large pool)) /\
  length (blocks pool') = length (blocks pool) /\
  (forall i b, blocks pool !! i = Some b ->
     exists b', blocks pool' !! i = Some b' /\
       d_addr b' = d_addr b /\ d_end b' = d_end b /\
       d_last b' = d_addr b + sizeof_ngx_pool_t /\ d_failed b' = 0) /\
  (forall b', blocks pool' !! 0%nat = Some b' ->
     d_last b' = d_addr b' + header_size 0) /\
  (sizeof_ngx_pool_data_t <= sizeof_ngx_pool_t ->
   forall i b', blocks pool' !! i = Some b' ->
     d_addr b' + header_size i <= d_last b' /\ d_failed b' = 0) /\
  current pool' = 0%nat /\
  chain pool' = NULL /\
  large pool' = [] /\
  cleanup pool' = cleanup pool /\
  max pool' = max pool.
Proof.
  rewrite ngx_reset_pool_spec; simpl.
  change (map reset_block (blocks pool)) with (reset_block <$> blocks pool).
  split; [done|]. split; [by rewrite length_fmap|].
  split; [|split; [|split; [|done]]].
  - intros i b Hb. exists (reset_block b). split; [|done].
    by rewrite list_lookup_fmap, Hb.
  - intros b' Hb'. rewrite list_lookup_fmap in Hb'.
    destruct (blocks pool !! 0%nat) as [b|]; [|done].
    by injection Hb' as <-.
  - intros Hhdr i b' Hb'. rewrite list_lookup_fmap in Hb'.
    destruct (blocks pool !! i) as [b|]; [|done].
    injection Hb' as <-. simpl. split; [|done]. destruct i; simpl; lia.
Qed.

Lemma two_block_pool_reset :
  (exists b', blocks (@ngx_reset_pool lp64 two_block_pool (quiet_env [])).1 !! 1%nat = Some b' /\
     d_addr b' = 8192 /\ d_end b' = 9216 /\
     d_last b' = 8192 + @sizeof_ngx_pool_t lp64 /\ d_failed b' = 0) /\
  (forall i b', blocks (@ngx_reset_pool lp64 two_block_pool (quiet_env [])).1 !! i = Some b' ->
     d_addr b' + @header_size lp64 i <= d_last b' /\ d_failed b' = 0).
Proof.
  destruct (@ngx_reset_pool_rewinds_blocks_keeps_cleanup lp64 two_block_pool (quiet_env []))
    as (_ & _ & H & _ & Hhdr & _).
  split.
  - apply (H 1%nat {| d_addr := 8192; d_last := 8324; d_end := 9216; d_failed := 0 |}).
    reflexivity.
  - apply Hhdr. simpl. lia.
Defined.

(** C3, as the spec words it, fails on a pool with a registered handler:
    the cleanup list is still there after the reset. *)
Lemma reset_keeps_cleanup_node :
  ~ @reset_clears_everything lp64
      (@ngx_reset_pool lp64 pool_with_cleanup (quiet_env [])).1.
Proof. intros (_ & _ & _ & H). vm_compute in H. discriminate. Qed.

(** ** Fields the allocators leave alone *)



Lemma ngx_palloc_block_frame {pf : platform} (pool : ngx_pool_t) (size : Z) (e : env) :
  same_lists pool (ngx_palloc_block pool size e).1.2 /\
  large (ngx_palloc_block pool size e).1.2 = large pool.
Proof.
  unfold ngx_palloc_block, bind, ngx_memalign, next_answer, emit, ret; simpl.
  destruct (hd NULL (heap e) =? NULL); simpl; [by unfold same_lists|].
  destruct (failed_walk _ _ _) as [walked cur]; simpl. by unfold same_lists.
Qed.

Lemma ngx_palloc_small_frame {pf : platform} (pool : ngx_pool_t) (size : Z)
    (al : bool) (e : env) :
  same_lists pool (ngx_palloc_small pool size al e).1.2 /\
  large (ngx_palloc_small pool size al e).1.2 = large pool.
Proof.
  unfold ngx_palloc_small.
  destruct (palloc_scan _ _ _) as [[m bs']|]; [by unfold same_lists|].
  apply ngx_palloc_block_frame.
Qed.



(** ** The cleanup chain *)




(** The first element on which a test holds, if any. *)
Lemma first_split {A : Type} (P : A -> bool) (l : list A) :
  Forall (fun x => P x = false) l \/
  exists l1 x l2, l = l1 ++ x :: l2 /\ Forall (fun x => P x = false) l1 /\ P x = true.
Proof.
  induction l as [|a l IH]; [by left|].
  destruct (P a) eqn:Ha.
  - right. exists [], a, l. by repeat split.
  - destruct IH as [IH|(l1 & x & l2 & -> & H1 & Hx)].
    + left. by constructor.
    + right. exists (a :: l1), x, l2. repeat split; [|done]. by constructor.
Qed.

Lemma run_cleanup_file_scan_none (cs : list ngx_pool_cleanup_t) (f : Z) (e : env) :
  Forall (fun c => file_match e f c = false) cs ->
  run_cleanup_file_scan cs f e = (cs, e).
Proof.
  induction 1 as [|c cs Hc _ IH]; [done|]. simpl.
  unfold file_match in Hc.
  destruct (handler c) as [[| |id]|]; unfold bind, read_file, ret in *; simpl;
    rewrite ?Hc, ?IH; done.
Qed.

Lemma run_cleanup_file_scan_hit (cs1 : list ngx_pool_cleanup_t) (c : ngx_pool_cleanup_t)
    (cs2 : list ngx_pool_cleanup_t) (f : Z) (e : env) :
  Forall (fun c => file_match e f c = false) cs1 ->
  file_match e f c = true ->
  run_cleanup_file_scan (cs1 ++ c :: cs2) f e
    = (cs1 ++ set_handler c None :: cs2,
       log_events e [ev_handler ngx_pool_cleanup_file (data c)]).
Proof.
  intros H1 Hc. induction H1 as [|c1 cs1 Hc1 _ IH]; simpl.
  - unfold file_match in Hc.
    destruct (handler c) as [[| |id]|]; try done.
    unfold bind, read_file, call_handler, emit, ret; simpl. by rewrite Hc.
  - unfold file_match in Hc1.
    destruct (handler c1) as [[| |id]|]; unfold bind, read_file, ret in *; simpl;
      rewrite ?Hc1, ?IH; done.
Qed.

Lemma file_match_handler (e : env) (f : Z) (c : ngx_pool_cleanup_t) :
  file_match e f c = true ->
  handler c = Some ngx_pool_cleanup_file /\ fd (files e (data c)) = f.
Proof.
  unfold file_match. destruct (handler c) as [[| |id]|]; try done.
  intros H. split; [done|]. by apply Z.eqb_eq.
Qed.



Lemma set_large_same (p : ngx_pool_t) : set_large p (large p) = p.
Proof. by destruct p. Qed.


(** C10: [ngx_pool_run_cleanup_file] leaves every node alone whose handler
    is not the close-file handler, whatever its data holds; so a node with
    the delete-file handler stays as it is.  The only call it makes, if
    any, is the close-file handler of a node with the descriptor asked
    for, and no node is added or removed. *)
Theorem run_cleanup_file_skips_other_handlers
    (p : ngx_pool_t) (f : Z) (e : env) (p' : ngx_pool_t) (e' : env) :
  ngx_pool_run_cleanup_file p f e = (p', e') ->
  (forall i c, cleanup p !! i = Some c ->
     handler c <> Some ngx_pool_cleanup_file -> cleanup p' !! i = Some c) /\
  (forall i c, cleanup p !! i = Some c ->
     handler c = Some ngx_pool_delete_file -> cleanup p' !! i = Some c) /\
  (exists evs, e' = log_events e evs /\
     forall ev, ev ∈ evs ->
       exists c, c ∈ cleanup p /\ handler c = Some ngx_pool_cleanup_file /\
         fd (files e (data c)) = f /\ ev = ev_handler ngx_pool_cleanup_file (data c)) /\
  length (cleanup p') = length (cleanup p).
Proof.
  unfold ngx_pool_run_cleanup_file, bind, ret.
  assert (Hgen :
    (forall i c, cleanup p !! i = Some c ->
       handler c <> Some ngx_pool_cleanup_file ->
       (run_cleanup_file_scan (cleanup p) f e).1 !! i = Some c) /\
    (exists evs, (run_cleanup_file_scan (cleanup p) f e).2 = log_events e evs /\
       forall ev, ev ∈ evs ->
         exists c, c ∈ cleanup p /\ handler c = Some ngx_pool_cleanup_file /\
           fd (files e (data c)) = f /\ ev = ev_handler ngx_pool_cleanup_file (data c)) /\
    length (run_cleanup_file_scan (cleanup p) f e).1 = length (cleanup p)).
  { destruct (first_split (file_match e f) (cleanup p))
      as [Hnone|(cs1 & c & cs2 & Hcs & H1 & Hc)].
    - rewrite (run_cleanup_file_scan_none _ _ _ Hnone); simpl.
      split; [done|]. split; [|done].
      exists []. split; [by rewrite log_events_nil|]. intros ev Hev. by apply elem_of_nil in Hev.
    - rewrite Hcs, (run_cleanup_file_scan_hit _ _ _ _ _ H1 Hc); simpl.
      destruct (file_match_handler _ _ _ Hc) as [Hh Hfd].
      split; [|split].
      + intros i c0 Hi Hne.
        destruct (decide (i = length cs1)) as [->|Hi'].
        * rewrite list_lookup_middle in Hi by done. by injection Hi as <-.
        * rewrite <- Hi.
          replace (cs1 ++ set_handler c None :: cs2)
            with (<[length cs1 := set_handler c None]> (cs1 ++ c :: cs2)).
          { by apply list_lookup_insert_ne. }
          replace (length cs1) with (length cs1 + 0)%nat by lia.
          by rewrite insert_app_r.
      + exists [ev_handler ngx_pool_cleanup_file (data c)]. split; [done|].
        intros ev Hev. apply list_elem_of_singleton in Hev as ->.
        exists c. repeat split; try done.
        apply elem_of_app. right. by left.
      + by rewrite !length_app. }
  destruct (run_cleanup_file_scan (cleanup p) f e) as [cs e1]; simpl in Hgen.
  intros [= <- <-]; simpl.
  destruct Hgen as (H1 & H2 & H3).
  repeat split; try done.
  intros i c Hi Hh. apply H1; [done|]. by rewrite Hh.
Qed.

Lemma delete_file_node_is_not_run :
  cleanup (ngx_pool_run_cleanup_file file_pool 7 (file_env [])).1 !! 0%nat
    = Some {| c_addr := 4240; handler := Some ngx_pool_delete_file; data := 4264 |}.
Proof.
  pose (r := ngx_pool_run_cleanup_file file_pool 7 (file_env [])).
  destruct (run_cleanup_file_skips_other_handlers file_pool 7 (file_env []) r.1 r.2)
    as (_ & H & _).
  - reflexivity.
  - apply (H 0%nat); reflexivity.
Defined.

(** ** The concrete pools are what the code makes *)

Example create_fresh_pool :
  (@ngx_create_pool lp64 1024 NULL (quiet_env [4096])).1 = Some fresh_pool.
Proof. reflexivity. Qed.

Example register_file_pool :
  (@register_all lp64 fresh_pool three_registrations (file_env [])).1
    = ([4176; 4200; 4240], file_pool).
Proof. reflexivity. Qed.

(** ** Release of a large payload *)

Lemma pfree_scan_none (ls : list ngx_pool_large_t) (p : Z) :
  Forall (fun x => alloc x <> p) ls -> pfree_scan ls p = None.
Proof.
  induction 1 as [|l ls Hl _ IH]; [done|]. simpl.
  destruct (Z.eqb_spec p (alloc l)); [congruence|]. by rewrite IH.
Qed.

Lemma pfree_scan_found (ls1 : list ngx_pool_large_t) (l : ngx_pool_large_t)
    (ls2 : list ngx_pool_large_t) (p : Z) :
  Forall (fun x => alloc x <> p) ls1 ->
  alloc l = p ->
  pfree_scan (ls1 ++ l :: ls2) p = Some (ls1 ++ set_alloc l NULL :: ls2).
Proof.
  intros H1 Hl. induction H1 as [|l1 ls1 Hl1 _ IH]; simpl.
  - by rewrite Hl, Z.eqb_refl.
  - destruct (Z.eqb_spec p (alloc l1)); [congruence|]. by rewrite IH.
Qed.

Lemma payloads_distinct_app_r (ls1 ls2 : list ngx_pool_large_t) :
  payloads_distinct (ls1 ++ ls2) = true -> payloads_distinct ls2 = true.
Proof.
  induction ls1 as [|l ls1 IH]; simpl; [done|].
  intros H. apply andb_true_iff in H as [_ H]. by apply IH.
Qed.

Lemma payloads_distinct_head (l : ngx_pool_large_t) (ls : list ngx_pool_large_t) :
  payloads_distinct (l :: ls) = true ->
  alloc l <> NULL ->
  Forall (fun x => alloc x <> alloc l) ls.
Proof.
  simpl. intros H Hl. apply andb_true_iff in H as [H _].
  apply orb_true_iff in H as [H|H]; [by apply Z.eqb_eq in H|].
  apply Forall_forall. intros x Hx.
  rewrite forallb_forall in H. apply list_elem_of_In in Hx. specialize (H x Hx).
  apply negb_true_iff, Z.eqb_neq in H. done.
Qed.

Lemma ngx_pfree_found (pool : ngx_pool_t) (p : Z) (e : env)
    (ls1 : list ngx_pool_large_t) (l : ngx_pool_large_t) (ls2 : list ngx_pool_large_t) :
  large pool = ls1 ++ l :: ls2 ->
  Forall (fun x => alloc x <> p) ls1 ->
  alloc l = p ->
  ngx_pfree pool p e
    = (NGX_OK, set_large pool (ls1 ++ set_alloc l NULL :: ls2), log_events e [ev_free p]).
Proof.
  intros Hls H1 Hl. unfold ngx_pfree.
  by rewrite Hls, (pfree_scan_found _ _ _ _ H1 Hl).
Qed.

Lemma ngx_pfree_not_found (pool : ngx_pool_t) (p : Z) (e : env) :
  Forall (fun x => alloc x <> p) (large pool) ->
  ngx_pfree pool p e = (NGX_DECLINED, pool, e).
Proof. intros H. unfold ngx_pfree. by rewrite (pfree_scan_none _ _ H). Qed.

Lemma first_payload_split (ls : list ngx_pool_large_t) (p : Z) :
  Forall (fun x => alloc x <> p) ls \/
  exists ls1 l ls2, ls = ls1 ++ l :: ls2 /\ Forall (fun x => alloc x <> p) ls1 /\ alloc l = p.
Proof.
  destruct (first_split (fun x => alloc x =? p) ls) as [H|(ls1 & l & ls2 & -> & H1 & Hl)].
  - left. eapply Forall_impl; [exact H|]. intros x Hx. by apply Z.eqb_neq.
  - right. exists ls1, l, ls2. repeat split; [|by apply Z.eqb_eq].
    eapply Forall_impl; [exact H1|]. intros x Hx. by apply Z.eqb_neq.
Qed.

(** C8: for a pointer [ptr] that is not NULL, [ngx_pfree] looks through
    the whole large list.  At the first node that holds [ptr], wherever it
    stands, it releases [ptr], empties the node's [alloc], keeps the node
    in the list and returns [NGX_OK]; when no node holds [ptr] it returns
    [NGX_DECLINED] and changes nothing.  When no two nodes hold the same
    payload, a second [ngx_pfree] of [ptr] right after the first returns
    [NGX_DECLINED]. *)
Theorem ngx_pfree_releases_or_declines (pool : ngx_pool_t) (ptr : Z) (e : env) :
  ptr <> NULL ->
  (forall ls1 l ls2,
     large pool = ls1 ++ l :: ls2 ->
     Forall (fun x => alloc x <> ptr) ls1 ->
     alloc l = ptr ->
     ngx_pfree pool ptr e
       = (NGX_OK, set_large pool (ls1 ++ set_alloc l NULL :: ls2),
          log_events e [ev_free ptr]) /\
     length (large (ngx_pfree pool ptr e).1.2) = length (large pool) /\
     large (ngx_pfree pool ptr e).1.2 !! length ls1 = Some {| l_addr := l_addr l; alloc := NULL |}) /\
  (Forall (fun x => alloc x <> ptr) (large pool) ->
     ngx_pfree pool ptr e = (NGX_DECLINED, pool, e)) /\
  (payloads_distinct (large pool) = true ->
     forall rc pool1 e1,
       ngx_pfree pool ptr e = (rc, pool1, e1) ->
       ngx_pfree pool1 ptr e1 = (NGX_DECLINED, pool1, e1)).
Proof.
  intros Hptr. split; [|split].
  - intros ls1 l ls2 Hls H1 Hl.
    rewrite (ngx_pfree_found pool ptr e ls1 l ls2 Hls H1 Hl); simpl.
    split; [done|]. split.
    + rewrite Hls, !length_app. done.
    + by apply list_lookup_middle.
  - apply ngx_pfree_not_found.
  - intros Hd rc pool1 e1.
    destruct (first_payload_split (large pool) ptr) as [Hnone|(ls1 & l & ls2 & Hls & H1 & Hl)].
    + rewrite (ngx_pfree_not_found _ _ _ Hnone). intros [= <- <- <-].
      by apply ngx_pfree_not_found.
    + rewrite (ngx_pfree_found pool ptr e ls1 l ls2 Hls H1 Hl). intros [= <- <- <-].
      apply ngx_pfree_not_found; simpl.
      apply Forall_app. split; [done|]. constructor; [simpl; congruence|].
      rewrite Hls in Hd. apply payloads_distinct_app_r in Hd.
      apply payloads_distinct_head in Hd; [|congruence]. by rewrite <- Hl.
Qed.

Lemma large_pool_free_twice :
  ngx_pfree large_pool 20000 (quiet_env [])
    = (NGX_OK,
       set_large large_pool
         [ {| l_addr := 4208; alloc := 30000 |}; {| l_addr := 4192; alloc := NULL |};
           {| l_addr := 4176; alloc := NULL |} ],
       log_events (quiet_env []) [ev_free 20000]) /\
  ngx_pfree (ngx_pfree large_pool 20000 (quiet_env [])).1.2 20000
      (ngx_pfree large_pool 20000 (quiet_env [])).2
    = (NGX_DECLINED, (ngx_pfree large_pool 20000 (quiet_env [])).1.2,
       (ngx_pfree large_pool 20000 (quiet_env [])).2) /\
  ngx_pfree large_pool 12345 (quiet_env []) = (NGX_DECLINED, large_pool, quiet_env []).
Proof.
  destruct (ngx_pfree_releases_or_declines large_pool 20000 (quiet_env []))
    as (Hfound & _ & Htwice); [discriminate|].
  destruct (ngx_pfree_releases_or_declines large_pool 12345 (quiet_env []))
    as (_ & Hnone & _); [discriminate|].
  split; [|split].
  - apply (Hfound [ {| l_addr := 4208; alloc := 30000 |}; {| l_addr := 4192; alloc := NULL |} ]
             {| l_addr := 4176; alloc := 20000 |} []); [reflexivity| |reflexivity].
    repeat constructor; discriminate.
  - apply (Htwice eq_refl NGX_OK). reflexivity.
  - apply Hnone. repeat constructor; discriminate.
Defined.

Lemma pfree_scan_null (ls : list ngx_pool_large_t) :
  (exists l, l ∈ ls /\ alloc l = NULL) -> pfree_scan ls NULL = Some ls.
Proof.
  induction ls as [|x ls IH]; intros (l & Hin & Hl).
  - by apply elem_of_nil in Hin.
  - cbn [pfree_scan]. destruct (Z.eqb_spec NULL (alloc x)) as [Hx|Hx].
    + destruct x as [a v]; simpl in *. by rewrite <- Hx.
    + apply elem_of_cons in Hin as [->|Hin]; [congruence|].
      rewrite IH; [done|]. by exists l.
Qed.

(** C9: when some node of the large list is vacated, [ngx_pfree] of the
    NULL pointer takes the first vacated node for a match: it calls
    [ngx_free(NULL)], stores NULL in the node's [alloc], which held NULL
    already, and returns [NGX_OK]. *)
Theorem ngx_pfree_null_matches_vacated_node (pool : ngx_pool_t) (e : env) :
  (exists l, l ∈ large pool /\ alloc l = NULL) ->
  ngx_pfree pool NULL e = (NGX_OK, pool, log_events e [ev_free NULL]).
Proof.
  intros H. unfold ngx_pfree. rewrite (pfree_scan_null _ H).
  unfold bind, ngx_free, emit, ret. by rewrite set_large_same.
Qed.

Lemma large_pool_free_null :
  ngx_pfree large_pool NULL (quiet_env [])
    = (NGX_OK, large_pool, log_events (quiet_env []) [ev_free NULL]).
Proof.
  apply (ngx_pfree_null_matches_vacated_node large_pool (quiet_env [])).
  exists {| l_addr := 4192; alloc := NULL |}. split; [|reflexivity].
  apply elem_of_cons. right. apply elem_of_cons. by left.
Defined.

(** ** Large allocations *)

Lemma large_scan_hit (ls1 : list ngx_pool_large_t) (l : ngx_pool_large_t)
    (ls2 : list ngx_pool_large_t) (n p : Z) :
  Forall (fun x => alloc x <> NULL) ls1 ->
  alloc l = NULL ->
  n + Z.of_nat (length ls1) <= 4 ->
  large_scan (ls1 ++ l :: ls2) n p = Some (ls1 ++ set_alloc l p :: ls2).
Proof.
  intros H1 Hl. revert n. induction H1 as [|l1 ls1 Hl1 _ IH]; intros n Hn.
  - cbn [large_scan app]. by rewrite Hl, Z.eqb_refl.
  - cbn [large_scan app]. cbn [length] in Hn.
    destruct (Z.eqb_spec (alloc l1) NULL); [done|].
    destruct (Z.gtb_spec n 3); [lia|].
    rewrite IH; [done|lia].
Qed.

Lemma large_scan_all_used (ls : list ngx_pool_large_t) (n p : Z) :
  Forall (fun x => alloc x <> NULL) ls -> large_scan ls n p = None.
Proof.
  intros H. revert n. induction H as [|l ls Hl _ IH]; intros n; [done|].
  cbn [large_scan]. destruct (Z.eqb_spec (alloc l) NULL); [done|].
  destruct (n >? 3); [done|]. by rewrite IH.
Qed.

(** The loop of [ngx_palloc_large] stops at the fifth node in use: nothing
    behind it is looked at. *)
Lemma large_scan_gives_up (ls1 ls2 : list ngx_pool_large_t) (n p : Z) :
  Forall (fun x => alloc x <> NULL) ls1 ->
  ls1 <> [] ->
  4 < n + Z.of_nat (length ls1) ->
  large_scan (ls1 ++ ls2) n p = None.
Proof.
  intros H1. revert n. induction H1 as [|l1 ls1 Hl1 H1 IH]; intros n Hne Hn; [done|].
  cbn [large_scan app]. cbn [length] in Hn.
  destruct (Z.eqb_spec (alloc l1) NULL); [done|].
  destruct (Z.gtb_spec n 3); [done|].
  destruct ls1 as [|l2 ls1]; [simpl in Hn; lia|].
  rewrite IH; [done|done|lia].
Qed.

(** C4, what the code does: the loop of [ngx_palloc_large] looks at the
    fifth node of the large list too.  When the first four nodes are in
    use and the fifth is vacated, the payload goes into the fifth node and
    the list keeps its length. *)
Theorem ngx_palloc_large_reuses_fifth_node {pf : platform}
    (pool : ngx_pool_t) (size : Z) (e : env) (p : Z)
    (ls1 : list ngx_pool_large_t) (l : ngx_pool_large_t) (ls2 : list ngx_pool_large_t) :
  hd NULL (heap e) = p ->
  p <> NULL ->
  large pool = ls1 ++ l :: ls2 ->
  length ls1 = 4%nat ->
  Forall (fun x => alloc x <> NULL) ls1 ->
  alloc l = NULL ->
  ngx_palloc_large pool size e
    = (p, set_large pool (ls1 ++ set_alloc l p :: ls2),
       log_events (pop_answer e) [ev_alloc size p]) /\
  length (large (ngx_palloc_large pool size e).1.2) = length (large pool).
Proof.
  intros Hp Hnz Hls Hlen H1 Hl.
  assert (ngx_palloc_large pool size e
    = (p, set_large pool (ls1 ++ set_alloc l p :: ls2),
       log_events (pop_answer e) [ev_alloc size p])) as ->.
  { unfold ngx_palloc_large, ngx_alloc, bind, next_answer, emit, ret. rewrite Hp.
    destruct (Z.eqb_spec p NULL); [done|].
    rewrite Hls, (large_scan_hit ls1 l ls2 0 p H1 Hl); [done|lia]. }
  split; [done|]. simpl. by rewrite Hls, !length_app.
Qed.

Lemma five_large_pool_reuses_fifth_node :
  @ngx_palloc_large lp64 five_large_pool 5000 (quiet_env [60000])
    = (60000,
       set_large five_large_pool
         [ {| l_addr := 4240; alloc := 50000 |}; {| l_addr := 4224; alloc := 40000 |};
           {| l_addr := 4208; alloc := 30000 |}; {| l_addr := 4192; alloc := 20000 |};
           {| l_addr := 4176; alloc := 60000 |} ],
       log_events (pop_answer (quiet_env [60000])) [ev_alloc 5000 60000]) /\
  length (large (@ngx_palloc_large lp64 five_large_pool 5000 (quiet_env [60000])).1.2)
    = length (large five_large_pool).
Proof.
  apply (@ngx_palloc_large_reuses_fifth_node lp64 five_large_pool 5000 (quiet_env [60000])
           60000
           [ {| l_addr := 4240; alloc := 50000 |}; {| l_addr := 4224; alloc := 40000 |};
             {| l_addr := 4208; alloc := 30000 |}; {| l_addr := 4192; alloc := 20000 |} ]
           {| l_addr := 4176; alloc := NULL |} []);
    try reflexivity; try discriminate.
  repeat constructor; discriminate.
Defined.

(** ** Failure of the underlying allocator *)


Lemma ngx_palloc_block_fails {pf : platform} (pool : ngx_pool_t) (size : Z) (e : env) :
  hd NULL (heap e) = NULL ->
  ngx_palloc_block pool size e
    = (NULL, pool,
       log_events (pop_answer e)
         [ev_memalign NGX_POOL_ALIGNMENT (to_size_t (psize pool)) NULL]).
Proof.
  intros H. unfold ngx_palloc_block, ngx_memalign, bind, next_answer, emit, ret.
  rewrite H. done.
Qed.


(** ** Block growth *)

Lemma failed_walk_cons {pf : platform} (p q : ngx_pool_data_t)
    (rest : list ngx_pool_data_t) (i cur : nat) :
  failed_walk (p :: q :: rest) i cur
    = (set_failed p (uint_incr (d_failed p))
         :: (failed_walk (q :: rest) (S i) (if d_failed p >? 4 then S i else cur)).1,
       (failed_walk (q :: rest) (S i) (if d_failed p >? 4 then S i else cur)).2).
Proof.
  cbn [failed_walk].
  by destruct (failed_walk rest (S (S i)) _), rest.
Qed.

(** The loop of [ngx_palloc_block], block by block: every block but the
    last has its counter incremented, the last is left alone, and
    [current] ends up just after the last block passed whose counter was
    above 4 before the increment, or where it was. *)
Lemma failed_walk_spec {pf : platform} (bs : list ngx_pool_data_t) :
  forall i cur : nat,
  (cur <= i)%nat ->
  length (failed_walk bs i cur).1 = length bs /\
  (forall k b, bs !! k = Some b -> (S k < length bs)%nat ->
     (failed_walk bs i cur).1 !! k = Some (set_failed b (uint_incr (d_failed b)))) /\
  (forall k, S k = length bs -> (failed_walk bs i cur).1 !! k = bs !! k) /\
  (cur <= (failed_walk bs i cur).2)%nat /\
  ((failed_walk bs i cur).2 <= i + (length bs - 1))%nat /\
  (forall k b, bs !! k = Some b -> (S k < length bs)%nat -> 4 < d_failed b ->
     (i + k < (failed_walk bs i cur).2)%nat) /\
  ((failed_walk bs i cur).2 = cur \/
   exists k b, (failed_walk bs i cur).2 = S (i + k) /\ bs !! k = Some b /\
     (S k < length bs)%nat /\ 4 < d_failed b).
Proof.
  induction bs as [|p rest IH]; intros i cur Hcur.
  - simpl. repeat split; try done; try lia; try by left.
  - destruct rest as [|q rest].
    + simpl. repeat split; try done; try lia; try (by left); intros; lia.
    + rewrite failed_walk_cons. cbn [fst snd].
      set (cur' := if d_failed p >? 4 then S i else cur).
      assert (cur' <= S i)%nat as Hcur'.
      { unfold cur'. destruct (d_failed p >? 4); lia. }
      assert (cur <= cur')%nat as Hle.
      { unfold cur'. destruct (d_failed p >? 4); lia. }
      assert (4 < d_failed p -> cur' = S i) as Hp.
      { unfold cur'. destruct (Z.gtb_spec (d_failed p) 4); lia. }
      destruct (IH (S i) cur' Hcur') as (Hlen & Hinc & Hlast & Hlo & Hhi & Hq & Hc).
      cbn [length] in *.
      split; [by rewrite Hlen|].
      split; [|split; [|split; [|split; [|split]]]].
      * intros [|k] b Hb Hk; simpl in Hb.
        -- by injection Hb as ->.
        -- simpl. apply Hinc; [done|lia].
      * intros [|k] Hk; [lia|]. simpl. apply Hlast. lia.
      * lia.
      * lia.
      * intros [|k] b Hb Hk Hf; simpl in Hb.
        -- simplify_eq. specialize (Hp Hf). lia.
        -- specialize (Hq k b Hb). lia.
      * destruct Hc as [Hc|(k & b & Hc & Hb & Hk & Hf)].
        -- rewrite Hc. unfold cur'. destruct (Z.gtb_spec (d_failed p) 4); [|by left].
           right. exists 0%nat, p. repeat split; try done; lia.
        -- right. exists (S k), b. repeat split; try done; lia.
Qed.

(** What [ngx_palloc_block] does when the allocator answers [m]: the
    blocks [bs'] it keeps are the old ones with some counters incremented,
    and the new block stands after them. *)
Lemma ngx_palloc_block_grows {pf : platform} (pool : ngx_pool_t) (size : Z) (e : env) (m : Z) :
  hd NULL (heap e) = m ->
  m <> NULL ->
  (current pool < length (blocks pool))%nat ->
  exists (bs' : list ngx_pool_data_t) (cur' : nat),
    ngx_palloc_block pool size e
      = (ngx_align_ptr (m + sizeof_ngx_pool_data_t) NGX_ALIGNMENT,
         set_blocks pool (bs' ++ [grown_block pool size m]) cur',
         log_events (pop_answer e)
           [ev_memalign NGX_POOL_ALIGNMENT (to_size_t (psize pool)) m]) /\
    length bs' = length (blocks pool) /\
    (forall i, (i < current pool)%nat -> bs' !! i = blocks pool !! i) /\
    (forall i b, (current pool <= i)%nat -> (S i < length (blocks pool))%nat ->
       blocks pool !! i = Some b ->
       bs' !! i = Some (set_failed b (uint_incr (d_failed b)))) /\
    (forall i, S i = length (blocks pool) -> bs' !! i = blocks pool !! i) /\
    (current pool <= cur' < length (blocks pool))%nat /\
    (forall i b, (current pool <= i)%nat -> (S i < length (blocks pool))%nat ->
       blocks pool !! i = Some b -> 4 < d_failed b -> (i < cur')%nat) /\
    (cur' = current pool \/
     exists i b, cur' = S i /\ (current pool <= i)%nat /\
       (S i < length (blocks pool))%nat /\ blocks pool !! i = Some b /\ 4 < d_failed b).
Proof.
  intros Hm Hnz Hcur.
  set (c := current pool) in *. set (bs := blocks pool) in *.
  destruct (failed_walk_spec (drop c bs) c c (Nat.le_refl c))
    as (Hlen & Hinc & Hlast & Hlo & Hhi & Hq & Hc).
  exists (take c bs ++ (failed_walk (drop c bs) c c).1), (failed_walk (drop c bs) c c).2.
  assert (length (take c bs) = c) as Htake by (apply length_take_le; lia).
  assert (length (drop c bs) = (length bs - c)%nat) as Hdrop by apply length_drop.
  split; [|split; [|split; [|split; [|split; [|split; [|split]]]]]].
  - unfold ngx_palloc_block, ngx_memalign, bind, next_answer, emit, ret.
    fold c bs. rewrite Hm. destruct (Z.eqb_spec m NULL); [done|].
    destruct (failed_walk (drop c bs) c c) as [w cur'] eqn:Hw. simpl.
    by rewrite <- app_assoc.
  - rewrite length_app, Htake, Hlen, Hdrop. lia.
  - intros i Hi. rewrite lookup_app_l by lia. by apply lookup_take_lt.
  - intros i b Hi1 Hi2 Hb. rewrite lookup_app_r by lia. rewrite Htake.
    apply Hinc; [|lia]. rewrite lookup_drop. by replace (c + (i - c))%nat with i by lia.
  - intros i Hi. rewrite lookup_app_r by lia. rewrite Htake.
    rewrite Hlast by lia. rewrite lookup_drop. by replace (c + (i - c))%nat with i by lia.
  - lia.
  - intros i b Hi1 Hi2 Hb Hf.
    specialize (Hq (i - c)%nat b). rewrite lookup_drop in Hq.
    replace (c + (i - c))%nat with i in Hq by lia.
    specialize (Hq Hb). lia.
  - destruct Hc as [Hc|(k & b & Hc & Hb & Hk & Hf)]; [by left|].
    right. exists (c + k)%nat, b. rewrite lookup_drop in Hb.
    repeat split; try done; lia.
Qed.

(** C5, as the code has it: when [ngx_palloc_block] gets its block, the
    chain grows by that block at the end.  Every block from [current] up
    to, and without, the last block of the old chain has its [failed]
    counter incremented; the last block and the blocks before [current]
    are left alone.  [current] moves past every such block whose counter
    was above 4 before the increment, that is above 5 after it, and stops
    just after the last of them; with no such block it stays. *)
Theorem ngx_palloc_block_retires_above_four {pf : platform}
    (pool : ngx_pool_t) (size : Z) (e : env) (m : Z) :
  hd NULL (heap e) = m ->
  m <> NULL ->
  (current pool < length (blocks pool))%nat ->
  let pool' := (ngx_palloc_block pool size e).1.2 in
  let n := length (blocks pool) in
  (ngx_palloc_block pool size e).1.1
    = ngx_align_ptr (m + sizeof_ngx_pool_data_t) NGX_ALIGNMENT /\
  length (blocks pool') = S n /\
  blocks pool' !! n = Some (grown_block pool size m) /\
  (forall i, (i < current pool)%nat -> blocks pool' !! i = blocks pool !! i) /\
  (forall i b, (current pool <= i)%nat -> (S i < n)%nat ->
     blocks pool !! i = Some b ->
     blocks pool' !! i = Some (set_failed b (uint_incr (d_failed b)))) /\
  (forall i, S i = n -> blocks pool' !! i = blocks pool !! i) /\
  (current pool <= current pool' < n)%nat /\
  (forall i b, (current pool <= i)%nat -> (S i < n)%nat ->
     blocks pool !! i = Some b -> 4 < d_failed b -> (i < current pool')%nat) /\
  (current pool' = current pool \/
   exists i b, current pool' = S i /\ (current pool <= i)%nat /\ (S i < n)%nat /\
     blocks pool !! i = Some b /\ 4 < d_failed b).
Proof.
  intros Hm Hnz Hcur.
  destruct (ngx_palloc_block_grows pool size e m Hm Hnz Hcur)
    as (bs' & cur' & -> & Hlen & Hbefore & Hinc & Hlast & Hcur' & Hq & Hc).
  cbn [fst snd set_blocks blocks current].
  split; [done|].
  split; [rewrite length_app, Hlen; simpl; lia|].
  split; [by apply list_lookup_middle|].
  split; [intros i Hi; rewrite lookup_app_l by lia; by apply Hbefore|].
  split; [intros i b Hi1 Hi2 Hb; rewrite lookup_app_l by lia; by apply Hinc|].
  split; [intros i Hi; rewrite lookup_app_l by lia; by apply Hlast|].
  done.
Qed.

Lemma four_failures_pool_keeps_current :
  current (@ngx_palloc_block lp64 four_failures_pool 100 (quiet_env [12288])).1.2 = 0%nat /\
  blocks (@ngx_palloc_block lp64 four_failures_pool 100 (quiet_env [12288])).1.2 !! 0%nat
    = Some {| d_addr := 4096; d_last := 5120; d_end := 5120; d_failed := 5 |} /\
  blocks (@ngx_palloc_block lp64 four_failures_pool 100 (quiet_env [12288])).1.2 !! 1%nat
    = Some {| d_addr := 8192; d_last := 9216; d_end := 9216; d_failed := 3 |} /\
  current (@ngx_palloc_block lp64 five_failures_pool 100 (quiet_env [16384])).1.2 = 1%nat.
Proof.
  destruct (@ngx_palloc_block_retires_above_four lp64 four_failures_pool 100
              (quiet_env [12288]) 12288 eq_refl)
    as (_ & _ & _ & _ & Hinc & Hlast & _ & _ & Hc); [discriminate|simpl; lia|].
  destruct (@ngx_palloc_block_retires_above_four lp64 five_failures_pool 100
              (quiet_env [16384]) 16384 eq_refl)
    as (_ & _ & _ & _ & _ & _ & _ & Hq & Hc'); [discriminate|simpl; lia|].
  split; [|split; [|split]].
  - destruct Hc as [Hc|(i & b & _ & _ & Hi & Hb & Hf)]; [exact Hc|].
    destruct i as [|[|i]]; simpl in *; [|lia|lia].
    injection Hb as <-. simpl in Hf. lia.
  - apply (Hinc 0%nat {| d_addr := 4096; d_last := 5120; d_end := 5120; d_failed := 4 |});
      [simpl; lia|simpl; lia|reflexivity].
  - apply (Hlast 1%nat). reflexivity.
  - specialize (Hq 0%nat {| d_addr := 4096; d_last := 5120; d_end := 5120; d_failed := 5 |}).
    assert (0 < current (@ngx_palloc_block lp64 five_failures_pool 100%Z
                           (quiet_env [16384%Z])).1.2)%nat as Hpos.
    { apply Hq; [simpl; lia|simpl; lia|reflexivity|simpl; lia]. }
    destruct Hc' as [Hc'|(i & b & Hc' & _ & Hi & Hb & Hf)].
    + rewrite Hc' in Hpos. simpl in Hpos. lia.
    + rewrite Hc'. destruct i as [|[|i]]; simpl in Hi, Hb; [done| |lia].
      injection Hb as <-. simpl in Hf. lia.
Defined.

(** C5, as the spec words it, fails on a pool whose root block has failed
    four times: the fifth failure takes its counter to 5, above 4, and
    [current] stays on the root block. *)
Lemma five_failures_do_not_retire :
  ~ retires_when_counter_exceeds_four four_failures_pool
      (@ngx_palloc_block lp64 four_failures_pool 100 (quiet_env [12288])).1.2.
Proof.
  intros H.
  specialize (H 0%nat {| d_addr := 4096; d_last := 5120; d_end := 5120; d_failed := 4 |}
                {| d_addr := 4096; d_last := 5120; d_end := 5120; d_failed := 5 |}).
  vm_compute in H.
  assert (1 <= 0)%nat as Habs; [|lia].
  apply H; try reflexivity; lia.
Qed.

(** ** Alignment *)

Lemma ngx_align_ptr_ge (p a : Z) : 0 < a -> p <= ngx_align_ptr p a.
Proof.
  intros Ha. unfold ngx_align_ptr.
  pose proof (Z.mod_pos_bound (p + (a - 1)) a Ha).
  pose proof (Z.div_mod (p + (a - 1)) a). lia.
Qed.

Lemma ngx_align_ptr_lt (p a : Z) : 0 < a -> ngx_align_ptr p a < p + a.
Proof.
  intros Ha. unfold ngx_align_ptr.
  pose proof (Z.mod_pos_bound (p + (a - 1)) a Ha).
  pose proof (Z.div_mod (p + (a - 1)) a). lia.
Qed.

Lemma ngx_align_ptr_mod (p a : Z) : ngx_align_ptr p a mod a = 0.
Proof. unfold ngx_align_ptr. apply Z_mod_mult. Qed.

Lemma ngx_align_ptr_le_aligned (p q a : Z) :
  0 < a -> p <= q -> q mod a = 0 -> ngx_align_ptr p a <= q.
Proof.
  intros Ha Hpq Hq. unfold ngx_align_ptr.
  apply Z.mod_divide in Hq; [|lia]. destruct Hq as [k ->].
  assert ((p + (a - 1)) / a <= k); [|nia].
  apply Z.lt_succ_r. apply Z.div_lt_upper_bound; lia.
Qed.

Lemma mod_zero_trans (x a b : Z) : 0 < a -> 0 < b -> b mod a = 0 -> x mod b = 0 -> x mod a = 0.
Proof.
  intros Ha Hb Hba Hx.
  apply Z.mod_divide in Hba; [|lia]. apply Z.mod_divide in Hx; [|lia].
  apply Z.mod_divide; [lia|]. by etrans.
Qed.

Lemma mod_zero_add (x y a : Z) : 0 < a -> x mod a = 0 -> y mod a = 0 -> (x + y) mod a = 0.
Proof.
  intros Ha Hx Hy. rewrite Z.add_mod by lia. rewrite Hx, Hy. by apply Z.mod_0_l; lia.
Qed.

(** ** Blocks that do not overlap *)

Lemma all_apart_sound (xs : list (Z * Z)) : all_apart xs = true -> apart_list xs.
Proof.
  induction xs as [|x xs IH]; intros H i j a b Hij Ha Hb.
  - by rewrite lookup_nil in Ha.
  - simpl in H. apply andb_true_iff in H as [Hx Hxs].
    rewrite forallb_forall in Hx.
    destruct i as [|i], j as [|j]; simpl in Ha, Hb; [done| | |].
    + injection Ha as <-.
      apply list_elem_of_lookup_2, list_elem_of_In, Hx in Hb.
      unfold extent_apart in Hb. apply orb_true_iff in Hb as [Hb|Hb]; apply Z.leb_le in Hb; lia.
    + injection Hb as <-.
      apply list_elem_of_lookup_2, list_elem_of_In, Hx in Ha.
      unfold extent_apart in Ha. apply orb_true_iff in Ha as [Ha|Ha]; apply Z.leb_le in Ha; lia.
    + apply (IH Hxs i j); [lia|done|done].
Qed.

(** ** The scan of [ngx_palloc_small] *)

Lemma palloc_scan_hit {pf : platform} (bs : list ngx_pool_data_t) (size : Z) (al : bool)
    (m : Z) (bs' : list ngx_pool_data_t) :
  palloc_scan bs size al = Some (m, bs') ->
  exists (k : nat) (b : ngx_pool_data_t),
    bs !! k = Some b /\
    bs' = <[k := set_last b (m + size)]> bs /\
    m = (if al then ngx_align_ptr (d_last b) NGX_ALIGNMENT else d_last b) /\
    size <= to_size_t (d_end b - m).
Proof.
  revert m bs'. induction bs as [|p rest IH]; intros m bs'; [done|].
  cbn [palloc_scan].
  destruct (Z.leb_spec size
    (to_size_t (d_end p - (if al then ngx_align_ptr (d_last p) NGX_ALIGNMENT else d_last p))))
    as [Hfit|Hfit].
  - intros [= <- <-]. exists 0%nat, p. by repeat split.
  - destruct (palloc_scan rest size al) as [[r rest']|] eqn:Hscan; [|done].
    intros [= <- <-].
    destruct (IH r rest' eq_refl) as (k & b & Hb & -> & Hm & Hsz).
    exists (S k), b. by repeat split.
Qed.

Lemma take_insert_drop {A : Type} (l : list A) (c k : nat) (x : A) :
  (c <= length l)%nat ->
  take c l ++ <[k := x]> (drop c l) = <[(c + k)%nat := x]> l.
Proof.
  intros Hc.
  rewrite <- (take_drop c l) at 3.
  rewrite <- (length_take_le l c) at 3 by done.
  by rewrite insert_app_r.
Qed.

(** ** The invariant of the block chain *)

Lemma block_wf_ok {pf : platform} (psz hdr : Z) (b : ngx_pool_data_t) :
  block_wf psz hdr b = true -> block_ok psz hdr b.
Proof. unfold block_wf, block_ok. intros H. bools. done. Qed.

Lemma pool_inv_of_wf {pf : platform} (pool : ngx_pool_t) (hs : list Z) :
  pool_wf pool = true -> heap_fresh pool hs = true -> pool_inv pool hs.
Proof.
  unfold pool_wf, heap_fresh, pool_inv. intros Hwf Hfresh.
  destruct (blocks pool) as [|r rest] eqn:Hbs; [done|].
  apply andb_true_iff in Hfresh as [Hans Hapart].
  apply andb_true_iff in Hwf as [Hwf _].
  apply andb_true_iff in Hwf as [Hwf Hrest].
  apply andb_true_iff in Hwf as [Hwf Hroot].
  apply andb_true_iff in Hwf as [Hwf Hcur].
  apply andb_true_iff in Hwf as [Hwf Hmax2].
  apply andb_true_iff in Hwf as [Hwf Hmax1].
  apply andb_true_iff in Hwf as [Hwf Hmod].
  apply andb_true_iff in Hwf as [Hps1 Hps2].
  bools.
  split; [lia|]. split; [done|]. split; [lia|]. split; [done|].
  split; [|split].
  - intros [|i] x Hx; simpl in Hx.
    + injection Hx as <-. by apply block_wf_ok.
    + apply block_wf_ok. simpl.
      rewrite forallb_forall in Hrest. apply Hrest.
      by apply list_elem_of_In, list_elem_of_lookup_2 with i.
  - intros a Ha Hnz. rewrite forallb_forall in Hans.
    apply list_elem_of_In, Hans in Ha.
    apply orb_true_iff in Ha as [Ha|Ha]; bools; [done|lia].
  - by apply all_apart_sound.
Qed.

Lemma header_size_nonneg {pf : platform} (i : nat) : platform_ok -> 0 <= header_size i.
Proof.
  intros (_ & Ha & _ & _ & Hd & Hp). destruct i; simpl; lia.
Qed.

Lemma psize_set_blocks (pool : ngx_pool_t) (bs' : list ngx_pool_data_t) (cur' : nat)
    (r r' : ngx_pool_data_t) :
  blocks pool !! 0%nat = Some r ->
  bs' !! 0%nat = Some r' ->
  d_addr r' = d_addr r -> d_end r' = d_end r ->
  psize (set_blocks pool bs' cur') = psize pool.
Proof.
  unfold psize, root. simpl.
  destruct (blocks pool) as [|r0 rest], bs' as [|r0' rest']; try done.
  simpl. intros [= ->] [= ->] -> ->. done.
Qed.

Lemma extents_same (bs bs' : list ngx_pool_data_t) :
  length bs' = length bs ->
  (forall i b, bs !! i = Some b ->
     exists b', bs' !! i = Some b' /\ d_addr b' = d_addr b /\ d_end b' = d_end b) ->
  map extent bs' = map extent bs.
Proof.
  intros Hlen Hsame. apply list_eq. intros i.
  change (map extent bs') with (extent <$> bs').
  change (map extent bs) with (extent <$> bs).
  rewrite !list_lookup_fmap.
  destruct (bs !! i) as [b|] eqn:Hb.
  - destruct (Hsame i b Hb) as (b' & -> & Ha & He). simpl. unfold extent. by rewrite Ha, He.
  - apply lookup_ge_None_1 in Hb. rewrite lookup_ge_None_2 by lia. done.
Qed.

(** The invariant lasts when blocks keep their place and their size and
    cursors move forward within their blocks. *)
Lemma pool_inv_step {pf : platform} (pool : ngx_pool_t) (hs : list Z)
    (bs' : list ngx_pool_data_t) (cur' : nat) :
  pool_inv pool hs ->
  length bs' = length (blocks pool) ->
  (cur' < length bs')%nat ->
  (forall i b, blocks pool !! i = Some b ->
     exists b', bs' !! i = Some b' /\ d_addr b' = d_addr b /\ d_end b' = d_end b /\
       d_last b <= d_last b' /\ d_last b' <= d_end b') ->
  pool_inv (set_blocks pool bs' cur') hs /\ grows pool (set_blocks pool bs' cur').
Proof.
  intros (Hps & Hmod & Hmax & Hcur & Hblk & Hans & Hapart) Hlen Hcur' Hsame.
  assert (psize (set_blocks pool bs' cur') = psize pool) as Hpsz.
  { destruct (lookup_lt_is_Some_2 (blocks pool) 0%nat) as [r Hr]; [lia|].
    destruct (Hsame 0%nat r Hr) as (r' & Hr' & Ha & He & _).
    by apply (psize_set_blocks pool bs' cur' r r'). }
  split.
  - unfold pool_inv. rewrite Hpsz. cbn [set_blocks blocks max current].
    split; [done|]. split; [done|]. split; [done|]. split; [done|].
    split; [|split; [done|]].
    + intros i b' Hb'.
      destruct (lookup_lt_is_Some_2 (blocks pool) i) as [b Hb].
      { apply lookup_lt_Some in Hb'. lia. }
      destruct (Hsame i b Hb) as (b'' & Hb'' & Ha & He & Hl1 & Hl2).
      rewrite Hb' in Hb''. injection Hb'' as <-.
      destruct (Hblk i b Hb) as (H1 & H2 & H3 & H4 & H5).
      unfold block_ok. rewrite Ha, He. repeat split; try done; lia.
    + rewrite (extents_same (blocks pool) bs'); [done|done|].
      intros i b Hb. destruct (Hsame i b Hb) as (b' & Hb' & Ha & He & _). by exists b'.
  - unfold grows. split; [done|]. split; [done|].
    intros i b Hb. destruct (Hsame i b Hb) as (b' & Hb' & Ha & He & Hl & _).
    by exists b'.
Qed.

Lemma grows_refl (pool : ngx_pool_t) : grows pool pool.
Proof.
  unfold grows. repeat split. intros i b Hb. exists b. repeat split; [done|lia].
Qed.

Lemma grows_trans (p1 p2 p3 : ngx_pool_t) : grows p1 p2 -> grows p2 p3 -> grows p1 p3.
Proof.
  intros (Hp1 & Hm1 & H1) (Hp2 & Hm2 & H2). unfold grows.
  split; [congruence|]. split; [congruence|].
  intros i b Hb. destruct (H1 i b Hb) as (b' & Hb' & Ha & He & Hl).
  destruct (H2 i b' Hb') as (b'' & Hb'' & Ha' & He' & Hl').
  exists b''. repeat split; try done; try congruence. lia.
Qed.

Lemma answer_extents_hd_null (psz : Z) (hs : list Z) :
  hd NULL hs = NULL -> answer_extents psz (tl hs) = answer_extents psz hs.
Proof. destruct hs as [|a hs]; simpl; [done|]. by intros ->. Qed.

Lemma answer_extents_hd (psz : Z) (hs : list Z) (m : Z) :
  hd NULL hs = m -> m <> NULL ->
  hs = m :: tl hs /\ answer_extents psz hs = (m, m + psz) :: answer_extents psz (tl hs).
Proof.
  destruct hs as [|a hs]; simpl; [congruence|]. intros -> Hm.
  split; [done|]. by destruct (Z.eqb_spec m NULL).
Qed.

(** The invariant lasts when the block for the allocator's next answer is
    put at the end of the chain. *)
Lemma pool_inv_append {pf : platform} (pool : ngx_pool_t) (hs : list Z) (size m : Z) :
  platform_ok ->
  pool_inv pool hs ->
  hd NULL hs = m -> m <> NULL ->
  0 <= size <= max pool ->
  pool_inv (set_blocks pool (blocks pool ++ [grown_block pool size m]) (current pool)) (tl hs) /\
  grows pool (set_blocks pool (blocks pool ++ [grown_block pool size m]) (current pool)) /\
  m + sizeof_ngx_pool_data_t <= ngx_align_ptr (m + sizeof_ngx_pool_data_t) NGX_ALIGNMENT.
Proof.
  intros Hpf (Hps & Hmod & Hmax & Hcur & Hblk & Hans & Hapart) Hm Hnz Hsz.
  pose proof Hpf as (Hbits & Ha & Hpa & Hpa_a & Hd0 & Hdp).
  destruct (answer_extents_hd (psize pool) hs m Hm Hnz) as [Hhs Hext].
  assert (m ∈ hs) as Hin by (rewrite Hhs; by left).
  destruct (Hans m Hin Hnz) as [Hmpos Hmmod].
  assert (to_size_t (psize pool) = psize pool) as Hto.
  { unfold to_size_t. apply Z.mod_small. lia. }
  destruct (blocks pool) as [|r rest] eqn:Hbs; [simpl in Hcur; lia|].
  assert (psize (set_blocks pool ((r :: rest) ++ [grown_block pool size m]) (current pool))
          = psize pool) as Hpsz.
  { unfold psize, root. simpl. by rewrite Hbs. }
  pose proof (ngx_align_ptr_ge (m + sizeof_ngx_pool_data_t) NGX_ALIGNMENT Ha) as Hge.
  pose proof (ngx_align_ptr_lt (m + sizeof_ngx_pool_data_t) NGX_ALIGNMENT Ha) as Hlt.
  split; [|split; [|done]].
  - unfold pool_inv. rewrite Hpsz. cbn [set_blocks blocks max current].
    split; [done|]. split; [done|]. split; [done|].
    split; [rewrite length_app; simpl in *; lia|].
    split; [|split].
    + intros i b Hb.
      destruct (decide (i < length (r :: rest))%nat) as [Hi|Hi].
      * rewrite lookup_app_l in Hb by done. by apply Hblk.
      * rewrite lookup_app_r in Hb by lia.
        destruct (i - length (r :: rest))%nat as [|j] eqn:Hj; simpl in Hb; [|done].
        injection Hb as <-.
        destruct i as [|i]; [simpl in Hi; lia|].
        unfold block_ok, grown_block. cbn [d_addr d_last d_end header_size].
        rewrite Hto.
        repeat split; try done; try lia.
        by apply (mod_zero_trans m NGX_ALIGNMENT NGX_POOL_ALIGNMENT).
    + intros a Hina. apply Hans. rewrite Hhs. by right.
    + assert (map extent ((r :: rest) ++ [grown_block pool size m])
                ++ answer_extents (psize pool) (tl hs)
              = map extent (r :: rest) ++ answer_extents (psize pool) hs) as ->; [|done].
      rewrite Hext, map_app, <- app_assoc. f_equal.
      unfold grown_block, extent. simpl. by rewrite Hto.
  - unfold grows. split; [done|]. split; [done|].
    cbn [set_blocks blocks]. intros i b Hb. exists b. rewrite Hbs in Hb.
    rewrite lookup_app_l by (by apply lookup_lt_Some in Hb).
    repeat split; [done|lia].
Qed.

Lemma tl_subset (hs : list Z) (a : Z) : a ∈ tl hs -> a ∈ hs.
Proof. destruct hs; simpl; [done|]. by right. Qed.

(** One call of [ngx_palloc_small] on a well-formed pool. *)
Lemma ngx_palloc_small_step {pf : platform} (pool : ngx_pool_t) (size : Z) (al : bool)
    (e : env) (m : Z) (pool' : ngx_pool_t) (e' : env) :
  platform_ok ->
  pool_inv pool (heap e) ->
  0 <= size <= max pool ->
  ngx_palloc_small pool size al e = (m, pool', e') ->
  pool_inv pool' (heap e') /\
  grows pool pool' /\
  (m <> NULL -> placed pool pool' {| r_addr := m; r_size := size; r_aligned := al |}).
Proof.
  intros Hpf Hinv Hsz Hrun.
  pose proof Hpf as (Hbits & Ha & Hpa & Hpa_a & Hd0 & Hdp).
  pose proof Hinv as (Hps & Hmod & Hmax & Hcur & Hblk & Hans & Hapart).
  unfold ngx_palloc_small in Hrun.
  set (c := current pool) in *. set (bs := blocks pool) in *.
  destruct (palloc_scan (drop c bs) size al) as [[m0 bs']|] eqn:Hscan.
  - (* a block from [current] on has room *)
    unfold ret in Hrun. injection Hrun as <- <- <-.
    destruct (palloc_scan_hit _ _ _ _ _ Hscan) as (k & b & Hb & -> & Hm & Hfit).
    rewrite lookup_drop in Hb.
    destruct (Hblk _ b Hb) as (Hpos & Hamod & Hend & Hlo & Hhi).
    pose proof (header_size_nonneg (c + k) Hpf) as Hhdr.
    assert (d_end b mod NGX_ALIGNMENT = 0) as Hemod.
    { rewrite Hend. by apply mod_zero_add. }
    assert (d_last b <= m0 <= d_end b) as Hm0.
    { destruct al; subst m0; [|lia].
      split; [by apply ngx_align_ptr_ge|by apply ngx_align_ptr_le_aligned]. }
    assert (to_size_t (d_end b - m0) = d_end b - m0) as Hto.
    { unfold to_size_t. apply Z.mod_small. lia. }
    rewrite Hto in Hfit.
    rewrite take_insert_drop by lia.
    set (b1 := set_last b (m0 + size)).
    destruct (pool_inv_step pool (heap e) (<[(c + k)%nat := b1]> bs) c Hinv) as [Hinv' Hgrows].
    { by rewrite length_insert. }
    { rewrite length_insert. lia. }
    { intros i b0 Hb0. destruct (decide (i = (c + k)%nat)) as [->|Hne].
      - exists b1. rewrite list_lookup_insert_eq by (by apply lookup_lt_Some in Hb0).
        fold bs in Hb0. rewrite Hb in Hb0. injection Hb0 as <-.
        unfold b1. simpl. repeat split; try done; lia.
      - exists b0. rewrite list_lookup_insert_ne by done.
        fold bs in Hb0. destruct (Hblk i b0 Hb0) as (_ & _ & _ & _ & ?).
        repeat split; try done; lia. }
    split; [done|]. split; [done|].
    intros _. exists (c + k)%nat, b1. cbn [set_blocks blocks r_addr r_size r_aligned].
    rewrite list_lookup_insert_eq by (by apply lookup_lt_Some in Hb).
    unfold b1. simpl.
    repeat split; try done; try lia.
    + intros b0 Hb0. fold bs in Hb0. rewrite Hb in Hb0. injection Hb0 as <-. lia.
    + intros ->. subst m0. apply ngx_align_ptr_mod.
  - (* no block has room: a new block *)
    destruct (Z.eq_dec (hd NULL (heap e)) NULL) as [Hnull|Hnz].
    + rewrite ngx_palloc_block_fails in Hrun by done.
      injection Hrun as <- <- <-. cbn [log_events pop_answer heap].
      split; [|split; [apply grows_refl|done]].
      unfold pool_inv.
      repeat (split; [done|]). split.
      * intros a Hin. apply Hans. by apply tl_subset.
      * by rewrite answer_extents_hd_null.
    + destruct (ngx_palloc_block_grows pool size e _ eq_refl Hnz Hcur)
        as (bs1 & cur' & Heq & Hlen & Hbefore & Hinc & Hlast & Hcur' & _ & _).
      rewrite Heq in Hrun. injection Hrun as <- <- <-.
      cbn [log_events pop_answer heap].
      set (mm := hd NULL (heap e)) in *.
      destruct (pool_inv_step pool (heap e) bs1 cur' Hinv Hlen) as [Hinv1 Hgrows1].
      { lia. }
      { intros i b Hb. fold bs in Hb.
        destruct (Hblk i b Hb) as (_ & _ & _ & _ & Hhi).
        pose proof (lookup_lt_Some _ _ _ Hb) as Hi.
        destruct (decide (i < c)%nat) as [Hic|Hic].
        - exists b. rewrite Hbefore by done. fold bs. repeat split; try done; lia.
        - destruct (decide (S i = length bs)) as [Hil|Hil].
          + exists b. rewrite Hlast by done. fold bs. repeat split; try done; lia.
          + exists (set_failed b (uint_incr (d_failed b))).
            rewrite (Hinc i b) by (fold bs; first [done|lia]).
            simpl. repeat split; try done; lia. }
      set (pool1 := set_blocks pool bs1 cur') in *.
      assert (grown_block pool1 size mm = grown_block pool size mm) as Hnew.
      { unfold grown_block. by destruct Hgrows1 as (-> & _). }
      destruct (pool_inv_append pool1 (heap e) size mm Hpf Hinv1 eq_refl Hnz)
        as (Hinv2 & Hgrows2 & Halign).
      { by destruct Hgrows1 as (_ & -> & _). }
      rewrite Hnew in Hinv2, Hgrows2. cbn [pool1 set_blocks blocks current] in Hinv2, Hgrows2.
      split; [exact Hinv2|]. split; [by apply (grows_trans pool pool1)|].
      intros _. exists (length bs1), (grown_block pool size mm).
      cbn [set_blocks blocks r_addr r_size r_aligned].
      rewrite list_lookup_middle by done.
      assert (exists j, length bs1 = S j) as [j Hj].
      { exists (length bs1 - 1)%nat. lia. }
      rewrite Hj. unfold grown_block. cbn [d_addr d_last d_end header_size].
      repeat split; try done; try lia.
      * intros b Hb. apply lookup_lt_Some in Hb. unfold bs in *. lia.
      * intros _. apply ngx_align_ptr_mod.
Qed.

(** ** Sequences of small allocations *)

Lemma small_call {pf : platform} (pool : ngx_pool_t) (size : Z) (al : bool) :
  size <= max pool ->
  (if al then ngx_palloc pool size else ngx_pnalloc pool size)
    = ngx_palloc_small pool size al.
Proof.
  intros H. apply Z.leb_le in H.
  destruct al; unfold ngx_palloc, ngx_pnalloc; by rewrite H.
Qed.

Lemma placed_weaken {pf : platform} (p0 p1 p2 : ngx_pool_t) (r : range) :
  grows p0 p1 -> placed p1 p2 r -> placed p0 p2 r.
Proof.
  intros (_ & _ & Hg) (i & b' & Hb' & Hlo & Hhi & Hsz & Hold & Hal).
  exists i, b'. repeat split; try done.
  intros b Hb. destruct (Hg i b Hb) as (b1 & Hb1 & _ & _ & Hl).
  specialize (Hold b1 Hb1). lia.
Qed.

Lemma placed_later {pf : platform} (p0 p1 p2 : ngx_pool_t) (r : range) :
  placed p0 p1 r -> grows p1 p2 -> placed p0 p2 r.
Proof.
  intros (i & b1 & Hb1 & Hlo & Hhi & Hsz & Hold & Hal) (_ & _ & Hg).
  destruct (Hg i b1 Hb1) as (b2 & Hb2 & Ha & He & Hl).
  exists i, b2. repeat split; try done; lia.
Qed.

(** A range handed out earlier and a range handed out later do not
    overlap: in the same block the cursor has moved past the earlier one,
    and two blocks do not overlap. *)
Lemma placed_apart {pf : platform} (p0 p1 p2 : ngx_pool_t) (hs : list Z) (r r' : range) :
  platform_ok ->
  pool_inv p2 hs ->
  placed p0 p1 r -> grows p1 p2 -> placed p1 p2 r' ->
  ranges_apart r r'.
Proof.
  intros Hpf (_ & _ & _ & _ & Hblk & _ & Hapart)
    (i & b1 & Hb1 & Hlo & Hhi & Hsz & _ & _) (_ & _ & Hg)
    (j & b2' & Hb2' & Hlo' & Hhi' & Hsz' & Hold' & _).
  unfold ranges_apart.
  destruct (decide (i = j)) as [<-|Hij].
  - specialize (Hold' b1 Hb1). lia.
  - destruct (Hg i b1 Hb1) as (b2 & Hb2 & Ha & He & Hl).
    destruct (Hblk i b2 Hb2) as (_ & _ & _ & _ & Hend).
    destruct (Hblk j b2' Hb2') as (_ & _ & _ & _ & Hend').
    pose proof (header_size_nonneg i Hpf) as Hi.
    pose proof (header_size_nonneg j Hpf) as Hj.
    destruct (Hapart i j (extent b2) (extent b2') Hij) as [H|H].
    + apply lookup_app_l_Some.
      change (map extent (blocks p2)) with (extent <$> blocks p2).
      by rewrite list_lookup_fmap, Hb2.
    + apply lookup_app_l_Some.
      change (map extent (blocks p2)) with (extent <$> blocks p2).
      by rewrite list_lookup_fmap, Hb2'.
    + simpl in H. lia.
    + simpl in H. lia.
Qed.

Lemma run_allocs_sound {pf : platform} (reqs : list (Z * bool)) :
  forall (pool : ngx_pool_t) (e : env) (rs : list range) (pool' : ngx_pool_t) (e' : env),
  platform_ok ->
  pool_inv pool (heap e) ->
  Forall (fun q => 0 <= q.1 <= max pool) reqs ->
  run_allocs pool reqs e = (rs, pool', e') ->
  pool_inv pool' (heap e') /\
  grows pool pool' /\
  Forall (placed pool pool') rs /\
  (forall (i j : nat) (r1 r2 : range),
     (i < j)%nat -> rs !! i = Some r1 -> rs !! j = Some r2 -> ranges_apart r1 r2).
Proof.
  induction reqs as [|[size al] reqs IH]; intros pool e rs pool' e' Hpf Hinv Hsz Hrun.
  - injection Hrun as <- <- <-.
    split; [done|]. split; [apply grows_refl|]. split; [constructor|].
    intros i j r1 r2 _ Hr1. by rewrite lookup_nil in Hr1.
  - apply Forall_cons in Hsz as [Hsz0 Hsz]. simpl in Hsz0.
    cbn [run_allocs] in Hrun. unfold bind, ret in Hrun.
    rewrite small_call in Hrun by lia.
    destruct (ngx_palloc_small pool size al e) as [[m pool1] e1] eqn:Hfirst.
    destruct (ngx_palloc_small_step pool size al e m pool1 e1 Hpf Hinv Hsz0 Hfirst)
      as (Hinv1 & Hg1 & Hplaced).
    destruct (run_allocs pool1 reqs e1) as [[rs1 pool2] e2] eqn:Hrest.
    injection Hrun as <- <- <-.
    destruct (IH pool1 e1 rs1 pool2 e2 Hpf Hinv1) as (Hinv2 & Hg2 & Hpl2 & Hap2); [|done|].
    { destruct Hg1 as (_ & -> & _). done. }
    split; [done|]. split; [by apply (grows_trans pool pool1)|].
    assert (Forall (placed pool pool2) rs1) as Hpl.
    { eapply Forall_impl; [exact Hpl2|]. intros r. by apply placed_weaken. }
    destruct (Z.eqb_spec m NULL) as [Hm|Hm].
    + split; [done|]. done.
    + specialize (Hplaced Hm). split.
      * constructor; [|done]. by apply (placed_later pool pool1).
      * intros [|i] [|j] r1 r2 Hij Hr1 Hr2; simpl in Hr1, Hr2; try lia.
        -- injection Hr1 as <-.
           apply (placed_apart pool pool1 pool2 (heap e2)
                    {| r_addr := m; r_size := size; r_aligned := al |} r2); try done.
           rewrite Forall_forall in Hpl2. apply Hpl2.
           by apply list_elem_of_lookup_2 with j.
        -- apply (Hap2 i j); [lia|done|done].
Qed.

Lemma ranges_apart_sym (r1 r2 : range) : ranges_apart r1 r2 -> ranges_apart r2 r1.
Proof. unfold ranges_apart. lia. Qed.

(** C1, for well-formed pools: take a pool whose blocks have a size that
    is a multiple of the alignment, on a platform as in [platform_ok], and
    an allocator that hands out aligned regions that overlap nothing in
    use.  Then for every sequence of [ngx_palloc] and [ngx_pnalloc] calls
    with sizes up to [max], the ranges handed out do not overlap one
    another, each lies in the data region of a block of the chain, and
    each one of [ngx_palloc] starts on a multiple of [NGX_ALIGNMENT]. *)
Theorem small_allocations_disjoint_and_aligned {pf : platform}
    (pool : ngx_pool_t) (reqs : list (Z * bool)) (e : env)
    (rs : list range) (pool' : ngx_pool_t) (e' : env) :
  platform_ok ->
  pool_wf pool = true ->
  heap_fresh pool (heap e) = true ->
  Forall (fun q => 0 <= q.1 <= max pool) reqs ->
  run_allocs pool reqs e = (rs, pool', e') ->
  small_allocs_sound pool' rs.
Proof.
  intros Hpf Hwf Hfresh Hsz Hrun.
  pose proof (pool_inv_of_wf pool (heap e) Hwf Hfresh) as Hinv.
  destruct (run_allocs_sound reqs pool e rs pool' e' Hpf Hinv Hsz Hrun)
    as (Hinv' & _ & Hpl & Hap).
  rewrite Forall_forall in Hpl.
  unfold small_allocs_sound. split; [|split].
  - intros i j r1 r2 Hij Hr1 Hr2.
    destruct (decide (i < j)%nat) as [Hlt|Hge].
    + by apply (Hap i j).
    + apply ranges_apart_sym. apply (Hap j i); [lia|done|done].
  - intros r Hr. destruct (Hpl r Hr) as (i & b' & Hb' & Hlo & Hhi & _ & _ & _).
    destruct Hinv' as (_ & _ & _ & _ & Hblk & _).
    destruct (Hblk i b' Hb') as (_ & _ & _ & _ & Hend).
    exists i, b'. repeat split; [done|done|lia].
  - intros r Hr Hal. destruct (Hpl r Hr) as (i & b' & _ & _ & _ & _ & _ & Hmod).
    by apply Hmod.
Qed.

Lemma lp64_ok : @platform_ok lp64.
Proof. unfold platform_ok. simpl. repeat split; lia. Qed.

Example mixed_requests_ranges :
  (@run_allocs lp64 fresh_pool mixed_requests (quiet_env [8192])).1.1
    = [ {| r_addr := 4176; r_size := 900; r_aligned := false |};
        {| r_addr := 8224; r_size := 100; r_aligned := true |};
        {| r_addr := 5076; r_size := 3; r_aligned := false |};
        {| r_addr := 5080; r_size := 8; r_aligned := true |} ].
Proof. reflexivity. Qed.

Lemma fresh_pool_allocations_sound :
  @small_allocs_sound lp64
    (@run_allocs lp64 fresh_pool mixed_requests (quiet_env [8192])).1.2
    (@run_allocs lp64 fresh_pool mixed_requests (quiet_env [8192])).1.1.
Proof.
  apply (@small_allocations_disjoint_and_aligned lp64 fresh_pool mixed_requests
           (quiet_env [8192]) _ _
           (@run_allocs lp64 fresh_pool mixed_requests (quiet_env [8192])).2).
  - exact lp64_ok.
  - reflexivity.
  - reflexivity.
  - repeat constructor; simpl; lia.
  - reflexivity.
Defined.

Example create_odd_pool :
  (@ngx_create_pool lp64 85 NULL (quiet_env [4096])).1 = Some odd_pool.
Proof. reflexivity. Qed.

Example odd_requests_are_small :
  Forall (fun q => 0 <= q.1 <= max odd_pool) odd_requests.
Proof. repeat constructor; simpl; lia. Qed.

Example odd_requests_ranges :
  (@run_allocs lp64 odd_pool odd_requests (quiet_env [])).1
    = ([ {| r_addr := 4176; r_size := 5; r_aligned := false |};
         {| r_addr := 4184; r_size := 1; r_aligned := true |} ],
       set_blocks odd_pool
         [ {| d_addr := 4096; d_last := 4185; d_end := 4181; d_failed := 0 |} ] 0%nat).
Proof. reflexivity. Qed.

(** C1, as the spec words it, fails on the pool [ngx_create_pool(85, log)]
    makes on a 64-bit platform: after five bytes from [ngx_pnalloc] the
    cursor is at the end of the block, which is not aligned;
    [ngx_palloc(pool, 1)] rounds the cursor up past the end, the
    difference [end - m] is negative and its cast to [size_t] is large,
    and the byte handed out lies outside the block. *)
Lemma odd_pool_allocation_outside_block :
  ~ @small_allocs_sound lp64
      (@run_allocs lp64 odd_pool odd_requests (quiet_env [])).1.2
      (@run_allocs lp64 odd_pool odd_requests (quiet_env [])).1.1.
Proof.
  rewrite odd_requests_ranges. cbn [fst snd].
  intros (_ & Hin & _).
  destruct (Hin {| r_addr := 4184; r_size := 1; r_aligned := true |})
    as (i & b & Hb & _ & Hhi).
  { apply elem_of_cons. right. apply elem_of_cons. by left. }
  destruct i as [|i]; simpl in Hb; [|done].
  injection Hb as <-. simpl in Hhi. lia.
Qed.

(** ** Creation *)

(** [ngx_create_pool] with a size that holds the header and is a multiple
    of the alignment makes a well-formed pool of one block. *)
Lemma ngx_create_pool_wf {pf : platform} (size lg : Z) (e : env) (p : Z) :
  platform_ok ->
  0 <= NGX_MAX_ALLOC_FROM_POOL ->
  hd NULL (heap e) = p ->
  0 < p -> p mod NGX_POOL_ALIGNMENT = 0 ->
  sizeof_ngx_pool_t <= size < 2 ^ size_t_bits ->
  size mod NGX_ALIGNMENT = 0 ->
  exists pool,
    ngx_create_pool size lg e
      = (Some pool, log_events (pop_answer e) [ev_memalign NGX_POOL_ALIGNMENT size p]) /\
    pool_wf pool = true /\
    psize pool = size /\
    max pool = Z.min (size - sizeof_ngx_pool_t) NGX_MAX_ALLOC_FROM_POOL /\
    d_addr (root pool) = p /\
    large pool = [] /\ cleanup pool = [].
Proof.
  intros Hpf Hmaxc Hp Hpos Hpmod Hsize Hsmod.
  pose proof Hpf as (Hbits & Ha & Hpa & Hpa_a & Hd0 & Hdp).
  unfold ngx_create_pool, ngx_memalign, bind, next_answer, emit, ret. rewrite Hp.
  destruct (Z.eqb_spec p NULL) as [->|_]; [unfold NULL in Hpos; lia|].
  eexists. split; [reflexivity|].
  assert (to_size_t (size - sizeof_ngx_pool_t) = size - sizeof_ngx_pool_t) as Hto.
  { unfold to_size_t. apply Z.mod_small. lia. }
  rewrite Hto.
  assert (p + size - p = size) as Hpsz by lia.
  split; [|split; [|split; [|done]]].
  - unfold pool_wf, psize, root, block_wf. cbn.
    rewrite Hpsz.
    assert (p mod NGX_ALIGNMENT = 0) as Hpm.
    { by apply (mod_zero_trans p NGX_ALIGNMENT NGX_POOL_ALIGNMENT). }
    repeat (apply andb_true_intro; split); try done.
    + apply Z.leb_le. lia.
    + apply Z.ltb_lt. lia.
    + by apply Z.eqb_eq.
    + apply Z.leb_le. destruct (_ <? _); lia.
    + apply Z.leb_le. destruct (Z.ltb_spec (size - sizeof_ngx_pool_t) NGX_MAX_ALLOC_FROM_POOL); lia.
    + by apply Z.ltb_lt.
    + by apply Z.eqb_eq.
    + apply Z.eqb_eq. lia.
    + apply Z.leb_le. lia.
    + apply Z.leb_le. lia.
  - unfold psize, root. cbn. lia.
  - cbn. destruct (Z.ltb_spec (size - sizeof_ngx_pool_t) NGX_MAX_ALLOC_FROM_POOL); lia.
Qed.

(** ** The large list never holds a payload twice *)

Lemma payloads_distinct_apart (ls : list ngx_pool_large_t) :
  payloads_distinct ls = true <-> payloads_apart ls.
Proof.
  induction ls as [|l ls IH]; split.
  - intros _ i j x y _ Hx. by rewrite lookup_nil in Hx.
  - done.
  - intros H. pose proof H as Hd. simpl in H. apply andb_true_iff in H as [_ Hrest].
    apply IH in Hrest.
    intros [|i] [|j] x y Hij Hx Hy Hnz; simpl in Hx, Hy; [done| | |].
    + injection Hx as <-.
      pose proof (payloads_distinct_head l ls Hd Hnz) as Hall.
      rewrite Forall_forall in Hall. intros Heq. symmetry in Heq. revert Heq.
      by apply Hall, list_elem_of_lookup_2 with j.
    + injection Hy as <-.
      destruct (Z.eq_dec (alloc l) NULL) as [Hy0|Hy0]; [congruence|].
      pose proof (payloads_distinct_head l ls Hd Hy0) as Hall.
      rewrite Forall_forall in Hall.
      by apply Hall, list_elem_of_lookup_2 with i.
    + apply (Hrest i j); [lia|done|done|done].
  - intros H. simpl. apply andb_true_intro. split.
    + destruct (Z.eqb_spec (alloc l) NULL) as [|Hnz]; [done|]. simpl.
      apply forallb_forall. intros x Hx.
      apply list_elem_of_In, list_elem_of_lookup_1 in Hx as [j Hj].
      apply negb_true_iff, Z.eqb_neq. intros Heq.
      by apply (H 0%nat (S j) l x).
    + apply IH. intros i j x y Hij Hx Hy. apply (H (S i) (S j)); [lia|done|done].
Qed.

(** Writing a payload into a node keeps the list free of duplicates when
    the payload is NULL or held by no node. *)
Lemma payloads_apart_insert (ls : list ngx_pool_large_t) (k : nat)
    (l : ngx_pool_large_t) (v : Z) :
  payloads_apart ls ->
  (v = NULL \/ Forall (fun x => alloc x <> v) ls) ->
  payloads_apart (<[k := set_alloc l v]> ls).
Proof.
  intros H Hv i j x y Hij Hx Hy Hnz.
  destruct (decide (k = i)) as [Hki|Hki], (decide (k = j)) as [Hkj|Hkj];
    [congruence| subst i | subst j |].
  - apply list_lookup_insert_Some in Hx as [(_ & <- & _)|[? _]]; [|done].
    rewrite list_lookup_insert_ne in Hy by done. simpl in *.
    destruct Hv as [->|Hv]; [done|].
    rewrite Forall_forall in Hv. intros Heq. symmetry in Heq. revert Heq.
    by apply Hv, list_elem_of_lookup_2 with j.
  - apply list_lookup_insert_Some in Hy as [(_ & <- & _)|[? _]]; [|done].
    rewrite list_lookup_insert_ne in Hx by done. simpl in *.
    destruct Hv as [->|Hv]; [done|].
    rewrite Forall_forall in Hv.
    by apply Hv, list_elem_of_lookup_2 with i.
  - rewrite list_lookup_insert_ne in Hx, Hy by done. by apply (H i j).
Qed.

Lemma payloads_apart_cons (ls : list ngx_pool_large_t) (l : ngx_pool_large_t) :
  payloads_apart ls ->
  Forall (fun x => alloc x <> alloc l) ls ->
  payloads_apart (l :: ls).
Proof.
  intros H Hl. rewrite Forall_forall in Hl.
  intros [|i] [|j] x y Hij Hx Hy Hnz; simpl in Hx, Hy; [done| | |].
  - injection Hx as <-. intros Heq. symmetry in Heq. revert Heq.
    by apply Hl, list_elem_of_lookup_2 with j.
  - injection Hy as <-. by apply Hl, list_elem_of_lookup_2 with i.
  - apply (H i j); [lia|done|done|done].
Qed.

Lemma large_scan_some (ls : list ngx_pool_large_t) (n p : Z) (ls' : list ngx_pool_large_t) :
  large_scan ls n p = Some ls' ->
  exists (k : nat) (l : ngx_pool_large_t),
    ls !! k = Some l /\ alloc l = NULL /\ ls' = <[k := set_alloc l p]> ls.
Proof.
  revert n ls'. induction ls as [|x ls IH]; intros n ls'; [done|].
  cbn [large_scan]. destruct (Z.eqb_spec (alloc x) NULL) as [Hx|Hx].
  - intros [= <-]. by exists 0%nat, x.
  - destruct (n >? 3); [done|].
    destruct (large_scan ls (n + 1) p) as [rest|] eqn:Hscan; [|done].
    intros [= <-]. destruct (IH _ _ Hscan) as (k & l & Hl & Hnull & ->).
    by exists (S k), l.
Qed.

Lemma pfree_scan_some (ls : list ngx_pool_large_t) (p : Z) (ls' : list ngx_pool_large_t) :
  pfree_scan ls p = Some ls' ->
  exists (k : nat) (l : ngx_pool_large_t),
    ls !! k = Some l /\ alloc l = p /\ ls' = <[k := set_alloc l NULL]> ls.
Proof.
  revert ls'. induction ls as [|x ls IH]; intros ls'; [done|].
  cbn [pfree_scan]. destruct (Z.eqb_spec p (alloc x)) as [Hx|Hx].
  - intros [= <-]. by exists 0%nat, x.
  - destruct (pfree_scan ls p) as [rest|] eqn:Hscan; [|done].
    intros [= <-]. destruct (IH _ eq_refl) as (k & l & Hl & Hp & ->).
    by exists (S k), l.
Qed.

(** The large list stays free of duplicates: [ngx_pfree] only empties a
    node, and [ngx_palloc_large] stores a payload that, by the allocator's
    contract, no node holds. *)
Lemma large_list_stays_distinct {pf : platform} (pool : ngx_pool_t) (x : Z) (e : env) :
  payloads_distinct (large pool) = true ->
  payloads_distinct (large (ngx_pfree pool x e).1.2) = true /\
  (Forall (fun l => alloc l <> hd NULL (heap e)) (large pool) ->
   payloads_distinct (large (ngx_palloc_large pool x e).1.2) = true) /\
  payloads_distinct (large (ngx_reset_pool pool e).1) = true.
Proof.
  intros Hd. pose proof Hd as Ha. apply payloads_distinct_apart in Ha.
  split; [|split].
  - unfold ngx_pfree. destruct (pfree_scan (large pool) x) as [ls|] eqn:Hscan; [|done].
    destruct (pfree_scan_some _ _ _ Hscan) as (k & l & _ & _ & ->).
    unfold ngx_free, emit, bind, ret. cbn [fst snd set_large large].
    apply payloads_distinct_apart, payloads_apart_insert; [done|by left].
  - intros Hfresh.
    unfold ngx_palloc_large, ngx_alloc, bind, next_answer, emit, ret.
    destruct (Z.eqb_spec (hd NULL (heap e)) NULL) as [|Hnz]; [done|].
    destruct (large_scan (large pool) 0 (hd NULL (heap e))) as [ls|] eqn:Hscan.
    + destruct (large_scan_some _ _ _ _ Hscan) as (k & l & _ & _ & ->).
      cbn [fst snd set_large large].
      apply payloads_distinct_apart, payloads_apart_insert; [done|by right].
    + match goal with |- context [ngx_palloc_small ?p ?s ?a ?e'] =>
        pose proof (ngx_palloc_small_frame p s a e') as [_ Hl];
        destruct (ngx_palloc_small p s a e') as [[lg pool1] e1] end.
      simpl in Hl. unfold ngx_free, emit.
      destruct (lg =? NULL); cbn [fst snd set_large large]; rewrite Hl; [done|].
      by apply payloads_distinct_apart, payloads_apart_cons.
  - by rewrite ngx_reset_pool_spec.
Qed.

(** ** Requests above the threshold *)

(** A request above [max] goes to the large allocator; what it returns,
    if not NULL, is the allocator's answer and is the payload of a node of
    the large list, and no block of the chain has changed. *)
Lemma ngx_palloc_above_max_is_large {pf : platform} (pool : ngx_pool_t) (size : Z) (e : env) :
  max pool < size ->
  ngx_palloc pool size e = ngx_palloc_large pool size e /\
  ngx_pnalloc pool size e = ngx_palloc_large pool size e /\
  ((ngx_palloc_large pool size e).1.1 <> NULL ->
   (ngx_palloc_large pool size e).1.1 = hd NULL (heap e) /\
   exists l, l ∈ large (ngx_palloc_large pool size e).1.2 /\
     alloc l = (ngx_palloc_large pool size e).1.1).
Proof.
  intros Hsz. apply Z.leb_gt in Hsz.
  split; [unfold ngx_palloc; by rewrite Hsz|].
  split; [unfold ngx_pnalloc; by rewrite Hsz|].
  unfold ngx_palloc_large, ngx_alloc, bind, next_answer, emit, ret.
  destruct (Z.eqb_spec (hd NULL (heap e)) NULL) as [|Hnz]; [done|].
  destruct (large_scan (large pool) 0 (hd NULL (heap e))) as [ls|] eqn:Hscan.
  - intros _. split; [done|].
    destruct (large_scan_some _ _ _ _ Hscan) as (k & l & Hl & _ & ->).
    exists (set_alloc l (hd NULL (heap e))). split; [|done].
    cbn [fst snd set_large large].
    apply list_elem_of_lookup_2 with k.
    apply list_lookup_insert_eq. by apply lookup_lt_Some in Hl.
  - match goal with |- context [ngx_palloc_small ?p ?s ?a ?e'] =>
      destruct (ngx_palloc_small p s a e') as [[lg pool1] e1] end.
    unfold ngx_free, emit.
    destruct (lg =? NULL); cbn [fst snd set_large large]; [done|].
    intros _. split; [done|]. eexists. split; [by left|done].
Qed.

(** ** Instances *)

Lemma large_pool_stays_distinct :
  payloads_distinct (large (ngx_pfree large_pool 20000 (quiet_env [])).1.2) = true /\
  (Forall (fun l => alloc l <> hd NULL (heap (quiet_env [])))%Z (large large_pool) ->
   payloads_distinct (large (@ngx_palloc_large lp64 large_pool 20000 (quiet_env [])).1.2)
     = true) /\
  payloads_distinct (large (@ngx_reset_pool lp64 large_pool (quiet_env [])).1) = true.
Proof.
  apply (@large_list_stays_distinct lp64 large_pool 20000 (quiet_env [])). reflexivity.
Defined.

Lemma create_1024_is_well_formed :
  exists pool,
    @ngx_create_pool lp64 1024 NULL (quiet_env [4096])
      = (Some pool,
         log_events (pop_answer (quiet_env [4096])) [ev_memalign 16 1024 4096]) /\
    @pool_wf lp64 pool = true /\
    psize pool = 1024 /\
    max pool = Z.min (1024 - 80) 4095 /\
    d_addr (root pool) = 4096 /\
    large pool = [] /\ cleanup pool = [].
Proof.
  apply (@ngx_create_pool_wf lp64 1024 NULL (quiet_env [4096]) 4096);
    try reflexivity; try exact lp64_ok; simpl; lia.
Defined.

Lemma sixth_node_is_not_inspected :
  large_scan
    ([ {| l_addr := 4240; alloc := 50000 |}; {| l_addr := 4224; alloc := 40000 |};
       {| l_addr := 4208; alloc := 30000 |}; {| l_addr := 4192; alloc := 20000 |};
       {| l_addr := 4176; alloc := 10000 |} ] ++ [ {| l_addr := 4160; alloc := NULL |} ])
    0 60000 = None.
Proof.
  apply large_scan_gives_up; [|discriminate|simpl; lia].
  repeat constructor; discriminate.
Defined.

Lemma fresh_pool_large_request :
  (@ngx_palloc_large lp64 fresh_pool 5000 (quiet_env [20000])).1.1 = hd NULL (heap (quiet_env [20000])) /\
  exists l, l ∈ large (@ngx_palloc_large lp64 fresh_pool 5000 (quiet_env [20000])).1.2 /\
    alloc l = (@ngx_palloc_large lp64 fresh_pool 5000 (quiet_env [20000])).1.1.
Proof.
  destruct (@ngx_palloc_above_max_is_large lp64 fresh_pool 5000 (quiet_env [20000]))
    as (_ & _ & H); [simpl; lia|].
  apply H. discriminate.
Defined.

(** ** Well-formedness, from the invariant back to the tests *)

Lemma all_apart_complete (xs : list (Z * Z)) : apart_list xs -> all_apart xs = true.
Proof.
  induction xs as [|x xs IH]; intros H; [done|].
  simpl. apply andb_true_intro. split.
  - apply forallb_forall. intros y Hy.
    apply list_elem_of_In, list_elem_of_lookup_1 in Hy as [j Hj].
    unfold extent_apart. apply orb_true_iff.
    destruct (H 0%nat (S j) x y) as [Hxy|Hxy]; [done|done|done| |].
    + left. by apply Z.leb_le.
    + right. by apply Z.leb_le.
  - apply IH. intros i j a b Hij Ha Hb. apply (H (S i) (S j)); [lia|done|done].
Qed.

Lemma apart_list_app_l (xs ys : list (Z * Z)) : apart_list (xs ++ ys) -> apart_list xs.
Proof.
  intros H i j a b Hij Ha Hb.
  apply (H i j); [done| |]; by apply lookup_app_l_Some.
Qed.

Lemma all_apart_delete (xs ys : list (Z * Z)) (x : Z * Z) :
  all_apart (xs ++ x :: ys) = true -> all_apart (xs ++ ys) = true.
Proof.
  induction xs as [|a xs IH]; simpl.
  - intros H. by apply andb_true_iff in H as [_ H].
  - intros H. apply andb_true_iff in H as [Ha H].
    apply andb_true_intro. split; [|by apply IH].
    rewrite forallb_app in Ha |- *. simpl in Ha.
    apply andb_true_iff in Ha as [Ha1 Ha2]. apply andb_true_iff in Ha2 as [_ Ha2].
    by rewrite Ha1, Ha2.
Qed.

Lemma block_ok_wf {pf : platform} (psz hdr : Z) (b : ngx_pool_data_t) :
  block_ok psz hdr b -> block_wf psz hdr b = true.
Proof.
  intros (H1 & H2 & H3 & H4 & H5). unfold block_wf.
  rewrite !andb_true_iff. split_and!.
  - by apply Z.ltb_lt.
  - by apply Z.eqb_eq.
  - by apply Z.eqb_eq.
  - by apply Z.leb_le.
  - by apply Z.leb_le.
Qed.

Lemma pool_wf_of_inv {pf : platform} (pool : ngx_pool_t) (hs : list Z) :
  pool_inv pool hs -> pool_wf pool = true /\ heap_fresh pool hs = true.
Proof.
  intros (Hps & Hmod & Hmax & Hcur & Hblk & Hans & Hapart).
  unfold pool_wf, heap_fresh.
  destruct (blocks pool) as [|r rest] eqn:Hbs; [simpl in Hcur; lia|].
  split.
  - rewrite !andb_true_iff. split_and!.
    + apply Z.leb_le. lia.
    + apply Z.ltb_lt. lia.
    + by apply Z.eqb_eq.
    + apply Z.leb_le. lia.
    + apply Z.leb_le. lia.
    + by apply Nat.ltb_lt.
    + apply block_ok_wf. by apply (Hblk 0%nat).
    + apply forallb_forall. intros x Hx.
      apply list_elem_of_In, list_elem_of_lookup_1 in Hx as [i Hi].
      apply block_ok_wf. by apply (Hblk (S i)).
    + apply all_apart_complete. by apply apart_list_app_l in Hapart.
  - rewrite andb_true_iff. split.
    + apply forallb_forall. intros a Ha. apply list_elem_of_In in Ha.
      destruct (Z.eqb_spec a NULL) as [|Hnz]; [done|]. simpl.
      destruct (Hans a Ha Hnz) as [H1 H2].
      apply andb_true_intro. split; [by apply Z.ltb_lt|by apply Z.eqb_eq].
    + by apply all_apart_complete.
Qed.

Lemma pool_inv_set_large {pf : platform} (pool : ngx_pool_t) (hs : list Z)
    (ls : list ngx_pool_large_t) :
  pool_inv pool hs -> pool_inv (set_large pool ls) hs.
Proof. done. Qed.

Lemma pool_inv_tl {pf : platform} (pool : ngx_pool_t) (hs : list Z) :
  pool_inv pool hs -> pool_inv pool (tl hs).
Proof.
  intros (Hps & Hmod & Hmax & Hcur & Hblk & Hans & Hapart).
  unfold pool_inv. repeat (split; [done|]). split.
  - intros a Ha. apply Hans. by apply tl_subset.
  - destruct hs as [|a hs]; [done|]. simpl in *.
    destruct (a =? NULL); [done|].
    apply all_apart_sound. apply all_apart_complete in Hapart.
    by apply all_apart_delete in Hapart.
Qed.

(** ** Every allocation keeps the pool well formed *)

Lemma grows_set_large (pool : ngx_pool_t) (ls : list ngx_pool_large_t) :
  grows pool (set_large pool ls).
Proof. exact (grows_refl pool). Qed.

Lemma link_large_inv {pf : platform} (pool : ngx_pool_t) (p : Z) (e : env)
    (m : Z) (pool' : ngx_pool_t) (e' : env) :
  platform_ok ->
  pool_inv pool (heap e) ->
  0 <= sizeof_ngx_pool_large_t <= max pool ->
  (let* (lg, pool1) := ngx_palloc_small pool sizeof_ngx_pool_large_t true in
   if lg =? NULL then ngx_free p ;;; ret (NULL, pool1)
   else ret (p, set_large pool1 ({| l_addr := lg; alloc := p |} :: large pool1))) e
    = (m, pool', e') ->
  pool_inv pool' (heap e') /\ grows pool pool'.
Proof.
  intros Hpf Hinv Hsz. unfold bind.
  destruct (ngx_palloc_small pool sizeof_ngx_pool_large_t true e) as [[lg pool1] e1] eqn:Hs.
  destruct (ngx_palloc_small_step _ _ _ _ _ _ _ Hpf Hinv Hsz Hs) as (Hinv1 & Hg & _).
  destruct (lg =? NULL); unfold ngx_free, emit, ret; simpl; intros H; simplify_eq;
    (split; [exact Hinv1|exact Hg]).
Qed.

Lemma ngx_palloc_large_inv {pf : platform} (pool : ngx_pool_t) (size : Z) (e : env) :
  platform_ok ->
  pool_inv pool (heap e) ->
  0 <= sizeof_ngx_pool_large_t <= max pool ->
  pool_inv (ngx_palloc_large pool size e).1.2 (heap (ngx_palloc_large pool size e).2) /\
  grows pool (ngx_palloc_large pool size e).1.2.
Proof.
  intros Hpf Hinv Hsz.
  apply pool_inv_tl in Hinv.
  destruct (ngx_palloc_large pool size e) as [[m pool'] e'] eqn:H.
  unfold ngx_palloc_large, ngx_alloc, bind, next_answer, emit, ret in H.
  cbn [fst snd] in H.
  destruct (hd NULL (heap e) =? NULL).
  { simplify_eq. split; [exact Hinv|apply grows_refl]. }
  destruct (large_scan (large pool) 0 (hd NULL (heap e))) as [ls|].
  { simplify_eq. split; [exact Hinv|apply grows_set_large]. }
  exact (link_large_inv pool (hd NULL (heap e))
           (log_events (pop_answer e) [ev_alloc size (hd NULL (heap e))])
           m pool' e' Hpf Hinv Hsz H).
Qed.

Lemma ngx_pmemalign_inv {pf : platform} (pool : ngx_pool_t) (size alignment : Z) (e : env) :
  platform_ok ->
  pool_inv pool (heap e) ->
  0 <= sizeof_ngx_pool_large_t <= max pool ->
  pool_inv (ngx_pmemalign pool size alignment e).1.2
    (heap (ngx_pmemalign pool size alignment e).2) /\
  grows pool (ngx_pmemalign pool size alignment e).1.2.
Proof.
  intros Hpf Hinv Hsz.
  apply pool_inv_tl in Hinv.
  destruct (ngx_pmemalign pool size alignment e) as [[m pool'] e'] eqn:H.
  unfold ngx_pmemalign, ngx_memalign, bind, next_answer, emit, ret in H.
  cbn [fst snd] in H.
  destruct (hd NULL (heap e) =? NULL).
  { simplify_eq. split; [exact Hinv|apply grows_refl]. }
  exact (link_large_inv pool (hd NULL (heap e))
           (log_events (pop_answer e) [ev_memalign alignment size (hd NULL (heap e))])
           m pool' e' Hpf Hinv Hsz H).
Qed.

Lemma allocation_inv {pf : platform} (pool : ngx_pool_t) (size : Z) (al : bool) (e : env) :
  platform_ok ->
  pool_inv pool (heap e) ->
  0 <= size ->
  0 <= sizeof_ngx_pool_large_t <= max pool ->
  let r := (if al then ngx_palloc pool size else ngx_pnalloc pool size) e in
  pool_inv r.1.2 (heap r.2) /\ grows pool r.1.2.
Proof.
  intros Hpf Hinv Hsz Hlg.
  destruct (Z.leb_spec size (max pool)) as [Hle|Hgt].
  - rewrite (small_call pool size al Hle). simpl.
    destruct (ngx_palloc_small pool size al e) as [[m pool1] e1] eqn:Hs.
    destruct (ngx_palloc_small_step _ _ _ _ _ _ _ Hpf Hinv (conj Hsz Hle) Hs) as (H1 & H2 & _).
    by split.
  - assert ((if al then ngx_palloc pool size else ngx_pnalloc pool size)
            = ngx_palloc_large pool size) as ->.
    { unfold ngx_palloc, ngx_pnalloc.
      destruct (Z.leb_spec size (max pool)); [lia|]. by destruct al. }
    by apply ngx_palloc_large_inv.
Qed.

(** X5.  [ngx_palloc] and [ngx_pnalloc] keep a pool well formed, whatever
    the size asked for and whether the request is served from a block, by
    a new block or by the large path: the blocks that were there stay
    where they are with cursors that have not moved back, every block is
    of the size of the root block, no two blocks overlap, [current] is a
    block of the chain, and the answers the allocator has yet to give are
    still apart from all blocks.  The large path needs room for its list
    node: [sizeof(ngx_pool_large_t) <= max]. *)
Theorem allocation_keeps_pool_well_formed {pf : platform}
    (pool : ngx_pool_t) (size : Z) (al : bool) (e : env) :
  platform_ok ->
  pool_wf pool = true ->
  heap_fresh pool (heap e) = true ->
  0 <= size ->
  0 <= sizeof_ngx_pool_large_t <= max pool ->
  let r := (if al then ngx_palloc pool size else ngx_pnalloc pool size) e in
  pool_wf r.1.2 = true /\
  heap_fresh r.1.2 (heap r.2) = true /\
  grows pool r.1.2.
Proof.
  intros Hpf Hwf Hfresh Hsz Hlg r.
  destruct (allocation_inv pool size al e Hpf (pool_inv_of_wf _ _ Hwf Hfresh) Hsz Hlg)
    as [Hinv Hg].
  destruct (pool_wf_of_inv _ _ Hinv) as [H1 H2]. done.
Qed.

Lemma large_request_keeps_fresh_pool_well_formed :
  let r := @ngx_palloc lp64 fresh_pool 2000 (quiet_env [30000]) in
  @pool_wf lp64 r.1.2 = true /\
  @heap_fresh lp64 r.1.2 (heap r.2) = true /\
  grows fresh_pool r.1.2.
Proof.
  apply (@allocation_keeps_pool_well_formed lp64 fresh_pool 2000 true (quiet_env [30000]));
    [exact lp64_ok|reflexivity|reflexivity|lia|simpl; lia].
Defined.

(** ** Reset, and the first allocation of a fresh pool *)

Lemma ngx_reset_pool_inv {pf : platform} (pool : ngx_pool_t) (hs : list Z) (e : env) :
  platform_ok ->
  pool_inv pool hs ->
  pool_inv (ngx_reset_pool pool e).1 hs /\
  psize (ngx_reset_pool pool e).1 = psize pool /\
  map extent (blocks (ngx_reset_pool pool e).1) = map extent (blocks pool).
Proof.
  intros (_ & Ha & _ & _ & Hd & Hp) (Hps & Hmod & Hmax & Hcur & Hblk & Hans & Hapart).
  rewrite ngx_reset_pool_spec. cbn [fst].
  assert (psize {| blocks := map reset_block (blocks pool); max := max pool;
                   current := 0%nat; chain := NULL; large := [];
                   cleanup := cleanup pool; log := log pool |} = psize pool) as Hsame.
  { unfold psize, root. cbn [blocks]. by destruct (blocks pool). }
  assert (map extent (map reset_block (blocks pool)) = map extent (blocks pool)) as Hext.
  { rewrite map_map. by apply map_ext. }
  split; [|by split].
  unfold pool_inv. rewrite Hsame. cbn [blocks max current]. rewrite Hext.
  split; [done|]. split; [done|]. split; [done|].
  split; [rewrite length_map; lia|]. split; [|by split].
  intros i b' Hb'. rewrite list_lookup_fmap in Hb'.
  destruct (blocks pool !! i) as [b|] eqn:Hb; [|done].
  injection Hb' as <-.
  destruct (Hblk i b Hb) as (H1 & H2 & H3 & H4 & H5).
  unfold block_ok, reset_block. cbn [d_addr d_last d_end].
  split; [done|]. split; [done|]. split; [done|].
  assert (header_size i <= sizeof_ngx_pool_t) as Hh.
  { destruct i; simpl; lia. }
  split; lia.
Qed.

Lemma pool_wf_alone {pf : platform} (pool : ngx_pool_t) :
  pool_wf pool = true -> heap_fresh pool [] = true.
Proof.
  unfold pool_wf, heap_fresh. destruct (blocks pool) as [|r rest]; [done|].
  intros H. apply andb_true_iff in H as [_ H]. simpl answer_extents.
  by rewrite app_nil_r.
Qed.

Lemma ngx_align_ptr_aligned (p a : Z) : 0 < a -> p mod a = 0 -> ngx_align_ptr p a = p.
Proof.
  intros Ha Hp.
  pose proof (ngx_align_ptr_ge p a Ha).
  pose proof (ngx_align_ptr_le_aligned p p a Ha (Z.le_refl p) Hp). lia.
Qed.

Lemma first_allocation_at_data {pf : platform} (pool : ngx_pool_t) (size : Z) (al : bool)
    (e : env) :
  platform_ok ->
  pool_wf pool = true ->
  current pool = 0%nat ->
  d_last (root pool) = d_addr (root pool) + sizeof_ngx_pool_t ->
  (al = true -> sizeof_ngx_pool_t mod NGX_ALIGNMENT = 0) ->
  0 <= size <= max pool ->
  (if al then ngx_palloc pool size else ngx_pnalloc pool size) e
    = (d_addr (root pool) + sizeof_ngx_pool_t,
       set_blocks pool
         (set_last (root pool) (d_addr (root pool) + sizeof_ngx_pool_t + size)
            :: tl (blocks pool)) 0,
       e).
Proof.
  intros Hpf Hwf Hcur Hlast Hal Hsz.
  destruct (pool_inv_of_wf pool [] Hwf (pool_wf_alone pool Hwf))
    as (Hps & Hmod & Hmax & Hlen & Hblk & _ & _).
  destruct Hpf as (Hbits & Ha & _ & _ & Hd & Hp).
  rewrite (small_call pool size al (proj2 Hsz)).
  unfold ngx_palloc_small. rewrite Hcur. simpl drop. simpl take.
  unfold root in Hlast. unfold psize, root in Hps, Hmax. unfold root.
  destruct (blocks pool) as [|r rest] eqn:Hbs; [simpl in Hlen; lia|].
  destruct (Hblk 0%nat r eq_refl) as (H1 & H2 & H3 & H4 & H5).
  simpl in Hlast, Hps, Hmax |- *.
  assert ((if al then ngx_align_ptr (d_last r) NGX_ALIGNMENT else d_last r)
          = d_addr r + sizeof_ngx_pool_t) as ->.
  { destruct al; [|done]. rewrite Hlast.
    apply ngx_align_ptr_aligned; [done|]. apply mod_zero_add; auto. }
  assert (to_size_t (d_end r - (d_addr r + sizeof_ngx_pool_t))
          = d_end r - (d_addr r + sizeof_ngx_pool_t)) as ->.
  { unfold to_size_t. apply Z.mod_small. lia. }
  destruct (Z.leb_spec size (d_end r - (d_addr r + sizeof_ngx_pool_t))) as [|Hno]; [|lia].
  done.
Qed.

(** X7.  [ngx_reset_pool] keeps a well-formed pool well formed: the blocks
    stay where they are, of the size they had, and the answers the
    allocator has yet to give stay apart from them.  The pool it leaves is
    ready for use as a new one is: [current] is the root block and the
    cursor of the root block is at the end of the [ngx_pool_t] header.  A
    second reset right after changes nothing and releases nothing. *)
Theorem ngx_reset_pool_keeps_well_formed {pf : platform} (pool : ngx_pool_t) (e : env) :
  platform_ok ->
  pool_wf pool = true ->
  let pool' := (ngx_reset_pool pool e).1 in
  let e' := (ngx_reset_pool pool e).2 in
  pool_wf pool' = true /\
  (heap_fresh pool (heap e) = true -> heap_fresh pool' (heap e') = true) /\
  psize pool' = psize pool /\
  map extent (blocks pool') = map extent (blocks pool) /\
  current pool' = 0%nat /\
  d_last (root pool') = d_addr (root pool') + sizeof_ngx_pool_t /\
  ngx_reset_pool pool' e' = (pool', e').
Proof.
  intros Hpf Hwf pool' e'.
  pose proof (pool_inv_of_wf pool [] Hwf (pool_wf_alone pool Hwf)) as Hinv.
  destruct (ngx_reset_pool_inv pool [] e Hpf Hinv) as (Hinv' & Hps & Hext).
  split; [by apply (pool_wf_of_inv _ [])|].
  split.
  { intros Hfresh.
    destruct (ngx_reset_pool_inv pool (heap e) e Hpf (pool_inv_of_wf _ _ Hwf Hfresh))
      as (Hi & _ & _).
    apply (pool_wf_of_inv _ _) in Hi as [_ Hi].
    unfold e'. by rewrite ngx_reset_pool_spec. }
  split; [done|]. split; [done|].
  unfold pool', e'. rewrite !ngx_reset_pool_spec. cbn [fst snd].
  split; [done|]. split.
  { unfold root. cbn [blocks].
    destruct (blocks pool) as [|r rest] eqn:Hbs; [|done].
    unfold pool_wf in Hwf. by rewrite Hbs in Hwf. }
  cbn [blocks max cleanup log large large_frees].
  rewrite log_events_nil. f_equal. f_equal.
  rewrite map_map. by apply map_ext.
Qed.

Lemma two_block_pool_reset_is_well_formed :
  let pool' := (@ngx_reset_pool lp64 two_block_pool (quiet_env [12288])).1 in
  let e' := (@ngx_reset_pool lp64 two_block_pool (quiet_env [12288])).2 in
  @pool_wf lp64 pool' = true /\
  (@heap_fresh lp64 two_block_pool [12288] = true -> @heap_fresh lp64 pool' (heap e') = true) /\
  psize pool' = psize two_block_pool /\
  map extent (blocks pool') = map extent (blocks two_block_pool) /\
  current pool' = 0%nat /\
  d_last (root pool') = d_addr (root pool') + 80 /\
  @ngx_reset_pool lp64 pool' e' = (pool', e').
Proof.
  apply (@ngx_reset_pool_keeps_well_formed lp64 two_block_pool (quiet_env [12288]));
    [exact lp64_ok|reflexivity].
Defined.

(** X8.  In a well-formed pool whose [current] is the root block and whose
    root cursor is at the end of the [ngx_pool_t] header, as
    [ngx_create_pool] and [ngx_reset_pool] leave it, a request of at most
    [max] bytes is served from the root block, at the first byte after the
    header, without a call of the underlying allocator: [max] never
    exceeds the room of a block.  For [ngx_palloc] this takes a header
    whose size is a multiple of [NGX_ALIGNMENT]. *)
Theorem first_allocation_is_served_by_root {pf : platform}
    (pool : ngx_pool_t) (size : Z) (al : bool) (e : env) :
  platform_ok ->
  pool_wf pool = true ->
  current pool = 0%nat ->
  d_last (root pool) = d_addr (root pool) + sizeof_ngx_pool_t ->
  (al = true -> sizeof_ngx_pool_t mod NGX_ALIGNMENT = 0) ->
  0 <= size <= max pool ->
  let r := (if al then ngx_palloc pool size else ngx_pnalloc pool size) e in
  r.1.1 = d_addr (root pool) + sizeof_ngx_pool_t /\
  r.2 = e /\
  length (blocks r.1.2) = length (blocks pool) /\
  d_last (root r.1.2) = d_addr (root pool) + sizeof_ngx_pool_t + size /\
  tl (blocks r.1.2) = tl (blocks pool) /\
  current r.1.2 = 0%nat.
Proof.
  intros Hpf Hwf Hcur Hlast Hal Hsz r. unfold r.
  rewrite (first_allocation_at_data pool size al e Hpf Hwf Hcur Hlast Hal Hsz).
  cbn [fst snd set_blocks blocks current]. split_and!; try done.
  unfold pool_wf in Hwf. by destruct (blocks pool).
Qed.

Lemma fresh_pool_serves_max_bytes :
  let r := @ngx_palloc lp64 fresh_pool 944 (quiet_env []) in
  r.1.1 = d_addr (root fresh_pool) + 80 /\
  r.2 = quiet_env [] /\
  length (blocks r.1.2) = length (blocks fresh_pool) /\
  d_last (root r.1.2) = d_addr (root fresh_pool) + 80 + 944 /\
  tl (blocks r.1.2) = tl (blocks fresh_pool) /\
  current r.1.2 = 0%nat.
Proof.
  apply (@first_allocation_is_served_by_root lp64 fresh_pool 944 true (quiet_env []));
    [exact lp64_ok|reflexivity|reflexivity|reflexivity|reflexivity|simpl; lia].
Defined.

(** ** The [failed] counters *)

Lemma failed_inv_same_counters (pool : ngx_pool_t) (bs' : list ngx_pool_data_t) :
  failed_inv pool ->
  length bs' = length (blocks pool) ->
  (forall i b', bs' !! i = Some b' ->
     exists b, blocks pool !! i = Some b /\ d_failed b' = d_failed b) ->
  failed_inv (set_blocks pool bs' (current pool)).
Proof.
  intros (Hc & H1 & H2 & H3 & H4) Hlen Hsame.
  unfold failed_inv. cbn [set_blocks blocks current].
  split; [lia|]. split; [|split; [|split]].
  - intros i b' Hi Hb'. destruct (Hsame i b' Hb') as (b & Hb & ->). by apply (H1 i).
  - intros i b' Hi Hb'. destruct (Hsame i b' Hb') as (b & Hb & ->). by apply (H2 i).
  - intros i j b' c' Hi Hij Hb' Hc'.
    destruct (Hsame i b' Hb') as (b & Hb & ->).
    destruct (Hsame j c' Hc') as (c & Hc0 & ->). by apply (H3 i j).
  - intros b' Hb'. rewrite last_lookup in Hb'.
    destruct (Hsame _ b' Hb') as (b & Hb & ->).
    apply H4. rewrite last_lookup. by rewrite <- Hlen.
Qed.

Lemma uint_incr_small {pf : platform} (v : Z) :
  6 < 2 ^ size_t_bits -> 0 <= v <= 5 -> uint_incr v = v + 1.
Proof. intros Hb Hv. unfold uint_incr. apply Z.mod_small. lia. Qed.

Lemma ngx_palloc_block_failed_inv {pf : platform} (pool : ngx_pool_t) (size : Z) (e : env) :
  6 < 2 ^ size_t_bits ->
  failed_inv pool ->
  failed_inv (ngx_palloc_block pool size e).1.2.
Proof.
  intros Hbits Hinv.
  destruct (Z.eq_dec (hd NULL (heap e)) NULL) as [Hnull|Hm].
  { by rewrite (ngx_palloc_block_fails pool size e Hnull). }
  destruct Hinv as (Hc & H1 & H2 & H3 & H4).
  destruct (ngx_palloc_block_grows pool size e _ eq_refl Hm Hc)
    as (bs' & cur' & -> & Hlen & G1 & G2 & G3 & G4 & G5 & G6).
  cbn [fst snd].
  set (g := grown_block pool size (hd NULL (heap e))).
  assert (forall i x, (bs' ++ [g]) !! i = Some x ->
            ((i < current pool)%nat /\ blocks pool !! i = Some x) \/
            ((current pool <= i)%nat /\ (S i < length (blocks pool))%nat /\
             exists b, blocks pool !! i = Some b /\
               x = set_failed b (uint_incr (d_failed b))) \/
            (S i = length (blocks pool) /\ blocks pool !! i = Some x) \/
            (i = length (blocks pool) /\ x = g)) as Hzone.
  { intros i x Hx.
    destruct (decide (i < length bs')%nat) as [Hlt|Hge].
    - rewrite lookup_app_l in Hx by done.
      destruct (decide (i < current pool)%nat) as [Hi|Hi].
      { left. split; [done|]. by rewrite <- (G1 i Hi). }
      destruct (decide (S i = length (blocks pool))) as [Hl|Hl].
      { right. right. left. split; [done|]. by rewrite <- (G3 i Hl). }
      right. left. split; [lia|]. split; [lia|].
      destruct (lookup_lt_is_Some_2 (blocks pool) i) as [b Hb]; [lia|].
      exists b. split; [done|].
      rewrite (G2 i b) in Hx by (done || lia). by injection Hx.
    - right. right. right.
      rewrite lookup_app_r in Hx by lia.
      destruct (i - length bs')%nat as [|k] eqn:Hk; simpl in Hx; [|done].
      split; [lia|]. by injection Hx. }
  assert (forall i x, (cur' <= i)%nat -> (bs' ++ [g]) !! i = Some x ->
            0 <= d_failed x <= 5) as Hlive.
  { intros i x Hi Hx.
    destruct (Hzone i x Hx) as [[Hlt _]|[(_ & Hlt & b & Hb & ->)|[[_ Hb]|[_ ->]]]].
    - lia.
    - assert (0 <= d_failed b <= 5) as Hr by (apply (H2 i); [lia|done]).
      assert (~ 4 < d_failed b) as Hn.
      { intros Hgt. pose proof (G5 i b ltac:(lia) Hlt Hb Hgt). lia. }
      cbn [set_failed d_failed]. rewrite uint_incr_small by done. lia.
    - apply (H2 i); [lia|done].
    - simpl. lia. }
  unfold failed_inv. cbn [set_blocks blocks current].
  rewrite length_app. simpl length.
  split; [lia|]. split; [|split; [done|split]].
  - intros i x Hi Hx.
    destruct (Hzone i x Hx) as [[Hlt Hb]|[(Hge & Hlt & b & Hb & ->)|[[Hl _]|[Hl _]]]];
      [by apply (H1 i)| |lia|lia].
    destruct G6 as [->|(k & bk & -> & Hk & Hkl & Hbk & Hgt)]; [lia|].
    assert (d_failed bk <= d_failed b) by (apply (H3 i k); [done|lia|done|done]).
    assert (0 <= d_failed b <= 5) as Hr by (by apply (H2 i)).
    cbn [set_failed d_failed]. rewrite uint_incr_small by done. lia.
  - intros i j x y Hi Hij Hx Hy.
    pose proof (Hlive i x Hi Hx) as Hxr.
    destruct (Hzone j y Hy) as [[Hlt _]|[(_ & Hlt & c & Hc' & ->)|[[Hl Hb]|[_ ->]]]].
    + lia.
    + destruct (Hzone i x Hx) as [[Hlt' _]|[(_ & _ & b & Hb & ->)|[[Hl _]|[Hl _]]]];
        [lia| |lia|lia].
      assert (d_failed c <= d_failed b) by (apply (H3 i j); [lia|done|done|done]).
      assert (0 <= d_failed b <= 5) by (apply (H2 i); [lia|done]).
      assert (0 <= d_failed c <= 5) by (apply (H2 j); [lia|done]).
      cbn [set_failed d_failed]. rewrite !uint_incr_small by done. lia.
    + assert (d_failed y = 0) as ->; [|lia].
      apply H4. rewrite last_lookup. by replace (pred (length (blocks pool))) with j by lia.
    + simpl. lia.
  - intros b. rewrite last_snoc. by intros [= <-].
Qed.

Lemma ngx_palloc_small_failed_inv {pf : platform} (pool : ngx_pool_t) (size : Z)
    (al : bool) (e : env) :
  6 < 2 ^ size_t_bits ->
  failed_inv pool ->
  failed_inv (ngx_palloc_small pool size al e).1.2.
Proof.
  intros Hbits Hinv. unfold ngx_palloc_small.
  destruct (palloc_scan _ _ _) as [[m bs']|] eqn:Hscan;
    [|by apply ngx_palloc_block_failed_inv].
  destruct (palloc_scan_hit _ _ _ _ _ Hscan) as (k & b & Hb & -> & _ & _).
  cbn [fst snd ret].
  pose proof Hinv as (Hc & _).
  rewrite take_insert_drop by lia.
  rewrite lookup_drop in Hb.
  apply failed_inv_same_counters; [done|by rewrite length_insert|].
  intros i b' Hb'.
  destruct (decide (i = (current pool + k)%nat)) as [->|Hne].
  - rewrite list_lookup_insert_eq in Hb' by (by apply lookup_lt_Some in Hb).
    injection Hb' as <-. by exists b.
  - rewrite list_lookup_insert_ne in Hb' by done. by exists b'.
Qed.

Lemma failed_inv_set_large (pool : ngx_pool_t) (ls : list ngx_pool_large_t) :
  failed_inv pool -> failed_inv (set_large pool ls).
Proof. done. Qed.

Lemma link_large_failed_inv {pf : platform} (pool : ngx_pool_t) (p : Z) (e : env)
    (m : Z) (pool' : ngx_pool_t) (e' : env) :
  6 < 2 ^ size_t_bits ->
  failed_inv pool ->
  (let* (lg, pool1) := ngx_palloc_small pool sizeof_ngx_pool_large_t true in
   if lg =? NULL then ngx_free p ;;; ret (NULL, pool1)
   else ret (p, set_large pool1 ({| l_addr := lg; alloc := p |} :: large pool1))) e
    = (m, pool', e') ->
  failed_inv pool'.
Proof.
  intros Hbits Hinv. unfold bind.
  pose proof (ngx_palloc_small_failed_inv pool sizeof_ngx_pool_large_t true e Hbits Hinv)
    as Hs.
  destruct (ngx_palloc_small pool sizeof_ngx_pool_large_t true e) as [[lg pool1] e1].
  destruct (lg =? NULL); unfold ngx_free, emit, ret; simpl; intros H; simplify_eq;
    exact Hs.
Qed.

Lemma ngx_palloc_large_failed_inv {pf : platform} (pool : ngx_pool_t) (size : Z) (e : env) :
  6 < 2 ^ size_t_bits ->
  failed_inv pool ->
  failed_inv (ngx_palloc_large pool size e).1.2.
Proof.
  intros Hbits Hinv.
  destruct (ngx_palloc_large pool size e) as [[m pool'] e'] eqn:H.
  unfold ngx_palloc_large, ngx_alloc, bind, next_answer, emit, ret in H.
  cbn [fst snd] in H.
  destruct (hd NULL (heap e) =? NULL); [by simplify_eq|].
  destruct (large_scan (large pool) 0 (hd NULL (heap e))) as [ls|].
  { simplify_eq. exact Hinv. }
  exact (link_large_failed_inv pool (hd NULL (heap e))
           (log_events (pop_answer e) [ev_alloc size (hd NULL (heap e))])
           m pool' e' Hbits Hinv H).
Qed.

Lemma ngx_pmemalign_failed_inv {pf : platform} (pool : ngx_pool_t) (size alignment : Z)
    (e : env) :
  6 < 2 ^ size_t_bits ->
  failed_inv pool ->
  failed_inv (ngx_pmemalign pool size alignment e).1.2.
Proof.
  intros Hbits Hinv.
  destruct (ngx_pmemalign pool size alignment e) as [[m pool'] e'] eqn:H.
  unfold ngx_pmemalign, ngx_memalign, bind, next_answer, emit, ret in H.
  cbn [fst snd] in H.
  destruct (hd NULL (heap e) =? NULL); [by simplify_eq|].
  exact (link_large_failed_inv pool (hd NULL (heap e))
           (log_events (pop_answer e) [ev_memalign alignment size (hd NULL (heap e))])
           m pool' e' Hbits Hinv H).
Qed.

Lemma failed_inv_bound (pool : ngx_pool_t) (b : ngx_pool_data_t) :
  failed_inv pool -> b ∈ blocks pool -> 0 <= d_failed b <= 6.
Proof.
  intros (_ & H1 & H2 & _ & _) Hb.
  apply list_elem_of_lookup_1 in Hb as [i Hi].
  destruct (decide (i < current pool)%nat) as [Hlt|Hge].
  - rewrite (H1 i b Hlt Hi). lia.
  - pose proof (H2 i b ltac:(lia) Hi). lia.
Qed.

Lemma allocation_failed_inv {pf : platform} (pool : ngx_pool_t) (size : Z) (al : bool)
    (e : env) :
  6 < 2 ^ size_t_bits ->
  failed_inv pool ->
  failed_inv ((if al then ngx_palloc pool size else ngx_pnalloc pool size) e).1.2.
Proof.
  intros Hbits Hinv. unfold ngx_palloc, ngx_pnalloc.
  destruct al; destruct (size <=? max pool);
    by (apply ngx_palloc_small_failed_inv || apply ngx_palloc_large_failed_inv).
Qed.

Lemma ngx_reset_pool_failed_inv {pf : platform} (pool : ngx_pool_t) (e : env) :
  failed_inv pool -> failed_inv (ngx_reset_pool pool e).1.
Proof.
  intros (Hc & _).
  rewrite ngx_reset_pool_spec. cbn [fst].
  unfold failed_inv. cbn [blocks current]. rewrite length_map.
  split; [lia|]. split; [lia|].
  assert (forall i b', map reset_block (blocks pool) !! i = Some b' -> d_failed b' = 0) as Hz.
  { intros i b' Hb'. rewrite list_lookup_fmap in Hb'.
    destruct (blocks pool !! i); [|done]. by injection Hb' as <-. }
  split; [|split].
  - intros i b' _ Hb'. rewrite (Hz i b' Hb'). lia.
  - intros i j b' c' _ _ Hb' Hc'. rewrite (Hz i b' Hb'), (Hz j c' Hc'). lia.
  - intros b'. rewrite last_lookup. apply Hz.
Qed.

(** X9.  The [failed] counters stay in step with [current]: whatever
    [ngx_palloc], [ngx_pnalloc] and [ngx_pmemalign] do to a chain whose
    blocks before [current] hold the count 6, whose blocks from [current]
    on hold counts of at most 5 that do not grow along the chain, and
    whose last block holds 0, leaves such a chain; [ngx_reset_pool] makes
    one.  So a counter never exceeds 6 and never wraps, and a block is
    passed over by [current] exactly when its count reaches 6. *)
Theorem failed_counters_follow_current {pf : platform}
    (pool : ngx_pool_t) (size alignment : Z) (al : bool) (e : env) :
  6 < 2 ^ size_t_bits ->
  failed_inv pool ->
  let pool' := ((if al then ngx_palloc pool size else ngx_pnalloc pool size) e).1.2 in
  failed_inv pool' /\
  (forall b, b ∈ blocks pool' -> 0 <= d_failed b <= 6) /\
  failed_inv (ngx_pmemalign pool size alignment e).1.2 /\
  failed_inv (ngx_reset_pool pool e).1.
Proof.
  intros Hbits Hinv pool'.
  assert (failed_inv pool') as Hinv' by (by apply allocation_failed_inv).
  split; [done|]. split; [intros b; by apply failed_inv_bound|].
  split; [by apply ngx_pmemalign_failed_inv|by apply ngx_reset_pool_failed_inv].
Qed.

Lemma five_failures_pool_counters :
  let pool' := (@ngx_palloc lp64 five_failures_pool 100 (quiet_env [16384])).1.2 in
  failed_inv pool' /\
  (forall b, b ∈ blocks pool' -> 0 <= d_failed b <= 6) /\
  failed_inv (@ngx_pmemalign lp64 five_failures_pool 100 16 (quiet_env [16384])).1.2 /\
  failed_inv (@ngx_reset_pool lp64 five_failures_pool (quiet_env [16384])).1.
Proof.
  apply (@failed_counters_follow_current lp64 five_failures_pool 100 16 true
           (quiet_env [16384])); [reflexivity|].
  unfold failed_inv. simpl.
  split; [lia|]. split; [intros i b Hi; lia|]. split; [|split].
  - intros i b _ Hb. destruct i as [|[|[|i]]]; simpl in Hb; simplify_eq; simpl; lia.
  - intros i j b c _ Hij Hb Hc.
    destruct i as [|[|[|i]]]; destruct j as [|[|[|j]]]; simpl in Hb, Hc; simplify_eq;
      simpl; lia.
  - by intros b [= <-].
Defined.

(** ** Nothing is released twice *)

Lemma large_frees_app (ls1 ls2 : list ngx_pool_large_t) :
  large_frees (ls1 ++ ls2) = large_frees ls1 ++ large_frees ls2.
Proof.
  induction ls1 as [|l ls1 IH]; [done|].
  cbn [app large_frees]. destruct (alloc l =? NULL); [done|]. by rewrite IH.
Qed.

Lemma large_frees_elem (ls : list ngx_pool_large_t) (p : Z) :
  ev_free p ∈ large_frees ls -> exists l, l ∈ ls /\ alloc l = p /\ p <> NULL.
Proof.
  induction ls as [|l ls IH]; cbn [large_frees]; [by intros ?%elem_of_nil|].
  destruct (Z.eqb_spec (alloc l) NULL) as [|Hnz].
  - intros (x & Hx & Hp)%IH. exists x. split; [by right|done].
  - intros [Heq|Hin]%elem_of_cons.
    + injection Heq as ->. exists l. split; [by left|done].
    + destruct (IH Hin) as (x & Hx & Hp). exists x. split; [by right|done].
Qed.

Lemma large_frees_NoDup (ls : list ngx_pool_large_t) :
  payloads_distinct ls = true -> NoDup (large_frees ls).
Proof.
  induction ls as [|l ls IH]; [constructor|].
  intros Hd. pose proof Hd as Hd'.
  cbn [payloads_distinct] in Hd'. apply andb_true_iff in Hd' as [_ Hrest].
  cbn [large_frees]. destruct (Z.eqb_spec (alloc l) NULL) as [|Hnz]; [by apply IH|].
  constructor; [|by apply IH].
  intros (x & Hx & Heq & _)%large_frees_elem.
  pose proof (payloads_distinct_head l ls Hd Hnz) as Hall.
  rewrite Forall_forall in Hall. by apply (Hall x Hx).
Qed.

Lemma large_frees_complete (ls : list ngx_pool_large_t) (l : ngx_pool_large_t) :
  l ∈ ls -> alloc l <> NULL -> ev_free (alloc l) ∈ large_frees ls.
Proof.
  intros Hl Hnz. induction ls as [|x ls IH]; [by apply elem_of_nil in Hl|].
  cbn [large_frees]. apply elem_of_cons in Hl as [->|Hl].
  - destruct (Z.eqb_spec (alloc x) NULL); [done|by left].
  - destruct (alloc x =? NULL); [|right]; by apply IH.
Qed.

Lemma large_frees_vacate (ls1 ls2 : list ngx_pool_large_t) (l : ngx_pool_large_t) :
  large_frees (ls1 ++ set_alloc l NULL :: ls2) = large_frees ls1 ++ large_frees ls2.
Proof. by rewrite large_frees_app. Qed.

Lemma block_frees_NoDup {pf : platform} (pool : ngx_pool_t) :
  platform_ok -> pool_wf pool = true -> NoDup (block_frees (blocks pool)).
Proof.
  intros (_ & Ha & _ & _ & Hd & Hp) Hwf.
  destruct (pool_inv_of_wf pool [] Hwf (pool_wf_alone pool Hwf))
    as (Hps & _ & _ & _ & Hblk & _ & Hapart).
  simpl in Hapart. rewrite app_nil_r in Hapart.
  apply NoDup_alt. intros i j x Hi Hj. unfold block_frees in Hi, Hj.
  rewrite list_lookup_fmap in Hi, Hj.
  destruct (blocks pool !! i) as [b|] eqn:Hb; [|done].
  destruct (blocks pool !! j) as [c|] eqn:Hc; [|done].
  simpl in Hi, Hj. destruct (decide (i = j)) as [|Hne]; [done|exfalso].
  assert (d_addr b = d_addr c) as Heq by congruence.
  destruct (Hblk i b Hb) as (_ & _ & Hbe & _ & _).
  destruct (Hblk j c Hc) as (_ & _ & Hce & _ & _).
  destruct (Hapart i j (extent b) (extent c) Hne) as [H|H];
    [by rewrite list_lookup_fmap, Hb|by rewrite list_lookup_fmap, Hc| |];
    unfold extent in H; simpl in H; lia.
Qed.

(** X10.  A payload released with [ngx_pfree] is not released again: of
    the payloads [ngx_destroy_pool] or [ngx_reset_pool] would have
    released before the call, the later [ngx_destroy_pool] or
    [ngx_reset_pool] releases all but the one [ngx_pfree] has released, in
    the same order, and none of them twice. *)
Theorem pfree_payload_is_released_once {pf : platform}
    (pool : ngx_pool_t) (p : Z) (e : env) (pool' : ngx_pool_t) (e' : env) :
  payloads_distinct (large pool) = true ->
  p <> NULL ->
  ngx_pfree pool p e = (NGX_OK, pool', e') ->
  exists fs1 fs2 : list event,
    large_frees (large pool) = fs1 ++ ev_free p :: fs2 /\
    large_frees (large pool') = fs1 ++ fs2 /\
    trace e' = trace e ++ [ev_free p] /\
    (ev_free p ∉ fs1 ++ fs2) /\
    NoDup (fs1 ++ fs2) /\
    (forall e2, trace (ngx_destroy_pool pool' e2).2
       = trace e2 ++ pending_calls (cleanup pool) ++ (fs1 ++ fs2)
           ++ block_frees (blocks pool)) /\
    (forall e2, trace (ngx_reset_pool pool' e2).2 = trace e2 ++ fs1 ++ fs2).
Proof.
  intros Hd Hp H.
  destruct (first_payload_split (large pool) p) as [Hnone|(ls1 & l & ls2 & Hl & H1 & Hal)].
  { rewrite (ngx_pfree_not_found pool p e Hnone) in H. discriminate. }
  rewrite (ngx_pfree_found pool p e ls1 l ls2 Hl H1 Hal) in H.
  injection H as <- <-.
  exists (large_frees ls1), (large_frees ls2).
  assert (large_frees (large pool) = large_frees ls1 ++ ev_free p :: large_frees ls2) as Hfs.
  { rewrite Hl, large_frees_app. cbn [large_frees].
    destruct (Z.eqb_spec (alloc l) NULL) as [|_]; [congruence|]. by rewrite Hal. }
  pose proof (large_frees_NoDup _ Hd) as Hnd. rewrite Hfs in Hnd.
  apply NoDup_app in Hnd as (Hn1 & Hn12 & Hn2).
  apply NoDup_cons in Hn2 as [Hn2 Hn3].
  split; [done|]. split; [apply large_frees_vacate|].
  split; [done|]. split.
  { intros [Hin|Hin]%elem_of_app; [|done].
    apply (Hn12 _ Hin). by left. }
  split.
  { apply NoDup_app. split; [done|]. split; [|done].
    intros x Hx Hx2. apply (Hn12 x Hx). by right. }
  split.
  - intros e2. rewrite ngx_destroy_pool_spec. unfold destroy_events.
    cbn [log_events trace set_large cleanup large blocks].
    by rewrite large_frees_vacate.
  - intros e2. rewrite ngx_reset_pool_spec.
    cbn [snd log_events trace set_large large]. by rewrite large_frees_vacate.
Qed.

Lemma large_pool_payload_released_once :
  exists fs1 fs2 : list event,
    large_frees (large large_pool) = fs1 ++ ev_free 20000 :: fs2 /\
    large_frees (large (ngx_pfree large_pool 20000 (quiet_env [])).1.2) = fs1 ++ fs2 /\
    trace (ngx_pfree large_pool 20000 (quiet_env [])).2
      = trace (quiet_env []) ++ [ev_free 20000] /\
    (ev_free 20000 ∉ fs1 ++ fs2) /\
    NoDup (fs1 ++ fs2) /\
    (forall e2, trace (ngx_destroy_pool (ngx_pfree large_pool 20000 (quiet_env [])).1.2 e2).2
       = trace e2 ++ pending_calls (cleanup large_pool) ++ (fs1 ++ fs2)
           ++ block_frees (blocks large_pool)) /\
    (forall e2, trace (@ngx_reset_pool lp64
                         (ngx_pfree large_pool 20000 (quiet_env [])).1.2 e2).2
       = trace e2 ++ fs1 ++ fs2).
Proof.
  apply (@pfree_payload_is_released_once lp64 large_pool 20000 (quiet_env []));
    [reflexivity|discriminate|reflexivity].
Defined.

(** X11.  [ngx_destroy_pool] releases nothing twice: in a well-formed pool
    whose large list holds no payload twice and no address of a block,
    the addresses it passes to [ngx_free] are pairwise different, one for
    every block and one for every payload in use. *)
Theorem destroy_releases_nothing_twice {pf : platform} (pool : ngx_pool_t) (e : env) :
  platform_ok ->
  pool_wf pool = true ->
  payloads_distinct (large pool) = true ->
  Forall (fun l => Forall (fun b => alloc l <> d_addr b) (blocks pool)) (large pool) ->
  trace (ngx_destroy_pool pool e).2
    = trace e ++ pending_calls (cleanup pool)
        ++ large_frees (large pool) ++ block_frees (blocks pool) /\
  NoDup (large_frees (large pool) ++ block_frees (blocks pool)) /\
  length (block_frees (blocks pool)) = length (blocks pool) /\
  (forall l, l ∈ large pool -> alloc l <> NULL -> ev_free (alloc l) ∈ large_frees (large pool)).
Proof.
  intros Hpf Hwf Hd Hcross.
  split; [by rewrite ngx_destroy_pool_spec|].
  split.
  - apply NoDup_app. split; [by apply large_frees_NoDup|].
    split; [|by apply block_frees_NoDup].
    intros x Hx Hb. unfold block_frees in Hb.
    apply list_elem_of_fmap in Hb as (b & -> & Hb).
    apply large_frees_elem in Hx as (l & Hl & Heq & _).
    rewrite Forall_forall in Hcross. specialize (Hcross l Hl).
    rewrite Forall_forall in Hcross. by apply (Hcross b Hb).
  - split; [unfold block_frees; by rewrite length_map|].
    intros l. apply large_frees_complete.
Qed.

Lemma two_block_pool_released_once :
  trace (ngx_destroy_pool two_block_pool (quiet_env [])).2
    = trace (quiet_env []) ++ pending_calls (cleanup two_block_pool)
        ++ large_frees (large two_block_pool) ++ block_frees (blocks two_block_pool) /\
  NoDup (large_frees (large two_block_pool) ++ block_frees (blocks two_block_pool)) /\
  length (block_frees (blocks two_block_pool)) = length (blocks two_block_pool) /\
  (forall l, l ∈ large two_block_pool -> alloc l <> NULL ->
     ev_free (alloc l) ∈ large_frees (large two_block_pool)).
Proof.
  apply (@destroy_releases_nothing_twice lp64 two_block_pool (quiet_env []));
    [exact lp64_ok|reflexivity|reflexivity|].
  repeat constructor; simpl; lia.
Defined.

(** ** A vacated node is used again *)

Lemma large_scan_finds_vacated (ls : list ngx_pool_large_t) (k : nat)
    (l : ngx_pool_large_t) (q : Z) :
  ls !! k = Some l -> alloc l = NULL -> (k <= 4)%nat ->
  exists ls1 x ls2,
    ls = ls1 ++ x :: ls2 /\ alloc x = NULL /\ (length ls1 <= k)%nat /\
    Forall (fun y => alloc y <> NULL) ls1 /\
    large_scan ls 0 q = Some (ls1 ++ set_alloc x q :: ls2).
Proof.
  intros Hl Hal Hk.
  destruct (first_split (fun y => alloc y =? NULL) ls)
    as [Hnone|(ls1 & x & ls2 & -> & H1 & Hx)].
  { rewrite Forall_lookup in Hnone. specialize (Hnone k l Hl). simpl in Hnone.
    apply Z.eqb_neq in Hnone. done. }
  apply Z.eqb_eq in Hx.
  assert (Forall (fun y => alloc y <> NULL) ls1) as H1'.
  { eapply Forall_impl; [exact H1|]. intros y Hy. by apply Z.eqb_neq. }
  assert (length ls1 <= k)%nat as Hlen.
  { destruct (decide (length ls1 <= k)%nat) as [|Hgt]; [done|exfalso].
    rewrite lookup_app_l in Hl by lia.
    rewrite Forall_lookup in H1'. by apply (H1' k l Hl). }
  exists ls1, x, ls2. split; [done|]. split; [done|]. split; [done|]. split; [done|].
  apply large_scan_hit; [done|done|lia].
Qed.

(** X12.  The node [ngx_pfree] vacates is there for the next large
    allocation: when the node that held the pointer is one of the first
    five of the list, the [ngx_palloc_large] that follows takes no room
    from the blocks for a new node and asks the allocator for the payload
    only; it puts its payload in the first vacated node of the list, which
    is the node [ngx_pfree] vacated or one before it. *)
Theorem freed_slot_is_reused {pf : platform}
    (pool : ngx_pool_t) (p size : Z) (e : env) (pool1 : ngx_pool_t) (e1 : env)
    (k : nat) (l : ngx_pool_large_t) (q : Z) :
  ngx_pfree pool p e = (NGX_OK, pool1, e1) ->
  large pool !! k = Some l ->
  alloc l = p ->
  (k <= 4)%nat ->
  hd NULL (heap e) = q ->
  q <> NULL ->
  exists (pool2 : ngx_pool_t) (ls1 : list ngx_pool_large_t) (x : ngx_pool_large_t)
         (ls2 : list ngx_pool_large_t),
    ngx_palloc_large pool1 size e1
      = (q, pool2, log_events (pop_answer e1) [ev_alloc size q]) /\
    large pool1 = ls1 ++ x :: ls2 /\
    alloc x = NULL /\
    (length ls1 <= k)%nat /\
    Forall (fun y => alloc y <> NULL) ls1 /\
    large pool2 = ls1 ++ set_alloc x q :: ls2 /\
    length (large pool2) = length (large pool) /\
    blocks pool2 = blocks pool /\
    current pool2 = current pool /\
    cleanup pool2 = cleanup pool.
Proof.
  intros H Hl Hal Hk Hq Hnz.
  destruct (first_payload_split (large pool) p) as [Hnone|(m1 & l0 & m2 & Hsplit & H1 & Hal0)].
  { rewrite (ngx_pfree_not_found pool p e Hnone) in H. discriminate. }
  rewrite (ngx_pfree_found pool p e m1 l0 m2 Hsplit H1 Hal0) in H.
  injection H as <- <-.
  assert (length m1 <= k)%nat as Hlen.
  { destruct (decide (length m1 <= k)%nat) as [|Hgt]; [done|exfalso].
    rewrite Hsplit, lookup_app_l in Hl by lia.
    rewrite Forall_lookup in H1. by apply (H1 k l Hl). }
  destruct (large_scan_finds_vacated (m1 ++ set_alloc l0 NULL :: m2) (length m1)
              (set_alloc l0 NULL) q)
    as (ls1 & x & ls2 & Heq & Hx & Hlen1 & Hused & Hscan); [|done|lia|].
  { by rewrite list_lookup_middle. }
  exists (set_large (set_large pool (m1 ++ set_alloc l0 NULL :: m2))
            (ls1 ++ set_alloc x q :: ls2)), ls1, x, ls2.
  split.
  { unfold ngx_palloc_large, ngx_alloc, bind, next_answer, emit, ret.
    cbn [log_events heap set_large large fst snd]. rewrite Hq.
    destruct (Z.eqb_spec q NULL) as [|_]; [done|]. by rewrite Hscan. }
  split; [done|]. split; [done|]. split; [lia|]. split; [done|]. split; [done|].
  split; [|done].
  cbn [set_large large]. rewrite Hsplit.
  transitivity (length (ls1 ++ x :: ls2)).
  - rewrite !length_app. done.
  - rewrite <- Heq. rewrite !length_app. done.
Qed.

Lemma large_pool_freed_slot_is_reused :
  exists (pool2 : ngx_pool_t) (ls1 : list ngx_pool_large_t) (x : ngx_pool_large_t)
         (ls2 : list ngx_pool_large_t),
    @ngx_palloc_large lp64 (ngx_pfree large_pool 20000 (quiet_env [50000])).1.2 3000
        (ngx_pfree large_pool 20000 (quiet_env [50000])).2
      = (50000, pool2,
         log_events (pop_answer (ngx_pfree large_pool 20000 (quiet_env [50000])).2)
           [ev_alloc 3000 50000]) /\
    large (ngx_pfree large_pool 20000 (quiet_env [50000])).1.2 = ls1 ++ x :: ls2 /\
    alloc x = NULL /\
    (length ls1 <= 2)%nat /\
    Forall (fun y => alloc y <> NULL) ls1 /\
    large pool2 = ls1 ++ set_alloc x 50000 :: ls2 /\
    length (large pool2) = length (large large_pool) /\
    blocks pool2 = blocks large_pool /\
    current pool2 = current large_pool /\
    cleanup pool2 = cleanup large_pool.
Proof.
  apply (@freed_slot_is_reused lp64 large_pool 20000 3000 (quiet_env [50000]) _ _
           2%nat {| l_addr := 4176; alloc := 20000 |} 50000);
    [reflexivity|reflexivity|reflexivity|lia|reflexivity|discriminate].
Defined.

(** ** [ngx_create_pool] with a size below the header *)

(** X13.  [ngx_create_pool] checks the answer of the allocator and nothing
    else.  On NULL it returns NULL.  A size below [sizeof(ngx_pool_t)] is
    taken as it is: the subtraction [size - sizeof(ngx_pool_t)] wraps, so
    [max] is [NGX_MAX_ALLOC_FROM_POOL]; the cursor of the block starts
    beyond its end, the pool is not well formed, and [ngx_pnalloc] hands
    out, for any request of at most [max] bytes, the address
    [p + sizeof(ngx_pool_t)], beyond the end [p + size] of what the
    allocator gave. *)
Theorem ngx_create_pool_undersized {pf : platform} (size lg : Z) (e : env) (p : Z) :
  0 <= NGX_MAX_ALLOC_FROM_POOL ->
  sizeof_ngx_pool_t + NGX_MAX_ALLOC_FROM_POOL <= 2 ^ size_t_bits ->
  0 <= size < sizeof_ngx_pool_t ->
  hd NULL (heap e) = p ->
  (p = NULL ->
   ngx_create_pool size lg e
     = (None, log_events (pop_answer e) [ev_memalign NGX_POOL_ALIGNMENT size NULL])) /\
  (p <> NULL ->
   exists pool,
     ngx_create_pool size lg e
       = (Some pool, log_events (pop_answer e) [ev_memalign NGX_POOL_ALIGNMENT size p]) /\
     max pool = NGX_MAX_ALLOC_FROM_POOL /\
     d_end (root pool) = p + size /\
     d_last (root pool) = p + sizeof_ngx_pool_t /\
     pool_wf pool = false /\
     forall n e1, 0 <= n <= NGX_MAX_ALLOC_FROM_POOL ->
       (ngx_pnalloc pool n e1).1.1 = p + sizeof_ngx_pool_t /\
       (ngx_pnalloc pool n e1).2 = e1).
Proof.
  intros Hmax Hbits Hsz Hp.
  unfold ngx_create_pool, ngx_memalign, bind, next_answer, emit, ret. rewrite Hp.
  split; [by intros ->|]. intros Hnz.
  destruct (Z.eqb_spec p NULL) as [|_]; [done|].
  assert (to_size_t (size - sizeof_ngx_pool_t) = size - sizeof_ngx_pool_t + 2 ^ size_t_bits)
    as Hwrap.
  { unfold to_size_t.
    rewrite <- (Z_mod_plus_full (size - sizeof_ngx_pool_t) 1 (2 ^ size_t_bits)).
    rewrite Z.mul_1_l. apply Z.mod_small. lia. }
  eexists. split; [reflexivity|].
  cbn [max root blocks hd d_end d_last]. rewrite Hwrap.
  destruct (Z.ltb_spec (size - sizeof_ngx_pool_t + 2 ^ size_t_bits) NGX_MAX_ALLOC_FROM_POOL)
    as [Hlt|_]; [lia|].
  split; [done|]. split; [done|]. split; [done|]. split.
  - unfold pool_wf, psize, root. cbn [blocks hd d_end d_addr].
    destruct (Z.leb_spec sizeof_ngx_pool_t (p + size - p)) as [Hle|_]; [lia|done].
  - intros n e1 Hn. unfold ngx_pnalloc. cbn [max].
    destruct (Z.leb_spec n NGX_MAX_ALLOC_FROM_POOL) as [_|Hgt]; [|lia].
    unfold ngx_palloc_small. cbn [current blocks drop take palloc_scan d_last d_end].
    replace (p + size - (p + sizeof_ngx_pool_t)) with (size - sizeof_ngx_pool_t) by lia.
    rewrite Hwrap.
    destruct (Z.leb_spec n (size - sizeof_ngx_pool_t + 2 ^ size_t_bits)) as [_|Hgt]; [|lia].
    done.
Qed.

Lemma create_40_is_not_well_formed :
  (4096 = NULL ->
   @ngx_create_pool lp64 40 NULL (quiet_env [4096])
     = (None, log_events (pop_answer (quiet_env [4096])) [ev_memalign 16 40 NULL])) /\
  (4096 <> NULL ->
   exists pool,
     @ngx_create_pool lp64 40 NULL (quiet_env [4096])
       = (Some pool, log_events (pop_answer (quiet_env [4096])) [ev_memalign 16 40 4096]) /\
     max pool = 4095 /\
     d_end (root pool) = 4096 + 40 /\
     d_last (root pool) = 4096 + 80 /\
     @pool_wf lp64 pool = false /\
     forall n e1, 0 <= n <= 4095 ->
       (@ngx_pnalloc lp64 pool n e1).1.1 = 4096 + 80 /\
       (@ngx_pnalloc lp64 pool n e1).2 = e1).
Proof.
  apply (@ngx_create_pool_undersized lp64 40 NULL (quiet_env [4096]) 4096);
    [simpl; lia|simpl; lia|simpl; lia|reflexivity].
Defined.

(** ** Where a cleanup node and its data are *)

Lemma placed_in_data_region {pf : platform} (p p' : ngx_pool_t) (hs : list Z) (r : range) :
  pool_inv p' hs -> placed p p' r ->
  in_data_region p' r /\ (r_aligned r = true -> r_addr r mod NGX_ALIGNMENT = 0).
Proof.
  intros (_ & _ & _ & _ & Hblk & _ & _) (i & b' & Hb' & H1 & H2 & _ & _ & Hal).
  split; [|done]. exists i, b'. split; [done|]. split; [done|].
  destruct (Hblk i b' Hb') as (_ & _ & _ & _ & H5). lia.
Qed.

(** ** When a small allocation fails *)

Lemma palloc_scan_positive {pf : platform} (pool : ngx_pool_t) (hs : list Z)
    (size : Z) (al : bool) (m : Z) (bs' : list ngx_pool_data_t) :
  platform_ok ->
  pool_inv pool hs ->
  palloc_scan (drop (current pool) (blocks pool)) size al = Some (m, bs') ->
  0 < m.
Proof.
  intros Hpf (_ & _ & _ & _ & Hblk & _ & _) Hscan.
  destruct (palloc_scan_hit _ _ _ _ _ Hscan) as (k & b & Hb & _ & -> & _).
  rewrite lookup_drop in Hb.
  destruct (Hblk _ b Hb) as (H1 & _ & _ & H4 & _).
  pose proof (header_size_nonneg (current pool + k) Hpf) as Hh.
  destruct Hpf as (_ & Ha & _).
  pose proof (ngx_align_ptr_ge (d_last b) NGX_ALIGNMENT Ha).
  destruct al; lia.
Qed.

(** X15.  A request of at most [max] bytes fails only when the underlying
    allocator does: in a well-formed pool [ngx_palloc] and [ngx_pnalloc]
    return NULL for such a request only after [ngx_memalign] has answered
    NULL to the request for a new block, and the pool is then exactly what
    it was, the [failed] counters included.  A call that succeeds has
    either not called the allocator at all or has called it once, for a
    block that is now the last of the chain. *)
Theorem small_allocation_fails_only_with_allocator {pf : platform}
    (pool : ngx_pool_t) (size : Z) (al : bool) (e : env) :
  platform_ok ->
  pool_wf pool = true ->
  heap_fresh pool (heap e) = true ->
  0 <= size <= max pool ->
  let r := (if al then ngx_palloc pool size else ngx_pnalloc pool size) e in
  (r.1.1 = NULL ->
   hd NULL (heap e) = NULL /\
   r.1.2 = pool /\
   r.2 = log_events (pop_answer e)
           [ev_memalign NGX_POOL_ALIGNMENT (to_size_t (psize pool)) NULL]) /\
  (r.1.1 <> NULL ->
   (r.2 = e /\ length (blocks r.1.2) = length (blocks pool)) \/
   (hd NULL (heap e) <> NULL /\
    r.2 = log_events (pop_answer e)
            [ev_memalign NGX_POOL_ALIGNMENT (to_size_t (psize pool)) (hd NULL (heap e))] /\
    length (blocks r.1.2) = S (length (blocks pool)) /\
    last (blocks r.1.2) = Some (grown_block pool size (hd NULL (heap e))))).
Proof.
  intros Hpf Hwf Hfresh Hsz r. unfold r.
  pose proof (pool_inv_of_wf _ _ Hwf Hfresh) as Hinv.
  rewrite (small_call pool size al (proj2 Hsz)).
  unfold ngx_palloc_small.
  destruct (palloc_scan _ _ _) as [[m bs']|] eqn:Hscan.
  - pose proof (palloc_scan_positive pool _ size al m bs' Hpf Hinv Hscan) as Hpos.
    cbn [ret fst snd set_blocks blocks]. split; [unfold NULL; lia|].
    intros _. left. split; [done|].
    destruct (palloc_scan_hit _ _ _ _ _ Hscan) as (k & b & Hb & -> & _ & _).
    rewrite length_app, length_insert, <- length_app. by rewrite take_drop.
  - destruct (Z.eq_dec (hd NULL (heap e)) NULL) as [Hnull|Hm].
    + rewrite (ngx_palloc_block_fails pool size e Hnull). cbn [fst snd].
      split; [done|]. intros Hne. done.
    + destruct Hinv as (_ & _ & _ & Hc & _ & Hans & _).
      destruct (ngx_palloc_block_grows pool size e _ eq_refl Hm Hc)
        as (bs1 & cur' & -> & Hlen & _).
      cbn [fst snd set_blocks blocks].
      assert (0 < hd NULL (heap e)) as Hpos.
      { apply Hans; [|done]. destruct (heap e) as [|a hs]; [done|]. by left. }
      destruct Hpf as (_ & Ha & _ & _ & Hd & _).
      pose proof (ngx_align_ptr_ge (hd NULL (heap e) + sizeof_ngx_pool_data_t)
                    NGX_ALIGNMENT Ha).
      split; [unfold NULL in *; lia|].
      intros _. right. split; [done|]. split; [done|].
      split; [rewrite length_app; simpl; lia|by rewrite last_snoc].
Qed.

Lemma full_pool_small_request_fails_with_allocator :
  let r := @ngx_palloc lp64 full_pool 100 (quiet_env []) in
  (r.1.1 = NULL ->
   hd NULL (heap (quiet_env [])) = NULL /\
   r.1.2 = full_pool /\
   r.2 = log_events (pop_answer (quiet_env []))
           [ev_memalign 16 (@to_size_t lp64 (psize full_pool)) NULL]) /\
  (r.1.1 <> NULL ->
   (r.2 = quiet_env [] /\ length (blocks r.1.2) = length (blocks full_pool)) \/
   (hd NULL (heap (quiet_env [])) <> NULL /\
    r.2 = log_events (pop_answer (quiet_env []))
            [ev_memalign 16 (@to_size_t lp64 (psize full_pool))
               (hd NULL (heap (quiet_env [])))] /\
    length (blocks r.1.2) = S (length (blocks full_pool)) /\
    last (blocks r.1.2)
      = Some (@grown_block lp64 full_pool 100 (hd NULL (heap (quiet_env [])))))).
Proof.
  apply (@small_allocation_fails_only_with_allocator lp64 full_pool 100 true (quiet_env []));
    [exact lp64_ok|reflexivity|reflexivity|simpl; lia].
Defined.

(** ** What every allocating operation keeps *)

Section allocators.
Context {pf : platform}.
Variable R : ngx_pool_t -> ngx_pool_t -> Prop.
Hypothesis R_refl : forall p, R p p.
Hypothesis R_large : forall p p' ls, R p p' -> R p (set_large p' ls).
Hypothesis R_small : forall p size al e, R p (ngx_palloc_small p size al e).1.2.

Lemma link_large_keeps (pool : ngx_pool_t) (p : Z) (e : env)
    (m : Z) (pool' : ngx_pool_t) (e' : env) :
  (let* (lg, pool1) := ngx_palloc_small pool sizeof_ngx_pool_large_t true in
   if lg =? NULL then ngx_free p ;;; ret (NULL, pool1)
   else ret (p, set_large pool1 ({| l_addr := lg; alloc := p |} :: large pool1))) e
    = (m, pool', e') ->
  R pool pool'.
Proof.
  unfold bind.
  pose proof (R_small pool sizeof_ngx_pool_large_t true e) as Hs.
  destruct (ngx_palloc_small pool sizeof_ngx_pool_large_t true e) as [[lg pool1] e1].
  destruct (lg =? NULL); unfold ngx_free, emit, ret; simpl; intros H; simplify_eq;
    [exact Hs|by apply R_large].
Qed.

Lemma ngx_palloc_large_keeps (pool : ngx_pool_t) (size : Z) (e : env) :
  R pool (ngx_palloc_large pool size e).1.2.
Proof.
  destruct (ngx_palloc_large pool size e) as [[m pool'] e'] eqn:H.
  unfold ngx_palloc_large, ngx_alloc, bind, next_answer, emit, ret in H.
  cbn [fst snd] in H.
  destruct (hd NULL (heap e) =? NULL); [simplify_eq; apply R_refl|].
  destruct (large_scan (large pool) 0 (hd NULL (heap e))) as [ls|].
  { simplify_eq. apply R_large, R_refl. }
  exact (link_large_keeps pool (hd NULL (heap e))
           (log_events (pop_answer e) [ev_alloc size (hd NULL (heap e))]) m pool' e' H).
Qed.

Lemma ngx_pmemalign_keeps (pool : ngx_pool_t) (size alignment : Z) (e : env) :
  R pool (ngx_pmemalign pool size alignment e).1.2.
Proof.
  destruct (ngx_pmemalign pool size alignment e) as [[m pool'] e'] eqn:H.
  unfold ngx_pmemalign, ngx_memalign, bind, next_answer, emit, ret in H.
  cbn [fst snd] in H.
  destruct (hd NULL (heap e) =? NULL); [simplify_eq; apply R_refl|].
  exact (link_large_keeps pool (hd NULL (heap e))
           (log_events (pop_answer e) [ev_memalign alignment size (hd NULL (heap e))])
           m pool' e' H).
Qed.

Lemma allocation_keeps (pool : ngx_pool_t) (size : Z) (al : bool) (e : env) :
  R pool ((if al then ngx_palloc pool size else ngx_pnalloc pool size) e).1.2.
Proof.
  unfold ngx_palloc, ngx_pnalloc.
  destruct al; destruct (size <=? max pool);
    (apply R_small || apply ngx_palloc_large_keeps).
Qed.
End allocators.

(** ** Blocks before [current] *)

Lemma ngx_palloc_small_skips_retired {pf : platform} (pool : ngx_pool_t) (size : Z)
    (al : bool) (e : env) :
  (current pool < length (blocks pool))%nat ->
  (current pool <= current (ngx_palloc_small pool size al e).1.2
     < length (blocks (ngx_palloc_small pool size al e).1.2))%nat /\
  forall i, (i < current pool)%nat ->
    blocks (ngx_palloc_small pool size al e).1.2 !! i = blocks pool !! i.
Proof.
  intros Hc. unfold ngx_palloc_small.
  destruct (palloc_scan _ _ _) as [[m bs']|] eqn:Hscan.
  - destruct (palloc_scan_hit _ _ _ _ _ Hscan) as (k & b & Hb & -> & _ & _).
    cbn [ret fst snd set_blocks blocks current].
    rewrite take_insert_drop by lia. rewrite length_insert. split; [lia|].
    intros i Hi. apply list_lookup_insert_ne. lia.
  - destruct (Z.eq_dec (hd NULL (heap e)) NULL) as [Hnull|Hm].
    + rewrite (ngx_palloc_block_fails pool size e Hnull). cbn [fst snd]. split; [lia|done].
    + destruct (ngx_palloc_block_grows pool size e _ eq_refl Hm Hc)
        as (bs1 & cur' & -> & Hlen & G1 & _ & _ & G4 & _).
      cbn [fst snd set_blocks blocks current]. rewrite length_app. simpl length.
      split; [lia|]. intros i Hi. rewrite lookup_app_l by lia. by apply G1.
Qed.

(** X16.  A block [current] has passed is never used again: whatever
    [ngx_palloc], [ngx_pnalloc] and [ngx_pmemalign] do, the blocks before
    [current] are afterwards what they were, cursor and counter included,
    also when they have room for the request; and [current] does not move
    back and stays a block of the chain. *)
Theorem retired_blocks_are_never_used {pf : platform}
    (pool : ngx_pool_t) (size alignment : Z) (al : bool) (e : env) :
  (current pool < length (blocks pool))%nat ->
  let pool' := ((if al then ngx_palloc pool size else ngx_pnalloc pool size) e).1.2 in
  let pool'' := (ngx_pmemalign pool size alignment e).1.2 in
  (current pool <= current pool' < length (blocks pool'))%nat /\
  (forall i, (i < current pool)%nat -> blocks pool' !! i = blocks pool !! i) /\
  (current pool <= current pool'' < length (blocks pool''))%nat /\
  (forall i, (i < current pool)%nat -> blocks pool'' !! i = blocks pool !! i).
Proof.
  intros Hc pool' pool''.
  set (R := fun p q : ngx_pool_t =>
              (current p < length (blocks p))%nat ->
              (current p <= current q < length (blocks q))%nat /\
              forall i, (i < current p)%nat -> blocks q !! i = blocks p !! i).
  assert (forall p, R p p) as R_refl by (intros p Hp; split; [lia|done]).
  assert (forall p p' ls, R p p' -> R p (set_large p' ls)) as R_large by done.
  assert (forall p s a e0, R p (ngx_palloc_small p s a e0).1.2) as R_small.
  { intros p s a e0 Hp. by apply ngx_palloc_small_skips_retired. }
  destruct (allocation_keeps R R_refl R_large R_small pool size al e Hc) as [H1 H2].
  destruct (ngx_pmemalign_keeps R R_refl R_large R_small pool size alignment e Hc)
    as [H3 H4].
  done.
Qed.

(** A pool whose root block has been passed by [current] although it has
    room left. *)
Lemma retired_root_is_never_used :
  let pool := set_blocks five_failures_pool
                [ {| d_addr := 4096; d_last := 4176; d_end := 5120; d_failed := 6 |};
                  {| d_addr := 8192; d_last := 9216; d_end := 9216; d_failed := 0 |} ] 1 in
  let pool' := (@ngx_palloc lp64 pool 100 (quiet_env [12288])).1.2 in
  let pool'' := (@ngx_pmemalign lp64 pool 100 64 (quiet_env [12288])).1.2 in
  (current pool <= current pool' < length (blocks pool'))%nat /\
  (forall i, (i < current pool)%nat -> blocks pool' !! i = blocks pool !! i) /\
  (current pool <= current pool'' < length (blocks pool''))%nat /\
  (forall i, (i < current pool)%nat -> blocks pool'' !! i = blocks pool !! i).
Proof.
  apply (@retired_blocks_are_never_used lp64
           (set_blocks five_failures_pool
              [ {| d_addr := 4096; d_last := 4176; d_end := 5120; d_failed := 6 |};
                {| d_addr := 8192; d_last := 9216; d_end := 9216; d_failed := 0 |} ] 1)
           100 64 true (quiet_env [12288])).
  simpl. lia.
Defined.

(** ** Requests that fit the current block *)

Lemma bump_cursor_le {pf : platform} (reqs : list (Z * bool)) :
  forall cursor : Z,
  0 < NGX_ALIGNMENT ->
  Forall (fun q => 0 <= q.1) reqs ->
  cursor <= (bump cursor reqs).2.
Proof.
  induction reqs as [|[size al] reqs IH]; intros cursor Ha Hall; [simpl; lia|].
  apply Forall_cons in Hall as [Hs Hall]. simpl in Hs. cbn [bump snd].
  pose proof (IH ((if al then ngx_align_ptr cursor NGX_ALIGNMENT else cursor) + size)
                Ha Hall) as Hle.
  pose proof (ngx_align_ptr_ge cursor NGX_ALIGNMENT Ha).
  destruct al; lia.
Qed.

Lemma set_last_same (b : ngx_pool_data_t) : set_last b (d_last b) = b.
Proof. by destruct b. Qed.

Lemma run_allocs_bump {pf : platform} (reqs : list (Z * bool)) :
  forall (pool : ngx_pool_t) (e : env) (b : ngx_pool_data_t),
  0 < NGX_ALIGNMENT ->
  blocks pool !! current pool = Some b ->
  0 < d_last b ->
  d_end b - d_last b < 2 ^ size_t_bits ->
  Forall (fun q => 0 <= q.1 <= max pool) reqs ->
  (bump (d_last b) reqs).2 <= d_end b ->
  run_allocs pool reqs e
    = ((bump (d_last b) reqs).1,
       set_blocks pool
         (<[current pool := set_last b (bump (d_last b) reqs).2]> (blocks pool))
         (current pool),
       e).
Proof.
  induction reqs as [|[size al] reqs IH]; intros pool e b Ha Hb Hpos Hroom Hall Hfit.
  { cbn [run_allocs bump fst snd ret]. rewrite set_last_same, list_insert_id by done.
    by destruct pool. }
  apply Forall_cons in Hall as [Hs Hall]. cbn [fst] in Hs.
  cbn [bump fst snd] in Hfit |- *.
  set (m := if al then ngx_align_ptr (d_last b) NGX_ALIGNMENT else d_last b) in *.
  assert (d_last b <= m) as Hm.
  { unfold m. pose proof (ngx_align_ptr_ge (d_last b) NGX_ALIGNMENT Ha). destruct al; lia. }
  assert (m + size <= (bump (m + size) reqs).2) as Hle.
  { apply bump_cursor_le; [done|]. eapply Forall_impl; [exact Hall|]. simpl. lia. }
  cbn [run_allocs]. rewrite (small_call pool size al (proj2 Hs)).
  unfold bind at 1. unfold ngx_palloc_small.
  pose proof (take_drop_middle (blocks pool) (current pool) b Hb) as Hsplit.
  pose proof (lookup_lt_Some _ _ _ Hb) as Hlen.
  rewrite (drop_S _ _ _ Hb). cbn [palloc_scan]. fold m.
  assert (to_size_t (d_end b - m) = d_end b - m) as ->.
  { unfold to_size_t. apply Z.mod_small. lia. }
  destruct (Z.leb_spec size (d_end b - m)) as [_|Hno]; [|lia].
  unfold ret at 1. cbn beta iota.
  set (b1 := set_last b (m + size)).
  set (pool1 := set_blocks pool
                  (take (current pool) (blocks pool)
                     ++ b1 :: drop (S (current pool)) (blocks pool)) (current pool)).
  assert (blocks pool1 = <[current pool := b1]> (blocks pool)) as Hbs1.
  { unfold pool1. cbn [set_blocks blocks].
    rewrite <- Hsplit at 3. rewrite insert_app_r_alt by (rewrite length_take; lia).
    rewrite length_take. replace (current pool - current pool `min` length (blocks pool))%nat
      with 0%nat by lia. done. }
  assert (blocks pool1 !! current pool1 = Some b1) as Hb1.
  { rewrite Hbs1. cbn [pool1 set_blocks current]. by apply list_lookup_insert_eq. }
  unfold bind at 1. rewrite (IH pool1 _ b1 Ha Hb1); cbn [b1 set_last d_last d_end];
    [|lia|lia|exact Hall|exact Hfit].
  unfold ret. cbn [fst snd].
  destruct (Z.eqb_spec m NULL) as [Hnull|_]; [unfold NULL in Hnull; lia|].
  f_equal. f_equal. rewrite Hbs1. cbn [pool1 set_blocks current max chain large cleanup log].
  unfold set_blocks. f_equal. rewrite list_insert_insert_eq. done.
Qed.

Lemma bump_back_to_back {pf : platform} (reqs : list (Z * bool)) :
  forall (cursor : Z) (i : nat) (r1 r2 : range),
  0 < NGX_ALIGNMENT ->
  (bump cursor reqs).1 !! i = Some r1 ->
  (bump cursor reqs).1 !! S i = Some r2 ->
  r_addr r1 + r_size r1 <= r_addr r2 < r_addr r1 + r_size r1 + NGX_ALIGNMENT /\
  (r_aligned r2 = false -> r_addr r2 = r_addr r1 + r_size r1) /\
  (r_aligned r2 = true -> r_addr r2 mod NGX_ALIGNMENT = 0).
Proof.
  induction reqs as [|[size al] reqs IH]; intros cursor i r1 r2 Ha H1 H2; [done|].
  cbn [bump fst] in H1, H2.
  destruct i as [|i].
  - injection H1 as <-. cbn [r_addr r_size].
    destruct reqs as [|[size2 al2] reqs]; [done|].
    cbn [bump fst] in H2. injection H2 as <-. cbn [r_addr r_aligned].
    set (c := (if al then ngx_align_ptr cursor NGX_ALIGNMENT else cursor) + size).
    pose proof (ngx_align_ptr_ge c NGX_ALIGNMENT Ha).
    pose proof (ngx_align_ptr_lt c NGX_ALIGNMENT Ha).
    pose proof (ngx_align_ptr_mod c NGX_ALIGNMENT).
    destruct al2; (split; [lia|split; [done|done]]).
  - simpl in H1, H2. by apply (IH _ i r1 r2 Ha H1 H2).
Qed.

(** X19.  Requests that fit the block at [current] are cut from it back
    to back.  Take the block at [current], with a cursor above NULL and
    room within the [size_t] range, and requests of at most [max] bytes
    that, laid out one after the other from the cursor, each rounded up
    to [NGX_ALIGNMENT] if it goes through [ngx_palloc], end at or before
    the end of the block.  Then [ngx_palloc] and [ngx_pnalloc] hand out
    exactly these ranges, call the allocator for none of them, and leave
    the pool as it was but for the cursor of that block, now at the end of
    the last range.  A range of [ngx_pnalloc] starts where the range
    before ends; a range of [ngx_palloc] starts less than [NGX_ALIGNMENT]
    bytes after it, on an aligned address. *)
Theorem requests_are_cut_back_to_back {pf : platform}
    (pool : ngx_pool_t) (reqs : list (Z * bool)) (e : env) (b : ngx_pool_data_t) :
  0 < NGX_ALIGNMENT ->
  blocks pool !! current pool = Some b ->
  0 < d_last b ->
  d_end b - d_last b < 2 ^ size_t_bits ->
  Forall (fun q => 0 <= q.1 <= max pool) reqs ->
  (bump (d_last b) reqs).2 <= d_end b ->
  let r := run_allocs pool reqs e in
  r.1.1 = (bump (d_last b) reqs).1 /\
  r.2 = e /\
  r.1.2 = set_blocks pool
            (<[current pool := set_last b (bump (d_last b) reqs).2]> (blocks pool))
            (current pool) /\
  length r.1.1 = length reqs /\
  (forall r1, r.1.1 !! 0%nat = Some r1 ->
     d_last b <= r_addr r1 /\ (r_aligned r1 = false -> r_addr r1 = d_last b)) /\
  (forall i r1 r2, r.1.1 !! i = Some r1 -> r.1.1 !! S i = Some r2 ->
     r_addr r1 + r_size r1 <= r_addr r2 < r_addr r1 + r_size r1 + NGX_ALIGNMENT /\
     (r_aligned r2 = false -> r_addr r2 = r_addr r1 + r_size r1) /\
     (r_aligned r2 = true -> r_addr r2 mod NGX_ALIGNMENT = 0)).
Proof.
  intros Ha Hb Hpos Hroom Hall Hfit r. unfold r.
  rewrite (run_allocs_bump reqs pool e b Ha Hb Hpos Hroom Hall Hfit). cbn [fst snd].
  split; [done|]. split; [done|]. split; [done|]. split; [|split].
  - clear. generalize (d_last b). induction reqs as [|[size al] reqs IH]; intros c; [done|].
    cbn [bump fst length]. by rewrite IH.
  - intros r1 H1. destruct reqs as [|[size al] reqs]; [done|].
    cbn [bump fst] in H1. injection H1 as <-. cbn [r_addr r_aligned].
    pose proof (ngx_align_ptr_ge (d_last b) NGX_ALIGNMENT Ha).
    destruct al; (split; [lia|done]).
  - intros i r1 r2. by apply bump_back_to_back.
Qed.

Lemma fresh_pool_requests_back_to_back :
  let reqs := [ (5, false); (3, false); (16, true); (1, false) ] in
  let b := {| d_addr := 4096; d_last := 4176; d_end := 5120; d_failed := 0 |} in
  let r := @run_allocs lp64 fresh_pool reqs (quiet_env []) in
  r.1.1 = (@bump lp64 (d_last b) reqs).1 /\
  r.2 = quiet_env [] /\
  r.1.2 = set_blocks fresh_pool
            (<[current fresh_pool := set_last b (@bump lp64 (d_last b) reqs).2]>
               (blocks fresh_pool))
            (current fresh_pool) /\
  length r.1.1 = length reqs /\
  (forall r1, r.1.1 !! 0%nat = Some r1 ->
     d_last b <= r_addr r1 /\ (r_aligned r1 = false -> r_addr r1 = d_last b)) /\
  (forall i r1 r2, r.1.1 !! i = Some r1 -> r.1.1 !! S i = Some r2 ->
     r_addr r1 + r_size r1 <= r_addr r2 < r_addr r1 + r_size r1 + 8 /\
     (r_aligned r2 = false -> r_addr r2 = r_addr r1 + r_size r1) /\
     (r_aligned r2 = true -> r_addr r2 mod 8 = 0)).
Proof.
  apply (@requests_are_cut_back_to_back lp64 fresh_pool
           [ (5, false); (3, false); (16, true); (1, false) ] (quiet_env [])
           {| d_addr := 4096; d_last := 4176; d_end := 5120; d_failed := 0 |}).
  - simpl; lia.
  - reflexivity.
  - simpl; lia.
  - simpl; lia.
  - repeat constructor; simpl; lia.
  - vm_compute. discriminate.
Defined.

(** ** A cleanup node after a reset *)

(** X20.  [ngx_reset_pool] makes the memory of the cleanup nodes available
    again while the nodes stay on the cleanup list.  Register a cleanup
    without data on a well-formed pool that is as [ngx_create_pool] left
    it: the node lies right after the [ngx_pool_t] header.  After
    [ngx_reset_pool] the node is still on the cleanup list, and the next
    [ngx_palloc] or [ngx_pnalloc] of at most [max] bytes returns the
    address of the node. *)
Theorem reset_hands_out_cleanup_node_again {pf : platform}
    (pool : ngx_pool_t) (size : Z) (al : bool) (e : env) :
  platform_ok ->
  pool_wf pool = true ->
  current pool = 0%nat ->
  d_last (root pool) = d_addr (root pool) + sizeof_ngx_pool_t ->
  sizeof_ngx_pool_t mod NGX_ALIGNMENT = 0 ->
  0 <= sizeof_ngx_pool_cleanup_t <= max pool ->
  0 <= size <= max pool ->
  let c := (ngx_pool_cleanup_add pool 0 e).1.1 in
  let p1 := (ngx_pool_cleanup_add pool 0 e).1.2 in
  let e1 := (ngx_pool_cleanup_add pool 0 e).2 in
  let p2 := (ngx_reset_pool p1 e1).1 in
  let e2 := (ngx_reset_pool p1 e1).2 in
  c = d_addr (root pool) + sizeof_ngx_pool_t /\
  c <> NULL /\
  cleanup p2 = {| c_addr := c; handler := None; data := NULL |} :: cleanup pool /\
  ((if al then ngx_palloc p2 size else ngx_pnalloc p2 size) e2).1.1 = c.
Proof.
  intros Hpf Hwf Hcur Hlast Hmod Hcs Hsz c p1 e1 p2 e2.
  pose proof (first_allocation_at_data pool sizeof_ngx_pool_cleanup_t true e
                Hpf Hwf Hcur Hlast (fun _ => Hmod) Hcs) as Hc.
  cbn iota in Hc.
  destruct (pool_inv_of_wf pool [] Hwf (pool_wf_alone pool Hwf))
    as (_ & _ & _ & Hlen & Hblk & _ & _).
  assert (0 < d_addr (root pool)) as Hroot.
  { unfold root. destruct (blocks pool) as [|r rest] eqn:Hbs; [simpl in Hlen; lia|].
    by destruct (Hblk 0%nat r eq_refl) as (H1 & _). }
  assert (0 <= sizeof_ngx_pool_t) as Hhdr.
  { destruct Hpf as (_ & Ha & _ & _ & Hd & Hp). lia. }
  set (p1' := set_blocks pool
                (set_last (root pool)
                   (d_addr (root pool) + sizeof_ngx_pool_t + sizeof_ngx_pool_cleanup_t)
                 :: tl (blocks pool)) 0) in Hc.
  set (node := {| c_addr := d_addr (root pool) + sizeof_ngx_pool_t;
                  handler := None; data := NULL |}).
  assert (ngx_pool_cleanup_add pool 0 e
          = (d_addr (root pool) + sizeof_ngx_pool_t,
             set_cleanup p1' (node :: cleanup pool), e)) as Hadd.
  { unfold ngx_pool_cleanup_add, bind. rewrite Hc.
    destruct (Z.eqb_spec (d_addr (root pool) + sizeof_ngx_pool_t) NULL) as [Hn|_];
      [unfold NULL in Hn; lia|].
    done. }
  unfold p2, e2, e1, p1, c. rewrite Hadd. cbn [fst snd].
  split; [done|]. split; [unfold NULL; lia|].
  rewrite ngx_reset_pool_spec. cbn [fst snd cleanup set_cleanup].
  split; [done|].
  set (q := set_cleanup p1' (node :: cleanup pool)).
  assert (pool_wf q = true) as Hwfq.
  { pose proof (first_allocation_at_data pool sizeof_ngx_pool_cleanup_t true
                  {| heap := []; files := files e; trace := trace e |}
                  Hpf Hwf Hcur Hlast (fun _ => Hmod) Hcs) as Hc0.
    rewrite (small_call pool _ true (proj2 Hcs)) in Hc0.
    destruct (ngx_palloc_small_step pool _ true
                {| heap := []; files := files e; trace := trace e |} _ _ _ Hpf
                (pool_inv_of_wf pool [] Hwf (pool_wf_alone pool Hwf)) Hcs Hc0)
      as (Hinv1 & _ & _).
    apply (pool_wf_of_inv _ _) in Hinv1 as [Hw _]. exact Hw. }
  pose proof (ngx_reset_pool_inv q [] e Hpf
                (pool_inv_of_wf q [] Hwfq (pool_wf_alone q Hwfq))) as (Hinv2 & _ & _).
  rewrite ngx_reset_pool_spec in Hinv2. cbn [fst] in Hinv2.
  apply (pool_wf_of_inv _ _) in Hinv2 as [Hwf2 _].
  match goal with |- context [(if al then ngx_palloc ?p size else _) ?e0] =>
    rewrite (first_allocation_at_data p size al e0 Hpf Hwf2) end.
  - cbn [fst]. unfold root. cbn [blocks q set_cleanup p1' set_blocks map reset_block d_addr
                                 set_last hd]. done.
  - done.
  - unfold root. cbn [blocks q set_cleanup p1' set_blocks map reset_block d_addr
                      d_last set_last hd]. done.
  - by intros _.
  - done.
Qed.

Lemma fresh_pool_reset_hands_out_cleanup_node :
  let c := (@ngx_pool_cleanup_add lp64 fresh_pool 0 (quiet_env [])).1.1 in
  let p1 := (@ngx_pool_cleanup_add lp64 fresh_pool 0 (quiet_env [])).1.2 in
  let e1 := (@ngx_pool_cleanup_add lp64 fresh_pool 0 (quiet_env [])).2 in
  let p2 := (@ngx_reset_pool lp64 p1 e1).1 in
  let e2 := (@ngx_reset_pool lp64 p1 e1).2 in
  c = d_addr (root fresh_pool) + 80 /\
  c <> NULL /\
  cleanup p2 = {| c_addr := c; handler := None; data := NULL |} :: cleanup fresh_pool /\
  (@ngx_palloc lp64 p2 100 e2).1.1 = c.
Proof.
  apply (@reset_hands_out_cleanup_node_again lp64 fresh_pool 100 true (quiet_env []));
    [exact lp64_ok|reflexivity|reflexivity|reflexivity|reflexivity|simpl; lia|simpl; lia].
Defined.

(** ** Cleanup nodes in pool memory *)

Lemma handed_out_spec {pf : platform} (bs : list ngx_pool_data_t) (a n : Z) :
  forall i : nat,
  handed_out bs i a n = true <->
  exists (k : nat) (b : ngx_pool_data_t),
    bs !! k = Some b /\ d_addr b + header_size (i + k) <= a /\ a + n <= d_last b.
Proof.
  induction bs as [|b bs IH]; intros i; cbn [handed_out].
  { split; [done|]. by intros (k & b & Hb & _). }
  rewrite orb_true_iff, andb_true_iff, Z.leb_le, Z.leb_le, IH. split.
  - intros [[H1 H2]|(k & x & Hx & H1 & H2)].
    + exists 0%nat, b. by rewrite Nat.add_0_r.
    + exists (S k), x. split; [done|]. by rewrite <- Nat.add_succ_comm.
  - intros ([|k] & x & Hx & H1 & H2).
    + left. simpl in Hx. injection Hx as <-. by rewrite Nat.add_0_r in H1.
    + right. exists k, x. split; [done|]. by rewrite Nat.add_succ_comm.
Qed.

Lemma distinct_NoDup (xs : list Z) : distinct xs = true <-> NoDup xs.
Proof.
  induction xs as [|x xs IH]; cbn [distinct]; [split; [constructor|done]|].
  rewrite andb_true_iff, IH, NoDup_cons, forallb_forall. split.
  - intros [H1 H2]. split; [|done]. intros Hx%list_elem_of_In.
    specialize (H1 x Hx). by rewrite Z.eqb_refl in H1.
  - intros [H1 H2]. split; [|done]. intros y Hy%list_elem_of_In.
    destruct (Z.eqb_spec y x) as [->|]; done.
Qed.

Lemma cleanup_live_ok {pf : platform} (pool : ngx_pool_t) :
  cleanup_live pool = true <-> cleanup_ok pool.
Proof.
  unfold cleanup_live, cleanup_ok.
  rewrite andb_true_iff, distinct_NoDup, forallb_forall, Forall_forall.
  split; intros [H1 H2]; (split; [|done]).
  - intros c Hc%list_elem_of_In. by apply (handed_out_spec _ _ _ 0%nat), H1.
  - intros c Hc%list_elem_of_In. by apply (handed_out_spec _ _ _ 0%nat), H1.
Qed.

Lemma live_grows {pf : platform} (p p' : ngx_pool_t) (a : Z) :
  grows p p' -> live p a -> live p' a.
Proof.
  intros (_ & _ & Hg) (i & b & Hb & H1 & H2).
  destruct (Hg i b Hb) as (b' & Hb' & Ha & _ & Hl).
  exists i, b'. split; [done|]. lia.
Qed.

Lemma placed_live {pf : platform} (p p' : ngx_pool_t) (m : Z) (al : bool) :
  placed p p' {| r_addr := m; r_size := sizeof_ngx_pool_cleanup_t; r_aligned := al |} ->
  live p' m.
Proof. intros (i & b' & Hb' & H1 & H2 & _). by exists i, b'. Qed.

(** What is placed by an allocation lies apart from every node that was
    live before it. *)
Lemma live_placed_apart {pf : platform} (p p' : ngx_pool_t) (hs : list Z) (a : Z)
    (r : range) :
  platform_ok ->
  pool_inv p' hs ->
  grows p p' ->
  live p a ->
  placed p p' r ->
  a + sizeof_ngx_pool_cleanup_t <= r_addr r \/ r_addr r + r_size r <= a.
Proof.
  intros Hpf (_ & _ & _ & _ & Hblk & _ & Hapart) (_ & _ & Hg)
    (j & b & Hb & Ha1 & Ha2) (i & b' & Hb' & Hr1 & Hr2 & _ & Hr3 & _).
  destruct (decide (i = j)) as [->|Hne].
  - left. specialize (Hr3 b Hb). lia.
  - destruct (Hg j b Hb) as (bj & Hbj & Haddr & Hend & Hlast).
    destruct (Hblk j bj Hbj) as (_ & _ & _ & _ & Hj5).
    destruct (Hblk i b' Hb') as (_ & _ & _ & _ & Hi5).
    pose proof (header_size_nonneg i Hpf) as Hhi. pose proof (header_size_nonneg j Hpf) as Hhj.
    destruct (Hapart i j (extent b') (extent bj) Hne) as [H|H].
    + apply lookup_app_l_Some. by rewrite list_lookup_fmap, Hb'.
    + apply lookup_app_l_Some. by rewrite list_lookup_fmap, Hbj.
    + unfold extent in H. simpl in H. right. lia.
    + unfold extent in H. simpl in H. left. lia.
Qed.

Lemma placed_fresh {pf : platform} (p p' : ngx_pool_t) (hs : list Z) (m : Z) (al : bool)
    (cs : list ngx_pool_cleanup_t) :
  platform_ok ->
  0 < sizeof_ngx_pool_cleanup_t ->
  pool_inv p' hs ->
  grows p p' ->
  Forall (fun c => live p (c_addr c)) cs ->
  placed p p' {| r_addr := m; r_size := sizeof_ngx_pool_cleanup_t; r_aligned := al |} ->
  m ∉ map c_addr cs.
Proof.
  intros Hpf Hsz Hinv Hg Hlive Hpl Hin.
  apply list_elem_of_fmap in Hin as (c & -> & Hc).
  rewrite Forall_forall in Hlive.
  destruct (live_placed_apart p p' hs (c_addr c) _ Hpf Hinv Hg (Hlive c Hc) Hpl) as [H|H];
    simpl in H; lia.
Qed.

(** *** The chain in memory and the list *)









(** *** Registration keeps the chain a list *)




Lemma cleanup_ok_grows {pf : platform} (p p' : ngx_pool_t) :
  grows p p' -> cleanup p' = cleanup p -> cleanup_ok p -> cleanup_ok p'.
Proof.
  intros Hg Hcl [Hlive Hnd]. unfold cleanup_ok. rewrite Hcl. split; [|done].
  eapply Forall_impl; [exact Hlive|]. intros c. by apply live_grows.
Qed.






(** ** Destruction runs what was registered *)





(** ** Failure of the underlying allocator *)






(** ** [ngx_pmemalign] *)

(** X6.  [ngx_pmemalign] never looks for a vacated node: a call that
    succeeds returns the answer of the allocator and links it in a new
    node at the head of the large list, the rest of the list being what it
    was; a call that fails leaves the list as it was, and has released
    the memory it had obtained if it had obtained some.  A well-formed
    pool with room for the list node stays well formed; and when its
    cleanup nodes lie where the pool does not allocate again, the node of
    the large list is carved apart from every one of them, so the cleanup
    list, like [max], [chain] and [log], is what it was. *)
Theorem ngx_pmemalign_links_new_node {pf : platform}
    (pool : ngx_pool_t) (size alignment : Z) (e : env)
    (m : Z) (pool' : ngx_pool_t) (e' : env) :
  ngx_pmemalign pool size alignment e = (m, pool', e') ->
  (m <> NULL ->
   m = hd NULL (heap e) /\
   exists lg, lg <> NULL /\ large pool' = {| l_addr := lg; alloc := m |} :: large pool) /\
  (m = NULL ->
   large pool' = large pool /\
   (hd NULL (heap e) <> NULL -> last (trace e') = Some (ev_free (hd NULL (heap e))))) /\
  (platform_ok ->
   pool_wf pool = true ->
   heap_fresh pool (heap e) = true ->
   0 <= sizeof_ngx_pool_large_t <= max pool ->
   pool_wf pool' = true /\ heap_fresh pool' (heap e') = true /\ grows pool pool' /\
   (cleanup_live pool = true ->
    same_lists pool pool' /\
    cleanup_live pool' = true /\
    forall lg rest,
      m <> NULL ->
      large pool' = {| l_addr := lg; alloc := m |} :: rest ->
      Forall (fun c => c_addr c + sizeof_ngx_pool_cleanup_t <= lg \/
                       lg + sizeof_ngx_pool_large_t <= c_addr c) (cleanup pool))).
Proof.
  intros H. split; [|split].
  - revert H. unfold ngx_pmemalign, ngx_memalign, bind, next_answer, emit, ret.
    destruct (Z.eqb_spec (hd NULL (heap e)) NULL) as [|Hnz]; [intros [= ? ? ?]; congruence|].
    match goal with |- context [ngx_palloc_small ?p ?s ?a ?e1] =>
      pose proof (ngx_palloc_small_frame p s a e1) as [_ Hl];
      destruct (ngx_palloc_small p s a e1) as [[lg pool1] e2] end.
    simpl in Hl. destruct (Z.eqb_spec lg NULL) as [|Hlg]; unfold ngx_free, emit.
    + intros [= ? ? ?]; congruence.
    + intros [= <- <- _] _. split; [done|]. exists lg. split; [done|].
      cbn [set_large large]. by rewrite Hl.
  - intros ->. revert H.
    unfold ngx_pmemalign, ngx_memalign, bind, next_answer, emit, ret.
    destruct (Z.eqb_spec (hd NULL (heap e)) NULL) as [Hp|Hp]; [by intros [= <- <-]|].
    match goal with |- context [ngx_palloc_small ?p ?s ?a ?e1] =>
      pose proof (ngx_palloc_small_frame p s a e1) as [_ Hl];
      destruct (ngx_palloc_small p s a e1) as [[lg pool1] e2] end.
    simpl in Hl. destruct (lg =? NULL).
    + unfold ngx_free, emit. intros [= <- <-]. split; [done|].
      intros _. unfold log_events; simpl. by rewrite last_snoc.
    + intros [= ? ? ?]; congruence.
  - intros Hpf Hwf Hfresh Hsz.
    pose proof (pool_inv_of_wf _ _ Hwf Hfresh) as Hinv0.
    destruct (ngx_pmemalign_inv pool size alignment e Hpf Hinv0 Hsz) as [Hinv Hg].
    rewrite H in Hinv, Hg. simpl in Hinv, Hg.
    destruct (pool_wf_of_inv _ _ Hinv) as [Hw Hh].
    split; [done|]. split; [done|]. split; [done|].
    intros Hlive. apply cleanup_live_ok in Hlive.
    assert (same_lists pool pool') as Hsame.
    { revert H. unfold ngx_pmemalign, ngx_memalign, bind, next_answer, emit, ret.
      destruct (hd NULL (heap e) =? NULL); [by intros [= _ <- _]|].
      match goal with |- context [ngx_palloc_small ?p ?s ?a ?e1] =>
        pose proof (ngx_palloc_small_frame p s a e1) as [Hf _];
        destruct (ngx_palloc_small p s a e1) as [[lg pool1] e2] end.
      simpl in Hf. destruct (lg =? NULL); unfold ngx_free, emit; by intros [= _ <- _]. }
    split; [done|].
    split; [apply cleanup_live_ok, (cleanup_ok_grows pool); [done|by destruct Hsame as (_ & _ & ? & _)|done]|].
    intros lg rest Hm Hlarge. revert H Hlarge.
    unfold ngx_pmemalign, ngx_memalign, bind, next_answer, emit, ret.
    destruct (Z.eqb_spec (hd NULL (heap e)) NULL) as [|Hnz]; [intros [= ? ? ?]; congruence|].
    match goal with |- context [ngx_palloc_small ?p ?s ?a ?e1] =>
      destruct (ngx_palloc_small p s a e1) as [[lg0 pool1] e2] eqn:Hs end.
    destruct (ngx_palloc_small_step pool _ true
                (log_events (pop_answer e) [ev_memalign alignment size (hd NULL (heap e))])
                _ _ _ Hpf (pool_inv_tl _ _ Hinv0) Hsz Hs)
      as (Hinv1 & Hg1 & Hpl).
    destruct (Z.eqb_spec lg0 NULL) as [|Hlg]; unfold ngx_free, emit.
    { intros [= ? ? ?]; congruence. }
    intros [= _ <- _]. cbn [set_large large]. intros [= <- _].
    destruct Hlive as [Hlive _]. eapply Forall_impl; [exact Hlive|].
    intros c Hc.
    by destruct (live_placed_apart pool pool1 _ (c_addr c) _ Hpf Hinv1 Hg1 Hc (Hpl Hlg))
      as [Hap|Hap]; [left|right].
Qed.

Lemma large_pool_memalign_ignores_vacated_node :
  let r := @ngx_pmemalign lp64 large_pool 3000 64 (quiet_env [40000]) in
  (r.1.1 <> NULL ->
   r.1.1 = 40000 /\
   exists lg, lg <> NULL /\
     large r.1.2 = {| l_addr := lg; alloc := r.1.1 |} :: large large_pool) /\
  @pool_wf lp64 r.1.2 = true /\ @heap_fresh lp64 r.1.2 (heap r.2) = true /\
  grows large_pool r.1.2 /\
  same_lists large_pool r.1.2 /\
  @cleanup_live lp64 r.1.2 = true.
Proof.
  destruct (@ngx_pmemalign_links_new_node lp64 large_pool 3000 64 (quiet_env [40000])
              _ _ _ eq_refl) as (H1 & _ & H3).
  destruct (H3 lp64_ok) as (Hw & Hh & Hg & H4); [reflexivity|reflexivity|simpl; lia|].
  destruct H4 as (Hs & Hl & _); [reflexivity|].
  split; [exact H1|]. split; [exact Hw|]. split; [exact Hh|]. split; [exact Hg|].
  split; [exact Hs|exact Hl].
Defined.

(** ** Where a cleanup node and its data are *)

(** X14.  What [ngx_pool_cleanup_add] hands out lies in the pool, apart
    from the nodes that are linked: in a well-formed pool with
    [sizeof(ngx_pool_cleanup_t) <= max] whose cleanup nodes lie where the
    pool does not allocate again, a call for at most [max] bytes of data
    that succeeds links at the head of the cleanup list a node with no
    handler; the node is an aligned range of a block's data region and is
    none of the nodes linked before; the data block, NULL for the size 0,
    is otherwise an aligned range of a block's data region too, apart from
    the node and from every node linked before; and the pool is still
    well formed, with its cleanup nodes where it does not allocate
    again. *)
Theorem cleanup_node_and_data_lie_in_pool {pf : platform}
    (p : ngx_pool_t) (size : Z) (e : env) (c : Z) (p' : ngx_pool_t) (e' : env) :
  platform_ok ->
  pool_wf p = true ->
  heap_fresh p (heap e) = true ->
  cleanup_live p = true ->
  0 < sizeof_ngx_pool_cleanup_t <= max p ->
  0 <= size <= max p ->
  ngx_pool_cleanup_add p size e = (c, p', e') ->
  c <> NULL ->
  let rc := {| r_addr := c; r_size := sizeof_ngx_pool_cleanup_t; r_aligned := true |} in
  exists d,
    cleanup p' = {| c_addr := c; handler := None; data := d |} :: cleanup p /\
    (c ∉ map c_addr (cleanup p)) /\
    in_data_region p' rc /\
    c mod NGX_ALIGNMENT = 0 /\
    (size = 0 -> d = NULL) /\
    (size <> 0 ->
     d <> NULL /\
     in_data_region p' {| r_addr := d; r_size := size; r_aligned := true |} /\
     d mod NGX_ALIGNMENT = 0 /\
     ranges_apart rc {| r_addr := d; r_size := size; r_aligned := true |} /\
     Forall (fun x => c_addr x + sizeof_ngx_pool_cleanup_t <= d \/ d + size <= c_addr x)
            (cleanup p)) /\
    pool_wf p' = true /\
    heap_fresh p' (heap e') = true /\
    cleanup_live p' = true.
Proof.
  intros Hpf Hwf Hfresh Hlive Hcs Hsz H Hc rc.
  pose proof (pool_inv_of_wf _ _ Hwf Hfresh) as Hinv.
  apply cleanup_live_ok in Hlive. destruct Hlive as [Hlive Hnd].
  assert (0 <= sizeof_ngx_pool_cleanup_t <= max p) as Hcs' by lia.
  unfold ngx_pool_cleanup_add, bind in H.
  pose proof (small_call p sizeof_ngx_pool_cleanup_t true (proj2 Hcs)) as Hcall.
  cbn iota in Hcall. rewrite Hcall in H.
  pose proof (ngx_palloc_small_frame p sizeof_ngx_pool_cleanup_t true e) as [Hf1 _].
  destruct (ngx_palloc_small p sizeof_ngx_pool_cleanup_t true e) as [[c0 p1] e1] eqn:H1.
  destruct (ngx_palloc_small_step _ _ _ _ _ _ _ Hpf Hinv Hcs' H1) as (Hinv1 & Hg1 & Hpl1).
  cbn [fst snd] in Hf1. destruct Hf1 as (Hmax1 & _ & Hcl1 & _).
  destruct (Z.eqb_spec c0 NULL) as [|Hc0]; [unfold ret in H; congruence|].
  specialize (Hpl1 Hc0).
  pose proof (placed_fresh p p1 _ c0 true (cleanup p) Hpf (proj1 Hcs) Hinv1 Hg1 Hlive Hpl1)
    as Hnew.
  pose proof (placed_live p p1 c0 true Hpl1) as Hlive0.
  destruct (Z.eqb_spec size 0) as [Hzero|Hnz]; cbn [negb] in H.
  - unfold ret in H. injection H as <- <- <-.
    destruct (placed_in_data_region p p1 _ _ Hinv1 Hpl1) as [Hreg Hal].
    exists NULL. cbn [set_cleanup cleanup]. rewrite Hcl1.
    split; [done|]. split; [done|]. split; [exact Hreg|]. split; [by apply Hal|].
    split; [done|]. split; [done|].
    destruct (pool_wf_of_inv _ _ Hinv1) as [Hw Hh]. split; [exact Hw|]. split; [exact Hh|].
    apply cleanup_live_ok. split; cbn [set_cleanup cleanup map c_addr]; rewrite ?Hcl1.
    + constructor; [exact Hlive0|].
      eapply Forall_impl; [exact Hlive|]. intros x. by apply (live_grows p p1).
    + by apply NoDup_cons.
  - assert (0 <= size <= max p1) as Hsz1 by (rewrite Hmax1; lia).
    pose proof (small_call p1 size true (proj2 Hsz1)) as Hcall2.
    cbn iota in Hcall2. rewrite Hcall2 in H.
    pose proof (ngx_palloc_small_frame p1 size true e1) as [Hf2 _].
    destruct (ngx_palloc_small p1 size true e1) as [[d p2] e2] eqn:H2.
    destruct (ngx_palloc_small_step _ _ _ _ _ _ _ Hpf Hinv1 Hsz1 H2) as (Hinv2 & Hg2 & Hpl2).
    cbn [fst snd] in Hf2. destruct Hf2 as (_ & _ & Hcl2 & _).
    destruct (Z.eqb_spec d NULL) as [|Hd]; [unfold ret in H; congruence|].
    specialize (Hpl2 Hd).
    unfold ret in H. injection H as <- <- <-.
    pose proof (placed_later p p1 p2 _ Hpl1 Hg2) as Hpl1'.
    destruct (placed_in_data_region p p2 _ _ Hinv2 Hpl1') as [Hreg Hal].
    destruct (placed_in_data_region p1 p2 _ _ Hinv2 Hpl2) as [Hregd Hald].
    exists d. cbn [set_cleanup cleanup]. rewrite Hcl2, Hcl1.
    split; [done|]. split; [done|]. split; [exact Hreg|]. split; [by apply Hal|].
    split; [done|]. split.
    { intros _. split; [done|]. split; [exact Hregd|]. split; [by apply Hald|].
      split; [exact (placed_apart p p1 p2 _ _ _ Hpf Hinv2 Hpl1 Hg2 Hpl2)|].
      eapply Forall_impl; [exact Hlive|]. intros x Hx.
      by destruct (live_placed_apart p1 p2 _ (c_addr x) _ Hpf Hinv2 Hg2
                     (live_grows p p1 _ Hg1 Hx) Hpl2) as [Hap|Hap]; [left|right]. }
    destruct (pool_wf_of_inv _ _ Hinv2) as [Hw Hh]. split; [exact Hw|]. split; [exact Hh|].
    apply cleanup_live_ok. split; cbn [set_cleanup cleanup map c_addr]; rewrite ?Hcl2, ?Hcl1.
    + constructor; [by apply (live_grows p1 p2)|].
      eapply Forall_impl; [exact Hlive|]. intros x Hx.
      by apply (live_grows p1 p2), (live_grows p p1).
    + by apply NoDup_cons.
Qed.

Lemma fresh_pool_cleanup_node_and_data :
  let r := @ngx_pool_cleanup_add lp64 file_pool 16 (quiet_env []) in
  let rc := {| r_addr := r.1.1; r_size := 24; r_aligned := true |} in
  exists d,
    cleanup r.1.2 = {| c_addr := r.1.1; handler := None; data := d |} :: cleanup file_pool /\
    (r.1.1 ∉ map c_addr (cleanup file_pool)) /\
    @in_data_region lp64 r.1.2 rc /\
    r.1.1 mod 8 = 0 /\
    (16 = 0 -> d = NULL) /\
    (16 <> 0 ->
     d <> NULL /\
     @in_data_region lp64 r.1.2 {| r_addr := d; r_size := 16; r_aligned := true |} /\
     d mod 8 = 0 /\
     ranges_apart rc {| r_addr := d; r_size := 16; r_aligned := true |} /\
     Forall (fun x => c_addr x + 24 <= d \/ d + 16 <= c_addr x) (cleanup file_pool)) /\
    @pool_wf lp64 r.1.2 = true /\
    @heap_fresh lp64 r.1.2 (heap r.2) = true /\
    @cleanup_live lp64 r.1.2 = true.
Proof.
  apply (@cleanup_node_and_data_lie_in_pool lp64 file_pool 16 (quiet_env []));
    [exact lp64_ok|reflexivity|reflexivity|reflexivity|simpl; lia|simpl; lia|reflexivity
    |discriminate].
Defined.

(** ** [ngx_pcalloc] *)

(** X17.  [ngx_pcalloc] returns what [ngx_palloc] returns and leaves the
    pool [ngx_palloc] leaves.  It calls [ngx_memzero] when the result is
    not NULL and only then, on the range it returns and with the size
    asked for.  For a request of at most [max] bytes on a well-formed
    pool that range is an aligned range of a block's data region, so no
    header of a block is in it, and it is apart from the ranges that
    earlier calls of [ngx_palloc] and [ngx_pnalloc] for at most [max]
    bytes have handed out. *)
Theorem ngx_pcalloc_zeroes_its_range_only {pf : platform}
    (pool : ngx_pool_t) (reqs : list (Z * bool)) (size : Z) (e : env)
    (rs : list range) (pool1 : ngx_pool_t) (e1 : env) :
  platform_ok ->
  pool_wf pool = true ->
  heap_fresh pool (heap e) = true ->
  Forall (fun q => 0 <= q.1 <= max pool) reqs ->
  0 <= size <= max pool ->
  run_allocs pool reqs e = (rs, pool1, e1) ->
  let r := ngx_pcalloc pool1 size e1 in
  (r.1.1, r.2) = ngx_palloc pool1 size e1 /\
  (r.1.1.1 = NULL -> r.1.2 = None) /\
  (r.1.1.1 <> NULL ->
   r.1.2 = Some (r.1.1.1, size) /\
   in_data_region r.1.1.2 {| r_addr := r.1.1.1; r_size := size; r_aligned := true |} /\
   r.1.1.1 mod NGX_ALIGNMENT = 0 /\
   Forall (fun r0 => ranges_apart r0
                       {| r_addr := r.1.1.1; r_size := size; r_aligned := true |}) rs).
Proof.
  intros Hpf Hwf Hfresh Hreqs Hsz Hrun r.
  pose proof (pool_inv_of_wf _ _ Hwf Hfresh) as Hinv.
  destruct (run_allocs_sound reqs pool e rs pool1 e1 Hpf Hinv Hreqs Hrun)
    as (Hinv1 & Hg1 & Hpl & _).
  assert (0 <= size <= max pool1) as Hsz1.
  { destruct Hg1 as (_ & -> & _). done. }
  pose proof (small_call pool1 size true (proj2 Hsz1)) as Hcall. cbn iota in Hcall.
  unfold r, ngx_pcalloc, bind, ret. clear r.
  destruct (ngx_palloc pool1 size e1) as [[m pool2] e2] eqn:Hp.
  rewrite Hcall in Hp.
  destruct (ngx_palloc_small_step _ _ _ _ _ _ _ Hpf Hinv1 Hsz1 Hp) as (Hinv2 & Hg2 & Hnew).
  destruct (Z.eqb_spec m NULL) as [Hm|Hm]; cbn [fst snd].
  - split; [done|]. split; [done|]. by intros [].
  - split; [done|]. split; [by intros ?|]. intros _.
    specialize (Hnew Hm).
    destruct (placed_in_data_region pool1 pool2 _ _ Hinv2 Hnew) as [Hreg Hal].
    split; [done|]. split; [exact Hreg|]. split; [by apply Hal|].
    eapply Forall_impl; [exact Hpl|]. intros r0 Hr0.
    exact (placed_apart pool pool1 pool2 _ r0 _ Hpf Hinv2 Hr0 Hg2 Hnew).
Qed.

Lemma fresh_pool_pcalloc_keeps_earlier_ranges :
  let rr := @run_allocs lp64 fresh_pool mixed_requests (quiet_env [8192]) in
  let r := @ngx_pcalloc lp64 rr.1.2 64 rr.2 in
  (r.1.1, r.2) = @ngx_palloc lp64 rr.1.2 64 rr.2 /\
  (r.1.1.1 = NULL -> r.1.2 = None) /\
  (r.1.1.1 <> NULL ->
   r.1.2 = Some (r.1.1.1, 64) /\
   @in_data_region lp64 r.1.1.2 {| r_addr := r.1.1.1; r_size := 64; r_aligned := true |} /\
   r.1.1.1 mod 8 = 0 /\
   Forall (fun r0 => ranges_apart r0
                       {| r_addr := r.1.1.1; r_size := 64; r_aligned := true |}) rr.1.1).
Proof.
  apply (@ngx_pcalloc_zeroes_its_range_only lp64 fresh_pool mixed_requests 64
           (quiet_env [8192]) _ _
           (@run_allocs lp64 fresh_pool mixed_requests (quiet_env [8192])).2).
  - exact lp64_ok.
  - reflexivity.
  - reflexivity.
  - repeat constructor; simpl; lia.
  - simpl; lia.
  - reflexivity.
Defined.
